(** * Search spaces of baybe: a shallow embedding of [baybe/searchspace.py]

    The development follows the module top to bottom: data frames with
    labelled rows, the discrete subspace (construction, transformation,
    candidate selection, measurement matching), the continuous subspace
    (bounds and the full factorial) and the composed search space with its
    dictionary form.

    Conventions.
    - A Python exception is a value of [exn]; a computation that may raise
      has type [result A].
    - The value of a Python float is a rational ([Q]); the two infinities
      of a bound are constructors of [bound].  NaN is not represented.
      Comparisons, minima and maxima of floats are exact and are those of
      [Q]; the one rounding operation of the measurement matching, the
      subtraction of two float64 columns, is the operation of the class
      [FloatArith], whose instance [float64_arith] rounds to the nearest
      float64.  The conversion of bounds to float32 by [torch.tensor] is
      not represented: tensors hold the values they are built from.
    - A data frame is a list of column labels and a list of rows, each row
      carrying its index label.  Frames are rectangular by convention. *)

From Stdlib Require Import String Bool Arith Lia QArith Qabs Qminmax List.
From Stdlib Require Import Permutation Sorted.
Import ListNotations.
Local Open Scope string_scope.
Local Open Scope nat_scope.
Local Open Scope list_scope.

Set Implicit Arguments.

(* ------------------------------------------------------------------ *)
(** ** Exceptions and results *)

Inductive exn : Type :=
| ValueError_missing_parameter      (* "Values for all parameter must be specified ..." *)
| ValueError_invalid_input (row : nat) (param : string)
| ValueError_not_in_list (item : string)          (* list.index *)
| ValueError_nothing_to_concatenate               (* np.hstack of an empty list *)
| ValueError_no_levels                            (* MultiIndex.from_product([]) *)
| ValueError_too_many_points (n_points available : nat)
| ValueError_min_len                              (* attrs validator min_len(1) *)
| KeyError (label : string)
| KeyError_rows (labels : list nat)
| IndexingError
| TypeError
| RuntimeError_ambiguous_truth.                   (* bool() of a tensor *)

Inductive result (A : Type) : Type :=
| Ok (a : A)
| Raise (e : exn).
Arguments Ok {A} a.
Arguments Raise {A} e.

Definition bind {A B} (r : result A) (k : A -> result B) : result B :=
  match r with
  | Ok a => k a
  | Raise e => Raise e
  end.

Notation "x <- r ;; k" := (bind r (fun x => k))
  (at level 61, r at next level, right associativity).

Fixpoint mapM {A B} (f : A -> result B) (l : list A) : result (list B) :=
  match l with
  | [] => Ok []
  | x :: l' => y <- f x ;; ys <- mapM f l' ;; Ok (y :: ys)
  end.

Fixpoint foldM {A B} (f : A -> B -> result A) (l : list B) (a : A) : result A :=
  match l with
  | [] => Ok a
  | x :: l' => a' <- f a x ;; foldM f l' a'
  end.

(* ------------------------------------------------------------------ *)
(** ** Cell values *)

(** A cell of an experimental representation: a number or a label. *)
Inductive value : Type :=
| VNum (x : Q)
| VStr (s : string).

(** [==] on cells. *)
Definition value_eqb (a b : value) : bool :=
  match a, b with
  | VNum x, VNum y => Qeq_bool x y
  | VStr s, VStr t => String.eqb s t
  | _, _ => false
  end.

(** *** Floating-point subtraction

    [float64] is IEEE 754 binary64 rounding to nearest, ties to even: the
    result of an operation on floats is the rounding of its exact result.
    Numbers below the normal range round to multiples of 2^-1074; numbers
    that round beyond the largest float become infinite, which is
    represented by 2^1024, the least value that does so: deviations are
    only compared with one another, and 2^1024 compares with every float
    and with itself as infinity does. *)

Definition pow2 (e : Z) : Q :=
  if (0 <=? e)%Z then inject_Z (2 ^ e) else (/ inject_Z (2 ^ (- e)))%Q.

(** The nearest integer, the even one of two nearest. *)
Definition round_half_even (q : Q) : Z :=
  let n := Qnum q in
  let d := Zpos (Qden q) in
  let f := (n / d)%Z in
  match (2 * (n mod d) ?= d)%Z with
  | Lt => f
  | Gt => (f + 1)%Z
  | Eq => if Z.even f then f else (f + 1)%Z
  end.

(** The exponent [e] with [2^e <= q < 2^(e+1)], for positive [q]. *)
Definition ilog2 (q : Q) : Z :=
  let c := (Z.log2 (Qnum q) - Z.log2 (Zpos (Qden q)))%Z in
  if Qle_bool (pow2 c) q then c else (c - 1)%Z.

Definition float64 (q : Q) : Q :=
  if Qeq_bool q 0 then 0%Q
  else
    let a := Qabs q in
    let u := Z.max (ilog2 a - 52) (-1074) in
    let r := Qmin (inject_Z (round_half_even (a / pow2 u)%Q) * pow2 u)%Q
                  (pow2 1024) in
    Qred (if Qle_bool 0 q then r else (- r)%Q).

(** [|x - y|] as the code computes it on two numbers. *)
Class FloatArith : Type := {
  float_abs_diff : Q -> Q -> Q
}.

(** float64 columns, the dtype of a pandas column of Python floats: the
    two numbers are the values of floats, their difference is rounded. *)
#[export] Instance float64_arith : FloatArith := {|
  float_abs_diff x y := Qabs (float64 (x - y)%Q)
|}.

(** Arithmetic without rounding: what [float64_arith] computes whenever
    the two numbers and their difference are floats. *)
Definition exact_arith : FloatArith := {|
  float_abs_diff x y := Qabs (x - y)%Q
|}.

(** [(a - b).abs()] on cells; strings do not subtract. *)
Definition abs_diff {FA : FloatArith} (a b : value) : result Q :=
  match a, b with
  | VNum x, VNum y => Ok (float_abs_diff x y)
  | _, _ => Raise TypeError
  end.

Definition mem_string (s : string) (l : list string) : bool :=
  existsb (String.eqb s) l.

Definition mem_nat (n : nat) (l : list nat) : bool :=
  existsb (Nat.eqb n) l.

(** [l.index(x)]: position of the first occurrence. *)
Fixpoint list_index (x : string) (l : list string) : option nat :=
  match l with
  | [] => None
  | y :: l' => if String.eqb x y then Some 0
               else option_map S (list_index x l')
  end.

(** All positions at which a label occurs. *)
Fixpoint positions_from (x : string) (l : list string) (i : nat) : list nat :=
  match l with
  | [] => []
  | y :: l' => if String.eqb x y then i :: positions_from x l' (S i)
               else positions_from x l' (S i)
  end.

Definition positions (x : string) (l : list string) : list nat :=
  positions_from x l 0.

(* ------------------------------------------------------------------ *)
(** ** Data frames *)

Record DataFrame (A : Type) : Type := mkDF {
  columns : list string;
  rows : list (nat * list A)
}.

Section Frames.
Variable A : Type.
Variable dflt : A.

Definition index (df : DataFrame A) : list nat := map fst (rows df).

Definition len (df : DataFrame A) : nat := length (rows df).

(** [pd.DataFrame()] *)
Definition empty_frame : DataFrame A := mkDF [] [].

(** [pd.DataFrame(index=idx)] *)
Definition frame_of_index (idx : list nat) : DataFrame A :=
  mkDF [] (map (fun l => (l, [])) idx).

(** [df.reset_index(drop=True)] *)
Definition reset_index (df : DataFrame A) : DataFrame A :=
  mkDF (columns df) (combine (seq 0 (len df)) (map snd (rows df))).

(** [df.drop(index=inds)]: every label must be present. *)
Definition drop (inds : list nat) (df : DataFrame A) : result (DataFrame A) :=
  if forallb (fun i => mem_nat i (index df)) inds
  then Ok (mkDF (columns df)
                (filter (fun r => negb (mem_nat (fst r) inds)) (rows df)))
  else Raise (KeyError_rows inds).

(** [df[c]] as a labelled series. *)
Definition get_column (df : DataFrame A) (c : string)
  : result (list (nat * A)) :=
  match list_index c (columns df) with
  | None => Raise (KeyError c)
  | Some i => Ok (map (fun r => (fst r, nth i (snd r) dflt)) (rows df))
  end.

(** Projection of a frame on a list of column positions. *)
Definition take_columns (ps : list nat) (df : DataFrame A) : DataFrame A :=
  mkDF (map (fun i => nth i (columns df) "") ps)
       (map (fun r => (fst r, map (fun i => nth i (snd r) dflt) ps)) (rows df)).

(** [df[cols]]: each requested label selects every column carrying it;
    a label that is absent is a KeyError. *)
Definition select (cols : list string) (df : DataFrame A)
  : result (DataFrame A) :=
  pss <- mapM (fun c => match positions c (columns df) with
                        | [] => Raise (KeyError c)
                        | ps => Ok ps
                        end) cols ;;
  Ok (take_columns (concat pss) df).

(** Two frames with the same index side by side. *)
Definition hcat (a b : DataFrame A) : DataFrame A :=
  mkDF (columns a ++ columns b)
       (map (fun ab => (fst (fst ab), snd (fst ab) ++ snd (snd ab)))
            (combine (rows a) (rows b))).

(** [pd.concat(dfs, axis=1) if dfs else pd.DataFrame()] for frames that
    share their index. *)
Fixpoint concat_axis1 (dfs : list (DataFrame A)) : DataFrame A :=
  match dfs with
  | [] => empty_frame
  | [d] => d
  | d :: ds => hcat d (concat_axis1 ds)
  end.

(** The cells of the column at position [i]. *)
Definition column_at (i : nat) (df : DataFrame A) : list A :=
  map (fun r => nth i (snd r) dflt) (rows df).

(** [df.loc[mask]] for a boolean series: positional when the series has
    the index of the frame, by label otherwise (a label without an entry
    cannot be aligned). *)
Fixpoint lookup_label (l : nat) (m : list (nat * bool)) : option bool :=
  match m with
  | [] => None
  | (l', b) :: m' => if Nat.eqb l l' then Some b else lookup_label l m'
  end.

Definition loc_mask (mask : list (nat * bool)) (df : DataFrame A)
  : result (DataFrame A) :=
  if list_eq_dec Nat.eq_dec (map fst mask) (index df)
  then Ok (mkDF (columns df)
                (map fst (filter (fun rb => snd (snd rb))
                                 (combine (rows df) mask))))
  else
    rs <- mapM (fun r => match lookup_label (fst r) mask with
                         | None => Raise IndexingError
                         | Some b => Ok (r, b)
                         end) (rows df) ;;
    Ok (mkDF (columns df) (map fst (filter (fun rb => snd rb) rs))).
End Frames.

Arguments empty_frame {A}.
Arguments frame_of_index {A} idx.

(* ------------------------------------------------------------------ *)
(** ** Parameters and constraints *)

(** Modelled from the spec: the interface of a discrete parameter.  The
    classes of [baybe.parameters] are not among the sources; the search
    space only uses a parameter's name, its declared values, whether it is
    numeric, its range test and its encoding, which maps one experimental
    value to the cells of the parameter's computational columns. *)
Record DiscreteParameter : Type := mkParam {
  name : string;
  values : list value;
  is_numeric : bool;
  is_in_range : value -> bool;
  comp_columns : list string;
  encode : value -> list Q
}.

(** Every member of [SubspaceDiscrete.parameters] is a [DiscreteParameter]. *)
Definition is_discrete (p : DiscreteParameter) : bool := true.

(** [p.comp_df]: the encoding of the declared values, one row per value. *)
Definition comp_df (p : DiscreteParameter) : DataFrame Q :=
  mkDF (comp_columns p)
       (combine (seq 0 (length (values p))) (map (encode p) (values p))).

(** [p.transform_rep_exp2comp(series)] keeps the index of the series. *)
Definition transform_rep_exp2comp (p : DiscreteParameter)
           (series : list (nat * value)) : DataFrame Q :=
  mkDF (comp_columns p) (map (fun lv => (fst lv, encode p (snd lv))) series).

(** Modelled from the spec: the interface of a constraint ([type],
    [eval_during_creation], [get_invalid(rows) -> indices]); the class is
    not among the sources. *)
Record Constraint : Type := mkConstraint {
  type : string;
  eval_during_creation : bool;
  get_invalid : DataFrame value -> list nat
}.

(** Modelled from the spec: [parameter_cartesian_prod_to_df] enumerates the
    Cartesian product of the parameters' value domains, one row per
    combination and one column per parameter, the first parameter varying
    slowest.  Without parameters there is no column and the frame is
    empty. *)
Fixpoint cartesian {A} (ls : list (list A)) : list (list A) :=
  match ls with
  | [] => [[]]
  | l :: ls' => flat_map (fun x => map (cons x) (cartesian ls')) l
  end.

Definition parameter_cartesian_prod_to_df (parameters : list DiscreteParameter)
  : DataFrame value :=
  match parameters with
  | [] => empty_frame
  | _ => let combos := cartesian (map values parameters) in
         mkDF (map name parameters) (combine (seq 0 (length combos)) combos)
  end.

(** Modelled from the spec: [df_drop_single_value_columns] drops the
    columns whose value is constant across all rows. *)
Definition is_constant (col : list Q) : bool :=
  match col with
  | [] => true
  | x :: xs => forallb (Qeq_bool x) xs
  end.

Definition df_drop_single_value_columns (df : DataFrame Q) : DataFrame Q :=
  take_columns 0%Q
    (filter (fun i => negb (is_constant (column_at 0%Q i df)))
            (seq 0 (length (columns df))))
    df.

(* ------------------------------------------------------------------ *)
(** ** SubspaceDiscrete *)

Record MetaRow : Type := mkMeta {
  was_recommended : bool;
  was_measured : bool;
  dont_recommend : bool
}.

Definition fresh_meta : MetaRow := mkMeta false false false.

Record SubspaceDiscrete : Type := mkSubspaceDiscrete {
  parameters : list DiscreteParameter;
  exp_rep : DataFrame value;
  comp_rep : DataFrame Q;
  metadata : list (nat * MetaRow);
  empty_encoding : bool
}.

(** Missing cells do not occur in rectangular frames; [nth] needs a default. *)
Definition no_value : value := VNum 0.

(** The body of [SubspaceDiscrete.transform].  [frozen] is the column list
    of [self.comp_rep], or [None] while the object is under construction
    (reading the attribute raises AttributeError, which is passed over). *)
Definition transform_with (parameters : list DiscreteParameter)
           (empty_encoding : bool) (frozen : option (list string))
           (data : DataFrame value) : result (DataFrame Q) :=
  if empty_encoding || (len data <? 1)
  then Ok (frame_of_index (index data))
  else
    dfs <- mapM (fun param =>
                   series <- get_column no_value data (name param) ;;
                   Ok (transform_rep_exp2comp param series)) parameters ;;
    let comp_rep := concat_axis1 dfs in
    match frozen with
    | Some cols => select 0%Q cols comp_rep
    | None => Ok comp_rep
    end.

Definition transform (self : SubspaceDiscrete) (data : DataFrame value)
  : result (DataFrame Q) :=
  transform_with (parameters self) (empty_encoding self)
                 (Some (columns (comp_rep self))) data.

(** The attrs-generated constructor followed by [__attrs_post_init__]. *)
Definition SubspaceDiscrete_init (parameters : list DiscreteParameter)
           (exp_rep : DataFrame value) (empty_encoding : bool)
  : result SubspaceDiscrete :=
  let metadata := map (fun l => (l, fresh_meta)) (index exp_rep) in
  comp_rep <- transform_with parameters empty_encoding None exp_rep ;;
  let comp_rep := df_drop_single_value_columns comp_rep in
  Ok (mkSubspaceDiscrete parameters exp_rep comp_rep metadata empty_encoding).

Definition empty (self : SubspaceDiscrete) : bool :=
  length (parameters self) =? 0.

Section Create.
(** The execution order of the constraint types ([baybe.constraints],
    not among the sources). *)
Variable _constraints_order : list string.

Definition order_key (c : Constraint) : result nat :=
  match list_index (type c) _constraints_order with
  | Some k => Ok k
  | None => Raise (ValueError_not_in_list (type c))
  end.

(** [sorted(l, key=...)] is stable: an element is placed before the first
    one whose key is not smaller. *)
Fixpoint insert_sorted {A} (x : nat * A) (l : list (nat * A))
  : list (nat * A) :=
  match l with
  | [] => [x]
  | y :: l' => if fst x <=? fst y then x :: l else y :: insert_sorted x l'
  end.

Fixpoint sort_keyed {A} (l : list (nat * A)) : list (nat * A) :=
  match l with
  | [] => []
  | x :: l' => insert_sorted x (sort_keyed l')
  end.

Definition sorted_constraints (constraints : list Constraint)
  : result (list Constraint) :=
  keyed <- mapM (fun c => k <- order_key c ;; Ok (k, c)) constraints ;;
  Ok (map snd (sort_keyed keyed)).

Definition apply_constraint (exp_rep : DataFrame value) (c : Constraint)
  : result (DataFrame value) :=
  drop (get_invalid c exp_rep) exp_rep.

Definition create (parameters : list DiscreteParameter)
           (constraints : option (list Constraint)) (empty_encoding : bool)
  : result SubspaceDiscrete :=
  constraints <- match constraints with
                 | None => Ok []
                 | Some cs => sorted_constraints cs
                 end ;;
  let exp_rep := parameter_cartesian_prod_to_df parameters in
  exp_rep <- foldM apply_constraint
                   (filter eval_during_creation constraints) exp_rep ;;
  let exp_rep := reset_index exp_rep in
  SubspaceDiscrete_init parameters exp_rep empty_encoding.
End Create.

(** ** Candidate selection *)

(** [a | b] on two boolean series of the same frame. *)
Definition series_or (a b : list (nat * bool)) : list (nat * bool) :=
  map (fun ab => (fst (fst ab), snd (fst ab) || snd (snd ab))) (combine a b).

Definition series_not (a : list (nat * bool)) : list (nat * bool) :=
  map (fun lb => (fst lb, negb (snd lb))) a.

(** [metadata[flag]] *)
Definition meta_column (flag : MetaRow -> bool) (md : list (nat * MetaRow))
  : list (nat * bool) :=
  map (fun lm => (fst lm, flag (snd lm))) md.

Definition get_candidates (self : SubspaceDiscrete)
           (allow_repeated_recommendations : bool)
           (allow_recommending_already_measured : bool)
  : result (DataFrame value * DataFrame Q) :=
  let mask_todrop := meta_column dont_recommend (metadata self) in
  let mask_todrop :=
    if negb allow_repeated_recommendations
    then series_or mask_todrop (meta_column was_recommended (metadata self))
    else mask_todrop in
  let mask_todrop :=
    if negb allow_recommending_already_measured
    then series_or mask_todrop (meta_column was_measured (metadata self))
    else mask_todrop in
  e <- loc_mask (series_not mask_todrop) (exp_rep self) ;;
  c <- loc_mask (series_not mask_todrop) (comp_rep self) ;;
  Ok (e, c).

(** ** Measurement matching *)

(** [row[c]] for a row of a frame with the given columns. *)
Definition row_get (cols : list string) (row : list value) (c : string)
  : result value :=
  match list_index c cols with
  | None => Raise (KeyError c)
  | Some i => Ok (nth i row no_value)
  end.

(** The validity loop over the parameters for one input row; [valid] is the
    accumulated flag. *)
Fixpoint check_row (must_be_within_tolerance : bool) (row_name : nat)
         (cols : list string) (row : list value)
         (params : list DiscreteParameter) (valid : bool) : result unit :=
  match params with
  | [] => Ok tt
  | param :: rest =>
      valid <- (if is_numeric param
                then if must_be_within_tolerance
                     then v <- row_get cols row (name param) ;;
                          Ok (valid && is_in_range param v)
                     else Ok valid
                else v <- row_get cols row (name param) ;;
                     Ok (valid && is_in_range param v)) ;;
      if negb valid
      then Raise (ValueError_invalid_input row_name (name param))
      else check_row must_be_within_tolerance row_name cols row rest valid
  end.

(** [series.min()]; the minimum of an empty series is NaN, which compares
    unequal to everything and is never looked at here. *)
Definition series_min (l : list Q) : Q :=
  match l with
  | [] => 0%Q
  | x :: xs => fold_left Qmin xs x
  end.

Definition mask_and (a b : list bool) : list bool :=
  map (fun ab => fst ab && snd ab) (combine a b).

(** [self.exp_rep[cat_cols].eq(row[cat_cols]).all(axis=1)] *)
Definition match_categorical (exp_rep : DataFrame value) (cols : list string)
           (row : list value) (cat_cols : list string) : result (list bool) :=
  ecols <- mapM (get_column no_value exp_rep) cat_cols ;;
  vals <- mapM (row_get cols row) cat_cols ;;
  Ok (fold_left
        (fun m cv => mask_and m (map (fun lv => value_eqb (snd lv) (snd cv))
                                     (fst cv)))
        (combine ecols vals)
        (map (fun _ => true) (rows exp_rep))).

(** One turn of the loop over [num_cols]. *)
Definition match_numeric {FA : FloatArith} (exp_rep : DataFrame value) (cols : list string)
           (row : list value) (m : list bool) (param : string)
  : result (list bool) :=
  ecol <- get_column no_value exp_rep param ;;
  v <- row_get cols row param ;;
  diffs <- mapM (fun lv => abs_diff (snd lv) v) ecol ;;
  let lowest := series_min diffs in
  Ok (mask_and m (map (fun d => Qeq_bool d lowest) diffs)).

(** [self.exp_rep.index[match].to_list()] *)
Definition index_where (idx : list nat) (m : list bool) : list nat :=
  map fst (filter (fun ib => snd ib) (combine idx m)).

Definition cat_cols_of (params : list DiscreteParameter) : list string :=
  map name (filter (fun p => negb (is_numeric p)) params).

Definition num_cols_of (params : list DiscreteParameter) : list string :=
  map name (filter (fun p => is_numeric p && is_discrete p) params).

Definition find_matches {FA : FloatArith} (self : SubspaceDiscrete) (cols : list string)
           (row : list value) : result (list nat) :=
  m <- match_categorical (exp_rep self) cols row
                         (cat_cols_of (parameters self)) ;;
  m <- foldM (match_numeric (exp_rep self) cols row)
             (num_cols_of (parameters self)) m ;;
  Ok (index_where (index (exp_rep self)) m).

(** The three-way branch on the number of matches. *)
Definition record_matches (num_cols : list string) (inds_found : list nat)
           (inds_matched : list nat) : list nat :=
  if (length inds_found =? 0) && (0 <? length num_cols)
  then inds_matched
  else if 1 <? length inds_found
       then inds_matched ++ [hd 0 inds_found]
       else inds_matched ++ inds_found.

Definition match_one_row {FA : FloatArith} (self : SubspaceDiscrete) (cols : list string)
           (must_be_within_tolerance : bool) (inds_matched : list nat)
           (r : nat * list value) : result (list nat) :=
  _ <- check_row must_be_within_tolerance (fst r) cols (snd r)
                 (parameters self) true ;;
  inds_found <- find_matches self cols (snd r) ;;
  Ok (record_matches (num_cols_of (parameters self)) inds_found inds_matched).

Definition _match_measurement_with_searchspace_indices {FA : FloatArith}
           (self : SubspaceDiscrete) (df : DataFrame value)
           (numerical_measurements_must_be_within_tolerance : bool)
  : result (list nat) :=
  if negb (forallb (fun col => mem_string col (columns df))
                   (columns (exp_rep self)))
  then Raise ValueError_missing_parameter
  else foldM (match_one_row self (columns df)
                            numerical_measurements_must_be_within_tolerance)
             (rows df) [].

(** [metadata.loc[inds, "was_measured"] = True] *)
Definition set_was_measured (inds : list nat) (md : list (nat * MetaRow))
  : result (list (nat * MetaRow)) :=
  if forallb (fun i => mem_nat i (map fst md)) inds
  then Ok (map (fun lm =>
                  if mem_nat (fst lm) inds
                  then (fst lm, mkMeta (was_recommended (snd lm)) true
                                       (dont_recommend (snd lm)))
                  else lm) md)
  else Raise (KeyError_rows inds).

(** [mark_as_measured] mutates [self.metadata]; the state after the call is
    returned together with the outcome. *)
Definition mark_as_measured {FA : FloatArith} (self : SubspaceDiscrete)
           (measurements : DataFrame value)
           (numerical_measurements_must_be_within_tolerance : bool)
  : SubspaceDiscrete * result unit :=
  match _match_measurement_with_searchspace_indices
          self measurements numerical_measurements_must_be_within_tolerance with
  | Raise e => (self, Raise e)
  | Ok inds_matched =>
      match set_was_measured inds_matched (metadata self) with
      | Raise e => (self, Raise e)
      | Ok md => (mkSubspaceDiscrete (parameters self) (exp_rep self)
                                     (comp_rep self) md (empty_encoding self),
                  Ok tt)
      end
  end.

(* ------------------------------------------------------------------ *)
(** ** Tensors of bounds *)

(** A float that may be infinite. *)
Inductive bound : Type :=
| NegInf
| Finite (q : Q)
| PosInf.

(** A tensor of shape 2 x k: the row of lower and the row of upper bounds. *)
Definition tensor (A : Type) : Type := (list A * list A)%type.

(** [torch.empty(2, 0)] *)
Definition tensor_empty {A} : tensor A := ([], []).

Definition tensor_map {A B} (f : A -> B) (t : tensor A) : tensor B :=
  (map f (fst t), map f (snd t)).

(** [hstack] of tensors with two rows. *)
Definition hstack {A} (ts : list (tensor A)) : tensor A :=
  (concat (map fst ts), concat (map snd ts)).

(** [np.hstack] refuses an empty list of arrays. *)
Definition np_hstack {A} (ts : list (tensor A)) : result (tensor A) :=
  match ts with
  | [] => Raise ValueError_nothing_to_concatenate
  | _ => Ok (hstack ts)
  end.

(** [t.T.tolist()]: one [lower, upper] list per column. *)
Definition T_tolist {A} (t : tensor A) : list (list A) :=
  map (fun lu => [fst lu; snd lu]) (combine (fst t) (snd t)).

(** [bool(t)]: only a tensor with a single element has a truth value. *)
Definition tensor_truth (t : tensor bool) : result bool :=
  match fst t ++ snd t with
  | [b] => Ok b
  | _ => Raise RuntimeError_ambiguous_truth
  end.

Definition INF_BOUNDS_REPLACEMENT : Q := 1000.

(** [torch.clip(x, lo, hi)] on one entry: [min(max(x, lo), hi)]. *)
Definition clip (lo hi : Q) (b : bound) : bound :=
  match b with
  | NegInf => Finite (Qmin lo hi)
  | Finite q => Finite (Qmin (Qmax q lo) hi)
  | PosInf => Finite hi
  end.

Definition isfinite (b : bound) : bool :=
  match b with
  | Finite _ => true
  | _ => false
  end.

(* ------------------------------------------------------------------ *)
(** ** SubspaceContinuous *)

(** Modelled from the spec: a continuous parameter has a name and a pair
    of bounds, each possibly infinite (the class is not among the
    sources).  The fields are prefixed, [name] being taken. *)
Record NumericContinuous : Type := mkContinuous {
  cont_name : string;
  cont_bounds : bound * bound
}.

Record SubspaceContinuous : Type := mkSubspaceContinuous {
  cont_parameters : list NumericContinuous
}.

Definition cont_empty (self : SubspaceContinuous) : bool :=
  length (cont_parameters self) =? 0.

Definition param_names (self : SubspaceContinuous) : list string :=
  map cont_name (cont_parameters self).

(** [torch.tensor([p.bounds for p in self.parameters]).T]; the entries are
    the declared bounds, their conversion to float32 is not represented. *)
Definition cont_param_bounds_comp (self : SubspaceContinuous) : tensor bound :=
  match cont_parameters self with
  | [] => tensor_empty
  | ps => (map (fun p => fst (cont_bounds p)) ps,
           map (fun p => snd (cont_bounds p)) ps)
  end.

Definition bounds_forced_finite (self : SubspaceContinuous) : tensor bound :=
  tensor_map (clip (- INF_BOUNDS_REPLACEMENT) INF_BOUNDS_REPLACEMENT)
             (cont_param_bounds_comp self).

Definition is_fully_bounded (self : SubspaceContinuous) : tensor bool :=
  tensor_map isfinite (cont_param_bounds_comp self).

(** [pd.MultiIndex.from_product(iterables, names=names)] followed by
    [pd.DataFrame(index=index).reset_index()]. *)
Definition frame_from_product {A} (iterables : list (list A))
           (names : list string) : result (DataFrame A) :=
  match iterables with
  | [] => Raise ValueError_no_levels
  | _ => let combos := cartesian iterables in
         Ok (mkDF names (combine (seq 0 (length combos)) combos))
  end.

Definition full_factorial (self : SubspaceContinuous)
  : result (DataFrame bound) :=
  (* not self.is_fully_bounded: the truth value of the tensor is taken *)
  _ <- tensor_truth (is_fully_bounded self) ;;
  frame_from_product (T_tolist (bounds_forced_finite self)) (param_names self).

(** [df.sample(n)] draws [n] row positions without replacement; the
    positions drawn by the generator are the argument [drawn]. *)
Definition sample {A} (drawn : list nat) (df : DataFrame A) : DataFrame A :=
  mkDF (columns df)
       (flat_map (fun i => match nth_error (rows df) i with
                           | Some r => [r]
                           | None => []
                           end) drawn).

Definition samples_full_factorial (self : SubspaceContinuous) (n_points : nat)
           (drawn : list nat) : result (DataFrame bound) :=
  full_factorial <- full_factorial self ;;
  if len full_factorial <? n_points
  then Raise (ValueError_too_many_points n_points (len full_factorial))
  else Ok (reset_index (sample drawn full_factorial)).

(* ------------------------------------------------------------------ *)
(** ** SearchSpace *)

(** [Parameter]: a discrete or a continuous one ([Parameter] is reserved). *)
Inductive Param : Type :=
| Discrete (p : DiscreteParameter)
| Continuous (p : NumericContinuous).

Definition discrete_of (ps : list Param) : list DiscreteParameter :=
  flat_map (fun p => match p with Discrete d => [d] | Continuous _ => [] end) ps.

Definition continuous_of (ps : list Param) : list NumericContinuous :=
  flat_map (fun p => match p with Discrete _ => [] | Continuous c => [c] end) ps.

(** The fields [parameters] and [empty_encoding] are prefixed, the names
    being taken by [SubspaceDiscrete]. *)
Record SearchSpace : Type := mkSearchSpace {
  discrete : SubspaceDiscrete;
  continuous : SubspaceContinuous;
  space_parameters : list Param;
  space_empty_encoding : bool
}.

(** The attrs-generated constructor with the validator [min_len(1)]. *)
Definition SearchSpace_init (discrete : SubspaceDiscrete)
           (continuous : SubspaceContinuous) (parameters : list Param)
           (empty_encoding : bool) : result SearchSpace :=
  if length parameters <? 1 then Raise ValueError_min_len
  else Ok (mkSearchSpace discrete continuous parameters empty_encoding).

Definition SearchSpace_create (_constraints_order : list string)
           (parameters : list Param)
           (constraints : option (list Constraint)) (empty_encoding : bool)
  : result SearchSpace :=
  discrete <- create _constraints_order (discrete_of parameters)
                     constraints empty_encoding ;;
  let continuous := mkSubspaceContinuous (continuous_of parameters) in
  SearchSpace_init discrete continuous parameters empty_encoding.

(** [max] of a series, as [series_min]. *)
Definition series_max (l : list Q) : Q :=
  match l with
  | [] => 0%Q
  | x :: xs => fold_left Qmax xs x
  end.

(** The comprehension of [SubspaceDiscrete.param_bounds_comp]: one
    [vstack([min, max])] per column of a parameter's [comp_df] that is a
    column of [comp_rep]. *)
Definition bound_columns (self : SubspaceDiscrete) : list (tensor Q) :=
  flat_map
    (fun p =>
       flat_map
         (fun ic =>
            if mem_string (snd ic) (columns (comp_rep self))
            then [([series_min (column_at 0%Q (fst ic) (comp_df p))],
                   [series_max (column_at 0%Q (fst ic) (comp_df p))])]
            else [])
         (combine (seq 0 (length (comp_columns p))) (comp_columns p)))
    (parameters self).

Definition disc_param_bounds_comp (self : SubspaceDiscrete)
  : result (tensor bound) :=
  match parameters self with
  | [] => Ok tensor_empty
  | _ => bounds <- np_hstack (bound_columns self) ;;
         Ok (tensor_map Finite bounds)
  end.

(** [torch.hstack] of the two tensors, discrete bounds first; the dtype
    promotion of the entries is not represented. *)
Definition param_bounds_comp (self : SearchSpace) : result (tensor bound) :=
  d <- disc_param_bounds_comp (discrete self) ;;
  Ok (hstack [d; cont_param_bounds_comp (continuous self)]).

(* ------------------------------------------------------------------ *)
(** ** The dictionary form *)

(** What [cattrs.unstructure] produces for a search space: dictionaries
    with string keys whose leaves are the unstructured parameters, frames
    and flags.  The converters of the leaves are registered outside
    [searchspace.py]; a leaf is carried as it is. *)
#[local] Set Warnings "-register-all".
Inductive pyobj : Type :=
| PBool (b : bool)
| PDiscreteParameters (l : list DiscreteParameter)
| PContinuousParameters (l : list NumericContinuous)
| PParameters (l : list Param)
| PExpFrame (df : DataFrame value)
| PCompFrame (df : DataFrame Q)
| PMetadata (md : list (nat * MetaRow))
| PDict (d : list (string * pyobj)).

Definition dict : Type := list (string * pyobj).

Fixpoint dict_get (key : string) (d : dict) : option pyobj :=
  match d with
  | [] => None
  | (k, v) :: d' => if String.eqb key k then Some v else dict_get key d'
  end.

Definition dict_has (key : string) (d : dict) : bool :=
  match dict_get key d with
  | Some _ => true
  | None => false
  end.

(** [d.pop(key)]: the value and the dictionary without the key. *)
Definition dict_pop (key : string) (d : dict) : result (pyobj * dict) :=
  match dict_get key d with
  | None => Raise (KeyError key)
  | Some v => Ok (v, filter (fun kv => negb (String.eqb key (fst kv))) d)
  end.

(** [cattrs.unstructure] of an attrs instance lists every field, also those
    declared with [init=False]. *)
Definition unstructure_SubspaceDiscrete (s : SubspaceDiscrete) : dict :=
  [("parameters", PDiscreteParameters (parameters s));
   ("exp_rep", PExpFrame (exp_rep s));
   ("comp_rep", PCompFrame (comp_rep s));
   ("metadata", PMetadata (metadata s));
   ("empty_encoding", PBool (empty_encoding s))].

Definition unstructure_SubspaceContinuous (s : SubspaceContinuous) : dict :=
  [("parameters", PContinuousParameters (cont_parameters s))].

Definition to_dict (self : SearchSpace) : dict :=
  [("discrete", PDict (unstructure_SubspaceDiscrete (discrete self)));
   ("continuous", PDict (unstructure_SubspaceContinuous (continuous self)));
   ("parameters", PParameters (space_parameters self));
   ("empty_encoding", PBool (space_empty_encoding self))].

(** [cattrs.structure_attrs_fromdict(dict_, SubspaceDiscrete)]: every field
    found in the dictionary becomes a keyword argument of the constructor,
    which accepts neither [comp_rep] nor [metadata]; [empty_encoding] has a
    default. *)
Definition structure_attrs_fromdict_SubspaceDiscrete (d : dict)
  : result SubspaceDiscrete :=
  if dict_has "comp_rep" d || dict_has "metadata" d then Raise TypeError
  else
    match dict_get "parameters" d, dict_get "exp_rep" d with
    | Some (PDiscreteParameters ps), Some (PExpFrame e) =>
        match dict_get "empty_encoding" d with
        | Some (PBool b) => SubspaceDiscrete_init ps e b
        | None => SubspaceDiscrete_init ps e false
        | Some _ => Raise TypeError
        end
    | _, _ => Raise TypeError
    end.

Definition structure_hook (dict_ : dict) : result SubspaceDiscrete :=
  p <- dict_pop "comp_rep" dict_ ;;
  p <- dict_pop "metadata" (snd p) ;;
  structure_attrs_fromdict_SubspaceDiscrete (snd p).

Definition structure_SubspaceContinuous (d : dict)
  : result SubspaceContinuous :=
  match dict_get "parameters" d with
  | Some (PContinuousParameters ps) => Ok (mkSubspaceContinuous ps)
  | _ => Raise TypeError
  end.

Definition from_dict (dictionary : dict) : result SearchSpace :=
  match dict_get "discrete" dictionary, dict_get "continuous" dictionary,
        dict_get "parameters" dictionary with
  | Some (PDict dd), Some (PDict dc), Some (PParameters ps) =>
      discrete <- structure_hook dd ;;
      continuous <- structure_SubspaceContinuous dc ;;
      match dict_get "empty_encoding" dictionary with
      | Some (PBool b) => SearchSpace_init discrete continuous ps b
      | None => SearchSpace_init discrete continuous ps false
      | Some _ => Raise TypeError
      end
  | _, _, _ => Raise TypeError
  end.

(* ------------------------------------------------------------------ *)
(** ** Concrete parameters *)

(** Modelled from the spec: a discrete numeric parameter with a tolerance;
    its single computational column carries the value itself, and a value
    is in range when it lies within the tolerance of a declared value. *)
Definition NumericDiscrete (name : string) (vals : list Q) (tolerance : Q)
  : DiscreteParameter :=
  mkParam name (map VNum vals) true
          (fun v => match v with
                    | VNum x => existsb (fun y => Qle_bool (Qabs (y - x)) tolerance) vals
                    | VStr _ => false
                    end)
          [name]
          (fun v => match v with
                    | VNum x => [x]
                    | VStr _ => [0%Q]
                    end).

(** Modelled from the spec: a categorical parameter with one-hot encoding;
    a value is in range when it equals a declared label. *)
Definition Categorical (name : string) (labels : list string)
  : DiscreteParameter :=
  mkParam name (map VStr labels) false
          (fun v => existsb (value_eqb v) (map VStr labels))
          (map (fun l => name ++ "_" ++ l)%string labels)
          (fun v => map (fun l => if value_eqb v (VStr l) then 1%Q else 0%Q) labels).

(* ------------------------------------------------------------------ *)
(** ** The specification's reading of [create] *)

(** The rows that one constraint's invalidity predicate leaves. *)
Definition surviving (c : Constraint) (df : DataFrame value) : DataFrame value :=
  mkDF (columns df)
       (filter (fun r => negb (mem_nat (fst r) (get_invalid c df))) (rows df)).

(** Sequential application: each constraint sees the rows that survived the
    constraints before it. *)
Fixpoint spec_apply_constraints (cs : list Constraint) (df : DataFrame value)
  : DataFrame value :=
  match cs with
  | [] => df
  | c :: cs' => spec_apply_constraints cs' (surviving c df)
  end.

(** The rank of a constraint in the execution order. *)
Definition rank (order : list string) (c : Constraint) : nat :=
  match list_index (type c) order with
  | Some k => k
  | None => 0
  end.

(** [sorted] lists [cs] in the canonical order: the same constraints, by
    increasing rank, constraints of equal rank in their given order. *)
Definition canonical_order (order : list string) (cs sorted : list Constraint)
  : Prop :=
  Permutation cs sorted /\
  StronglySorted (fun a b => rank order a <= rank order b) sorted /\
  forall k, filter (fun c => rank order c =? k) sorted
            = filter (fun c => rank order c =? k) cs.

Definition constraints_given (constraints : option (list Constraint))
  : list Constraint :=
  match constraints with
  | None => []
  | Some cs => cs
  end.

(** The three tables of a discrete subspace are aligned row by row. *)
Definition aligned (s : SubspaceDiscrete) : Prop :=
  index (comp_rep s) = index (exp_rep s) /\
  map fst (metadata s) = index (exp_rep s).

(** The columns that the loop of [transform] produces before any selection:
    the computational columns of the parameters, in parameter order. *)
Definition encoded_columns (params : list DiscreteParameter) : list string :=
  concat (map comp_columns params).

(** A subspace as the constructor leaves it, up to the metadata flags that
    later calls set: [comp_rep] is the one computed from the parameters,
    [exp_rep] and the encoding mode. *)
Definition constructed (s : SubspaceDiscrete) : Prop :=
  exists s0,
    SubspaceDiscrete_init (parameters s) (exp_rep s) (empty_encoding s) = Ok s0 /\
    comp_rep s = comp_rep s0.

(** The rows that [get_candidates] is to return, by their flags. *)
Definition is_candidate (allow_repeated_recommendations : bool)
           (allow_recommending_already_measured : bool) (m : MetaRow) : bool :=
  negb (dont_recommend m)
  && (allow_repeated_recommendations || negb (was_recommended m))
  && (allow_recommending_already_measured || negb (was_measured m)).

(* ------------------------------------------------------------------ *)
(** ** Example inputs *)

Definition cat_example : DiscreteParameter := Categorical "cat" ["a"; "b"].
Definition num_example : DiscreteParameter := NumericDiscrete "num" [1; 5]%Q 0.

(** A constraint that rules out the combinations (a, 5) and (b, 1). *)
Definition exclude_example : Constraint :=
  mkConstraint "EXCLUDE" true
    (fun df =>
       index_where (index df)
         (map (fun r => match snd r with
                        | [VStr c; VNum x] =>
                            (String.eqb c "a" && Qeq_bool x 5)
                            || (String.eqb c "b" && Qeq_bool x 1)
                        | _ => false
                        end) (rows df))).

(** The subspace with the rows (a, 1) and (b, 5). *)
Definition subspace_example : SubspaceDiscrete :=
  mkSubspaceDiscrete [cat_example; num_example]
                     (mkDF ["cat"; "num"]
                           [(0, [VStr "a"; VNum 1]); (1, [VStr "b"; VNum 5])])
                     (mkDF ["cat_a"; "cat_b"; "num"]
                           [(0, [1; 0; 1]%Q); (1, [0; 1; 5]%Q)])
                     [(0, fresh_meta); (1, fresh_meta)] false.

Definition x_example : DiscreteParameter := NumericDiscrete "x" [1; 2]%Q 0.

(** The subspace of the single parameter x with the values 1 and 2. *)
Definition x_subspace_example : SubspaceDiscrete :=
  mkSubspaceDiscrete [x_example]
                     (mkDF ["x"] [(0, [VNum 1]); (1, [VNum 2])])
                     (mkDF ["x"] [(0, [1%Q]); (1, [2%Q])])
                     [(0, fresh_meta); (1, fresh_meta)] false.

(** A subspace in use: row 1 has been recommended, row 2 measured and
    row 3 is excluded from recommendation. *)
Definition flagged_example : SubspaceDiscrete :=
  mkSubspaceDiscrete [NumericDiscrete "x" [1; 2; 3; 4]%Q 0]
                     (mkDF ["x"] [(0, [VNum 1]); (1, [VNum 2]);
                                  (2, [VNum 3]); (3, [VNum 4])])
                     (mkDF ["x"] [(0, [1%Q]); (1, [2%Q]);
                                  (2, [3%Q]); (3, [4%Q])])
                     [(0, fresh_meta); (1, mkMeta true false false);
                      (2, mkMeta false true false);
                      (3, mkMeta false false true)] false.

(** Two values on either side of zero, for a measurement of 2^-54: the
    differences -1 - 2^-54 and 1 - 2^-54 are no floats, and both round
    to magnitude 1. *)
Definition tie_example : SubspaceDiscrete :=
  mkSubspaceDiscrete [NumericDiscrete "x" [-1; 1]%Q 0]
                     (mkDF ["x"] [(0, [VNum (-1)]); (1, [VNum 1])])
                     (mkDF ["x"] [(0, [(-1)%Q]); (1, [1%Q])])
                     [(0, fresh_meta); (1, fresh_meta)] false.

Definition tie_measurement_example : DataFrame value :=
  mkDF ["x"] [(0, [VNum (1 # 18014398509481984)])].

(* ------------------------------------------------------------------ *)
(** ** The specification's reading of measurement matching *)

(** [row[c]] for a column that the frame has. *)
Definition cell (cols : list string) (row : list value) (c : string) : value :=
  match list_index c cols with
  | Some i => nth i row no_value
  | None => no_value
  end.

Definition is_num (v : value) : bool :=
  match v with
  | VNum _ => true
  | VStr _ => false
  end.

(** The columns of the numeric parameters hold numbers. *)
Definition numeric_columns (params : list DiscreteParameter)
           (df : DataFrame value) : Prop :=
  forall p r, In p params -> is_numeric p = true -> In r (rows df) ->
              is_num (cell (columns df) (snd r) (name p)) = true.

(** The range test applies to a parameter: always when it is not numeric,
    and under the tolerance flag when it is. *)
Definition range_checked (must_be_within_tolerance : bool)
           (p : DiscreteParameter) : bool :=
  negb (is_numeric p) || must_be_within_tolerance.

(** The value of the row for [p] is tested and lies outside the domain. *)
Definition offending (must_be_within_tolerance : bool) (cols : list string)
           (row : list value) (p : DiscreteParameter) : bool :=
  range_checked must_be_within_tolerance p
  && negb (is_in_range p (cell cols row (name p))).

(** The first offending row and, in it, the first offending parameter. *)
Fixpoint first_invalid (must_be_within_tolerance : bool) (cols : list string)
         (params : list DiscreteParameter) (rs : list (nat * list value))
  : option (nat * string) :=
  match rs with
  | [] => None
  | r :: rs' =>
      match find (offending must_be_within_tolerance cols (snd r)) params with
      | Some p => Some (fst r, name p)
      | None => first_invalid must_be_within_tolerance cols params rs'
      end
  end.

(** The absolute deviation of two numeric cells, as it is computed. *)
Definition deviation {FA : FloatArith} (x m : value) : Q :=
  match x, m with
  | VNum a, VNum b => float_abs_diff a b
  | _, _ => 0%Q
  end.

Section MatchSpec.
Context {FA : FloatArith}.
Variable self : SubspaceDiscrete.
Variable cols : list string.     (* the columns of the measurements *)
Variable row : list value.       (* one measurement *)

Let ecols := columns (exp_rep self).

(** The search-space row equals the measurement on the parameter. *)
Definition agrees (er : nat * list value) (c : string) : bool :=
  value_eqb (cell ecols (snd er) c) (cell cols row c).

(** The deviation of the search-space row from the measurement. *)
Definition row_deviation (er : nat * list value) (c : string) : Q :=
  deviation (cell ecols (snd er) c) (cell cols row c).

(** No row of [among] is closer to the measurement on the parameter. *)
Definition closest_among (among : list (nat * list value))
           (er : nat * list value) (c : string) : bool :=
  forallb (fun er' => Qle_bool (row_deviation er c) (row_deviation er' c))
          among.

(** What the code computes: exact agreement on every non-numeric
    parameter and, for every numeric one, the least deviation among all
    rows of the search space. *)
Definition spec_is_match (er : nat * list value) : bool :=
  forallb (agrees er) (cat_cols_of (parameters self))
  && forallb (closest_among (rows (exp_rep self)) er)
             (num_cols_of (parameters self)).

Definition spec_candidates : list nat :=
  map fst (filter spec_is_match (rows (exp_rep self))).

(** One candidate is recorded, of several the first, of none none. *)
Definition spec_recorded : list nat :=
  match spec_candidates with
  | [] => []
  | [i] => [i]
  | i :: _ => [i]
  end.

(** The claim's reading: dimension by dimension, the least deviation
    among the candidates that remain. *)
Definition claimed_step (remaining : list (nat * list value)) (c : string)
  : list (nat * list value) :=
  filter (fun er => closest_among remaining er c) remaining.

Definition claimed_candidates : list nat :=
  map fst
      (fold_left claimed_step (num_cols_of (parameters self))
                 (filter (fun er => forallb (agrees er)
                                            (cat_cols_of (parameters self)))
                         (rows (exp_rep self)))).
End MatchSpec.

(** The measurement (b, 1) for [subspace_example]. *)
Definition measurement_example : DataFrame value :=
  mkDF ["cat"; "num"] [(0, [VStr "b"; VNum 1])].

(** Two measurements, the second with a label outside the domain of cat. *)
Definition measurements_invalid_example : DataFrame value :=
  mkDF ["cat"; "num"] [(0, [VStr "b"; VNum 5]); (1, [VStr "c"; VNum 5])].

(** Two measurements that match the rows 1 and 0. *)
Definition measurements_example : DataFrame value :=
  mkDF ["cat"; "num"] [(0, [VStr "b"; VNum 6]); (1, [VStr "a"; VNum 1])].

(* ------------------------------------------------------------------ *)
(** ** Example inputs for the bounds and the dictionary form *)

(** The parameters of [test_bounds_order]. *)
Definition A_disc : DiscreteParameter := NumericDiscrete "A_disc" [1; 2; 3]%Q 0.
Definition B_disc : DiscreteParameter := NumericDiscrete "B_disc" [7; 8; 9]%Q 0.
Definition A_cont : NumericContinuous :=
  mkContinuous "A_cont" (Finite 4, Finite 6).
Definition B_cont : NumericContinuous :=
  mkContinuous "B_cont" (Finite 10, Finite 12).

Definition bounds_order_parameters : list Param :=
  [Discrete A_disc; Continuous A_cont; Discrete B_disc; Continuous B_cont].

(** A continuous parameter with finite bounds, the upper one beyond the
    replacement for infinity. *)
Definition wide_example : NumericContinuous :=
  mkContinuous "x" (Finite 0, Finite 5000).

Definition unit_example : NumericContinuous :=
  mkContinuous "x" (Finite 0, Finite 1).

(** A continuous parameter whose two bounds lie beyond the replacement. *)
Definition far_example : NumericContinuous :=
  mkContinuous "x" (Finite 2000, Finite 3000).

(** The metadata of a subspace that has just been constructed. *)
Definition fresh_metadata (e : DataFrame value) : list (nat * MetaRow) :=
  map (fun l => (l, fresh_meta)) (index e).

(** What reloading a search space gives: the same space with the metadata
    of its discrete part initialised anew. *)
Definition reloaded (sp : SearchSpace) : SearchSpace :=
  mkSearchSpace
    (mkSubspaceDiscrete (parameters (discrete sp)) (exp_rep (discrete sp))
                        (comp_rep (discrete sp))
                        (fresh_metadata (exp_rep (discrete sp)))
                        (empty_encoding (discrete sp)))
    (continuous sp) (space_parameters sp) (space_empty_encoding sp).

(** [subspace_example] after its row 0 has been measured, as a space. *)
Definition measured_space_example : SearchSpace :=
  mkSearchSpace
    (mkSubspaceDiscrete (parameters subspace_example) (exp_rep subspace_example)
                        (comp_rep subspace_example)
                        [(0, mkMeta false true false); (1, fresh_meta)] false)
    (mkSubspaceContinuous [])
    [Discrete cat_example; Discrete num_example] false.

(* ------------------------------------------------------------------ *)
(** ** Further parts of [searchspace.py] *)

Inductive SearchSpaceType : Type :=
| DISCRETE
| CONTINUOUS
| EITHER
| HYBRID.

(** [SearchSpace.type]; [None] stands for the RuntimeError of its last
    line ("This line should be impossible to reach."). *)
Definition space_type (self : SearchSpace) : option SearchSpaceType :=
  if empty (discrete self) && negb (cont_empty (continuous self))
  then Some CONTINUOUS
  else if negb (empty (discrete self)) && cont_empty (continuous self)
       then Some DISCRETE
       else if negb (empty (discrete self))
               && negb (cont_empty (continuous self))
            then Some HYBRID
            else None.

(** [SubspaceContinuous.transform]: [data[[p.name for p in self.parameters]]]. *)
Definition cont_transform (self : SubspaceContinuous) (data : DataFrame value)
  : result (DataFrame value) :=
  select no_value (map cont_name (cont_parameters self)) data.

(** The encoding of one experimental row: the cells that the parameters'
    encodings give for the row's values, in parameter order. *)
Definition encode_row (params : list DiscreteParameter) (cols : list string)
           (row : list value) : list Q :=
  flat_map (fun p => encode p (cell cols row (name p))) params.

(** The values that the parameters declare for an encoded column, by its
    label: the column of that label in the [comp_df] of the parameter that
    has it. *)
Definition declared_column (params : list DiscreteParameter) (c : string)
  : list Q :=
  match find (fun p => mem_string c (comp_columns p)) params with
  | Some p => match list_index c (comp_columns p) with
              | Some i => column_at 0%Q i (comp_df p)
              | None => []
              end
  | None => []
  end.

(** A bound lies within the replacement magnitude. *)
Definition within_replacement (b : bound) : Prop :=
  match b with
  | Finite q => (- INF_BOUNDS_REPLACEMENT <= q)%Q /\ (q <= INF_BOUNDS_REPLACEMENT)%Q
  | _ => False
  end.

(** The order of bounds, the infinities at the ends. *)
Definition bound_le (a b : bound) : Prop :=
  match a, b with
  | NegInf, _ => True
  | _, PosInf => True
  | Finite x, Finite y => (x <= y)%Q
  | _, _ => False
  end.

(** A constraint of another type that is not evaluated during creation. *)
Definition later_example : Constraint :=
  mkConstraint "DEPENDENCY" false (fun _ => []).

(** The discrete subspace of a purely continuous space. *)
Definition no_parameters_example : SubspaceDiscrete :=
  mkSubspaceDiscrete [] empty_frame empty_frame [] false.

(** A subspace with another metadata table. *)
Definition with_metadata (s : SubspaceDiscrete) (md : list (nat * MetaRow))
  : SubspaceDiscrete :=
  mkSubspaceDiscrete (parameters s) (exp_rep s) (comp_rep s) md
                     (empty_encoding s).

(** The metadata that [mark_as_measured] leaves for a given outcome of the
    matching: written at the matched labels, or as before when the matching
    or the write raises. *)
Definition metadata_after (matched : result (list nat))
           (md : list (nat * MetaRow)) : list (nat * MetaRow) :=
  match matched with
  | Ok inds => match set_was_measured inds md with
               | Ok md' => md'
               | Raise _ => md
               end
  | Raise _ => md
  end.

(** A metadata row after the write for the labels [inds]. *)
Definition measured_row (inds : list nat) (lm : nat * MetaRow)
  : nat * MetaRow :=
  if mem_nat (fst lm) inds
  then (fst lm, mkMeta (was_recommended (snd lm)) true (dont_recommend (snd lm)))
  else lm.

(** A continuous parameter that is bounded below only. *)
Definition half_line_example : NumericContinuous :=
  mkContinuous "t" (Finite 2000, PosInf).

(* ================================================================== *)
(** * Properties *)

Unset Implicit Arguments.

(** ** The result monad *)

Lemma mapM_ok_map {A B} (f : A -> result B) (g : A -> B) (l : list A) :
  (forall x, In x l -> f x = Ok (g x)) -> mapM f l = Ok (map g l).
Proof.
  induction l as [|x l IH]; intros H; simpl; [reflexivity|].
  rewrite (H x (or_introl eq_refl)). simpl.
  rewrite IH; [reflexivity|]. intros y Hy. apply H. now right.
Qed.

(** ** Lists, labels and frames *)

Lemma mem_nat_In (n : nat) (l : list nat) : mem_nat n l = true <-> In n l.
Proof.
  unfold mem_nat. rewrite existsb_exists. split.
  - intros [x [Hx He]]. apply Nat.eqb_eq in He. now subst.
  - intros H. exists n. split; [assumption|apply Nat.eqb_refl].
Qed.

Lemma mem_string_In (s : string) (l : list string) :
  mem_string s l = true <-> In s l.
Proof.
  unfold mem_string. rewrite existsb_exists. split.
  - intros [x [Hx He]]. apply String.eqb_eq in He. now subst.
  - intros H. exists s. split; [assumption|apply String.eqb_refl].
Qed.

Lemma list_index_In (x : string) (l : list string) :
  In x l -> exists i, list_index x l = Some i /\ nth i l "" = x.
Proof.
  induction l as [|y l IH]; simpl; [tauto|].
  intros H. destruct (String.eqb x y) eqn:E.
  - apply String.eqb_eq in E. subst. now exists 0.
  - destruct H as [H|H]; [subst; now rewrite String.eqb_refl in E|].
    destruct (IH H) as [i [Hi Hn]]. exists (S i). now rewrite Hi.
Qed.

Lemma list_index_Some_In (x : string) (l : list string) (i : nat) :
  list_index x l = Some i -> In x l.
Proof.
  revert i. induction l as [|y l IH]; intros i; simpl; [discriminate|].
  destruct (String.eqb x y) eqn:E.
  - apply String.eqb_eq in E. now left.
  - destruct (list_index x l) as [k|]; simpl; [|discriminate].
    intros _. right. now apply (IH k).
Qed.

Lemma combine_seq_fst {A} (l : list A) (s : nat) :
  map fst (combine (seq s (length l)) l) = seq s (length l).
Proof.
  revert s. induction l as [|x l IH]; intros s; simpl; [reflexivity|].
  now rewrite IH.
Qed.

Lemma combine_seq_snd {A} (l : list A) (s : nat) :
  map snd (combine (seq s (length l)) l) = l.
Proof.
  revert s. induction l as [|x l IH]; intros s; simpl; [reflexivity|].
  now rewrite IH.
Qed.

Lemma reset_index_index {A} (df : DataFrame A) :
  index (reset_index df) = seq 0 (len df).
Proof.
  unfold index, reset_index, len. simpl.
  rewrite <- (length_map snd (rows df)). apply combine_seq_fst.
Qed.

Lemma reset_index_rows {A} (df : DataFrame A) :
  map snd (rows (reset_index df)) = map snd (rows df).
Proof.
  unfold reset_index, len. simpl.
  rewrite <- (length_map snd (rows df)). apply combine_seq_snd.
Qed.

Lemma reset_index_len {A} (df : DataFrame A) : len (reset_index df) = len df.
Proof.
  unfold len at 1. rewrite <- (length_map fst).
  change (map fst (rows (reset_index df))) with (index (reset_index df)).
  rewrite reset_index_index. apply length_seq.
Qed.

Lemma index_length {A} (df : DataFrame A) : length (index df) = len df.
Proof. unfold index, len. apply length_map. Qed.

Lemma take_columns_index {A} (d : A) (ps : list nat) (df : DataFrame A) :
  index (take_columns d ps df) = index df.
Proof. unfold index, take_columns. simpl. rewrite map_map. reflexivity. Qed.

Lemma hcat_index {A} (a b : DataFrame A) :
  index b = index a -> index (hcat a b) = index a.
Proof.
  unfold index, hcat. simpl. rewrite map_map. simpl.
  generalize (rows a) (rows b). intros ra.
  induction ra as [|x ra IH]; intros rb H; simpl.
  - reflexivity.
  - destruct rb as [|y rb]; simpl in *; [discriminate|].
    injection H as _ H. now rewrite (IH rb H).
Qed.

Lemma concat_axis1_index {A} (dfs : list (DataFrame A)) (idx : list nat) :
  dfs <> [] -> Forall (fun d => index d = idx) dfs ->
  index (concat_axis1 dfs) = idx.
Proof.
  induction dfs as [|d ds IH]; intros Hne Hall; [congruence|].
  apply Forall_cons_iff in Hall. destruct Hall as [Hd Hds].
  destruct ds as [|d' ds]; [exact Hd|].
  change (concat_axis1 (d :: d' :: ds)) with (hcat d (concat_axis1 (d' :: ds))).
  rewrite hcat_index; [assumption|].
  rewrite Hd. apply IH; [discriminate|assumption].
Qed.

Lemma concat_axis1_columns {A} (dfs : list (DataFrame A)) :
  columns (concat_axis1 dfs) = concat (map (@columns A) dfs).
Proof.
  induction dfs as [|d ds IH]; [reflexivity|].
  destruct ds as [|d' ds]; [simpl; now rewrite app_nil_r|].
  change (concat_axis1 (d :: d' :: ds)) with (hcat d (concat_axis1 (d' :: ds))).
  change (columns (hcat d (concat_axis1 (d' :: ds))))
    with (columns d ++ columns (concat_axis1 (d' :: ds))).
  rewrite IH. reflexivity.
Qed.

(** ** The stable sort of [create] *)

Section SortKeyed.
Context {A : Type}.
Implicit Types (x : nat * A) (l : list (nat * A)).

Lemma insert_sorted_perm x l : Permutation (x :: l) (insert_sorted x l).
Proof.
  induction l as [|y l IH]; simpl; [apply Permutation_refl|].
  destruct (fst x <=? fst y); [apply Permutation_refl|].
  eapply perm_trans; [apply perm_swap|]. now apply perm_skip.
Qed.

Lemma sort_keyed_perm l : Permutation l (sort_keyed l).
Proof.
  induction l as [|x l IH]; simpl; [constructor|].
  eapply perm_trans; [apply perm_skip, IH|apply insert_sorted_perm].
Qed.

Let key_le (x y : nat * A) := fst x <= fst y.

Lemma insert_sorted_sorted x l :
  StronglySorted key_le l -> StronglySorted key_le (insert_sorted x l).
Proof.
  induction 1 as [|y l Hs IH Hy]; simpl.
  - constructor; constructor.
  - destruct (fst x <=? fst y) eqn:E.
    + apply Nat.leb_le in E. constructor; [now constructor|].
      constructor; [exact E|].
      eapply Forall_impl; [|exact Hy]. intros z Hz. unfold key_le in *. lia.
    + apply Nat.leb_gt in E. constructor; [exact IH|].
      eapply Permutation_Forall; [apply insert_sorted_perm|].
      constructor; [unfold key_le; lia|exact Hy].
Qed.

Lemma sort_keyed_sorted l : StronglySorted key_le (sort_keyed l).
Proof.
  induction l as [|x l IH]; simpl; [constructor|].
  now apply insert_sorted_sorted.
Qed.

Lemma insert_sorted_stable k x l :
  filter (fun y => fst y =? k) (insert_sorted x l)
  = filter (fun y => fst y =? k) (x :: l).
Proof.
  induction l as [|y l IH]; [reflexivity|].
  simpl insert_sorted. destruct (fst x <=? fst y) eqn:E; [reflexivity|].
  apply Nat.leb_gt in E. simpl in *. rewrite IH.
  destruct (fst x =? k) eqn:Ex; [|reflexivity].
  apply Nat.eqb_eq in Ex.
  destruct (fst y =? k) eqn:Ey; [|reflexivity].
  apply Nat.eqb_eq in Ey. lia.
Qed.

Lemma sort_keyed_stable k l :
  filter (fun y => fst y =? k) (sort_keyed l)
  = filter (fun y => fst y =? k) l.
Proof.
  induction l as [|x l IH]; [reflexivity|].
  simpl sort_keyed. rewrite insert_sorted_stable. simpl. now rewrite IH.
Qed.
End SortKeyed.

Lemma filter_map_swap {A B} (f : A -> B) (p : B -> bool) (l : list A) :
  filter p (map f l) = map f (filter (fun x => p (f x)) l).
Proof.
  induction l as [|x l IH]; simpl; [reflexivity|].
  destruct (p (f x)); simpl; now rewrite IH.
Qed.

Lemma StronglySorted_map {A B} (f : A -> B) (R : B -> B -> Prop) (l : list A) :
  StronglySorted (fun a b => R (f a) (f b)) l -> StronglySorted R (map f l).
Proof.
  induction 1 as [|x l Hs IH Hx]; simpl; constructor; [assumption|].
  rewrite Forall_map. exact Hx.
Qed.

(** With every type listed in the execution order, sorting succeeds and
    yields the canonical order. *)
Lemma sorted_constraints_canonical (order : list string) (cs : list Constraint) :
  (forall c, In c cs -> In (type c) order) ->
  exists sorted, sorted_constraints order cs = Ok sorted /\
                 canonical_order order cs sorted.
Proof.
  intros Hin. unfold sorted_constraints.
  rewrite (mapM_ok_map _ (fun c => (rank order c, c))).
  2:{ intros c Hc. unfold order_key, rank.
      destruct (list_index_In _ _ (Hin c Hc)) as [i [Hi _]]. now rewrite Hi. }
  simpl. eexists; split; [reflexivity|].
  set (keyed := map (fun c => (rank order c, c)) cs).
  assert (Hk : forall x, In x (sort_keyed keyed) -> fst x = rank order (snd x)).
  { intros x Hx. apply (Permutation_in _ (Permutation_sym (sort_keyed_perm keyed))) in Hx.
    unfold keyed in Hx. apply in_map_iff in Hx. destruct Hx as [c [<- _]]. reflexivity. }
  assert (Hcs : cs = map snd keyed).
  { unfold keyed. rewrite map_map. simpl. now rewrite map_id. }
  repeat split.
  - rewrite Hcs at 1. apply Permutation_map, sort_keyed_perm.
  - apply StronglySorted_map.
    pose proof (sort_keyed_sorted keyed) as Hs.
    revert Hk Hs. generalize (sort_keyed keyed). intros l Hk Hs.
    induction Hs as [|x l Hs IH Hx]; constructor.
    + apply IH. intros y Hy. apply Hk. now right.
    + rewrite Forall_forall in *. intros y Hy.
      rewrite <- (Hk x (or_introl eq_refl)), <- (Hk y (or_intror Hy)).
      now apply Hx.
  - intros k. rewrite filter_map_swap.
    rewrite (filter_ext_in (fun x => rank order (snd x) =? k) (fun x => fst x =? k)).
    2:{ intros x Hx. now rewrite (Hk x Hx). }
    rewrite sort_keyed_stable. unfold keyed.
    rewrite filter_map_swap, map_map. simpl. now rewrite map_id.
Qed.

(** ** Dropping invalid rows *)

Lemma drop_ok {A} (inds : list nat) (df : DataFrame A) :
  incl inds (index df) ->
  drop inds df = Ok (mkDF (columns df)
                          (filter (fun r => negb (mem_nat (fst r) inds)) (rows df))).
Proof.
  intros H. unfold drop.
  replace (forallb (fun i => mem_nat i (index df)) inds) with true; [reflexivity|].
  symmetry. apply forallb_forall. intros i Hi. apply mem_nat_In. now apply H.
Qed.

Lemma apply_constraints_refines (cs : list Constraint) (df : DataFrame value) :
  (forall c d, In c cs -> incl (get_invalid c d) (index d)) ->
  foldM apply_constraint cs df = Ok (spec_apply_constraints cs df).
Proof.
  revert df. induction cs as [|c cs IH]; intros df H; simpl; [reflexivity|].
  unfold apply_constraint at 1.
  rewrite drop_ok by (apply H; now left). simpl.
  apply IH. intros c' d Hc'. apply H. now right.
Qed.

Lemma spec_apply_constraints_columns (cs : list Constraint) (df : DataFrame value) :
  columns (spec_apply_constraints cs df) = columns df.
Proof.
  revert df. induction cs as [|c cs IH]; intros df; simpl; [reflexivity|].
  now rewrite IH.
Qed.

Lemma spec_apply_constraints_incl (cs : list Constraint) (df : DataFrame value) :
  incl (rows (spec_apply_constraints cs df)) (rows df).
Proof.
  revert df. induction cs as [|c cs IH]; intros df; simpl; [apply incl_refl|].
  eapply incl_tran; [apply IH|]. simpl. intros r Hr.
  apply filter_In in Hr. tauto.
Qed.

(** ** Column selection *)

Lemma positions_from_spec (x : string) (l : list string) (s i : nat) :
  In i (positions_from x l s) -> s <= i /\ nth_error l (i - s) = Some x.
Proof.
  revert s. induction l as [|y l IH]; intros s; simpl; [tauto|].
  destruct (String.eqb x y) eqn:E.
  - apply String.eqb_eq in E. subst y. intros [<-|H].
    + rewrite Nat.sub_diag. auto.
    + destruct (IH _ H) as [Hle Hn]. split; [lia|].
      replace (i - s) with (S (i - S s)) by lia. exact Hn.
  - intros H. destruct (IH _ H) as [Hle Hn]. split; [lia|].
    replace (i - s) with (S (i - S s)) by lia. exact Hn.
Qed.

Lemma positions_nth (x : string) (l : list string) (i : nat) :
  In i (positions x l) -> nth i l "" = x.
Proof.
  intros H. apply positions_from_spec in H. destruct H as [_ H].
  rewrite Nat.sub_0_r in H. now apply nth_error_nth.
Qed.

Lemma positions_from_nonempty (x : string) (l : list string) (s : nat) :
  In x l -> positions_from x l s <> [].
Proof.
  revert s. induction l as [|y l IH]; intros s; simpl; [tauto|].
  intros H. destruct (String.eqb x y) eqn:E; [discriminate|].
  destruct H as [H|H]; [subst; now rewrite String.eqb_refl in E|].
  now apply IH.
Qed.

Lemma positions_from_absent (x : string) (l : list string) (s : nat) :
  ~ In x l -> positions_from x l s = [].
Proof.
  revert s. induction l as [|y l IH]; intros s H; simpl; [reflexivity|].
  destruct (String.eqb x y) eqn:E.
  - apply String.eqb_eq in E. subst. exfalso. apply H. now left.
  - apply IH. intros Hin. apply H. now right.
Qed.

Lemma positions_from_NoDup (x : string) (l : list string) (s : nat) :
  NoDup l -> In x l -> exists i, positions_from x l s = [i].
Proof.
  intros Hnd. revert s. induction Hnd as [|y l Hy Hnd IH]; intros s; simpl; [tauto|].
  intros H. destruct (String.eqb x y) eqn:E.
  - apply String.eqb_eq in E. subst. exists s.
    now rewrite positions_from_absent.
  - destruct H as [H|H]; [subst; now rewrite String.eqb_refl in E|].
    now apply IH.
Qed.

Lemma select_ok {A} (d : A) (cols : list string) (df : DataFrame A) :
  incl cols (columns df) ->
  select d cols df
  = Ok (take_columns d (concat (map (fun c => positions c (columns df)) cols)) df).
Proof.
  intros H. unfold select.
  rewrite (mapM_ok_map _ (fun c => positions c (columns df))); [reflexivity|].
  intros c Hc. pose proof (positions_from_nonempty c (columns df) 0 (H c Hc)) as Hne.
  unfold positions. destruct (positions_from c (columns df) 0); congruence.
Qed.

Lemma selected_columns_same_set (cols all : list string) (x : string) :
  incl cols all ->
  In x (map (fun i => nth i all "") (concat (map (fun c => positions c all) cols)))
  <-> In x cols.
Proof.
  intros Hincl. rewrite in_map_iff. split.
  - intros [i [Hn Hi]]. apply in_concat in Hi. destruct Hi as [ps [Hps Hi]].
    apply in_map_iff in Hps. destruct Hps as [c [<- Hc]].
    apply positions_nth in Hi. congruence.
  - intros Hx. pose proof (positions_from_nonempty x all 0 (Hincl x Hx)) as Hne.
    destruct (positions_from x all 0) as [|i ps] eqn:E; [congruence|].
    exists i. split.
    + apply positions_nth. unfold positions. rewrite E. now left.
    + apply in_concat. exists (i :: ps). split; [|now left].
      apply in_map_iff. exists x. split; [exact E|exact Hx].
Qed.

Lemma selected_columns_NoDup (cols all : list string) :
  NoDup all -> incl cols all ->
  map (fun i => nth i all "") (concat (map (fun c => positions c all) cols)) = cols.
Proof.
  intros Hnd. induction cols as [|c cols IH]; intros Hincl; [reflexivity|].
  simpl. rewrite map_app, IH by (intros y Hy; apply Hincl; now right).
  destruct (positions_from_NoDup c all 0 Hnd (Hincl c (or_introl eq_refl))) as [i Hi].
  assert (Hn : nth i all "" = c).
  { apply positions_nth. unfold positions. rewrite Hi. now left. }
  unfold positions. rewrite Hi. simpl. now rewrite Hn.
Qed.

Lemma drop_single_value_columns_incl (df : DataFrame Q) :
  incl (columns (df_drop_single_value_columns df)) (columns df).
Proof.
  unfold df_drop_single_value_columns, take_columns. simpl.
  intros c Hc. apply in_map_iff in Hc. destruct Hc as [i [<- Hi]].
  apply filter_In in Hi. destruct Hi as [Hi _]. apply in_seq in Hi.
  apply nth_In. lia.
Qed.

Lemma drop_single_value_columns_index (df : DataFrame Q) :
  index (df_drop_single_value_columns df) = index df.
Proof. apply take_columns_index. Qed.

(** ** Transformation *)

Lemma transform_with_shortcut ps ee frozen (data : DataFrame value) :
  ee = true \/ len data = 0 ->
  transform_with ps ee frozen data = Ok (frame_of_index (index data)).
Proof.
  intros H. unfold transform_with.
  replace (ee || (len data <? 1)) with true; [reflexivity|].
  symmetry. apply orb_true_iff. destruct H as [H|H]; [now left|right].
  apply Nat.ltb_lt. lia.
Qed.

Lemma frame_of_index_index {A} (idx : list nat) :
  index (@frame_of_index A idx) = idx.
Proof. unfold index, frame_of_index. simpl. rewrite map_map. apply map_id. Qed.

(** The loop over the parameters succeeds when every parameter has its
    column in the data. *)
Lemma transform_loop_ok ps (data : DataFrame value) :
  (forall p, In p ps -> In (name p) (columns data)) ->
  exists dfs,
    mapM (fun param =>
            series <- get_column no_value data (name param) ;;
            Ok (transform_rep_exp2comp param series)) ps = Ok dfs /\
    length dfs = length ps /\
    map (@columns Q) dfs = map comp_columns ps /\
    Forall (fun d => index d = index data) dfs.
Proof.
  induction ps as [|p ps IH]; intros H; simpl.
  - exists []. repeat split; constructor.
  - destruct IH as [dfs [Hm [Hl [Hc Hi]]]]; [intros q Hq; apply H; now right|].
    unfold get_column at 1.
    destruct (list_index_In _ _ (H p (or_introl eq_refl))) as [i [Hidx _]].
    rewrite Hidx. simpl. rewrite Hm. simpl. eexists. split; [reflexivity|].
    simpl. repeat split; [now rewrite Hl|now rewrite Hc|].
    constructor; [|exact Hi].
    unfold index, transform_rep_exp2comp. simpl. now rewrite !map_map.
Qed.

Lemma transform_with_encoded ps frozen (data : DataFrame value) :
  (forall p, In p ps -> In (name p) (columns data)) ->
  1 <= len data ->
  exists full,
    columns full = encoded_columns ps /\
    (ps <> [] -> index full = index data) /\
    transform_with ps false frozen data
    = match frozen with
      | Some cols => select 0%Q cols full
      | None => Ok full
      end.
Proof.
  intros Hcols Hlen. unfold transform_with.
  replace (false || (len data <? 1)) with false
    by (symmetry; apply Nat.ltb_ge; exact Hlen).
  destruct (transform_loop_ok ps data Hcols) as [dfs [Hm [Hl [Hc Hi]]]].
  rewrite Hm. simpl. exists (concat_axis1 dfs). repeat split.
  - rewrite concat_axis1_columns, Hc. reflexivity.
  - intros Hne. apply concat_axis1_index; [|exact Hi].
    destruct dfs; [destruct ps; [congruence|discriminate]|discriminate].
Qed.

Lemma transform_loop_inv ps (data : DataFrame value) dfs :
  mapM (fun param =>
          series <- get_column no_value data (name param) ;;
          Ok (transform_rep_exp2comp param series)) ps = Ok dfs ->
  length dfs = length ps /\
  map (@columns Q) dfs = map comp_columns ps /\
  Forall (fun d => index d = index data) dfs /\
  Forall (fun p => In (name p) (columns data)) ps.
Proof.
  revert dfs. induction ps as [|p ps IH]; intros dfs; simpl.
  - intros [= <-]. repeat split; constructor.
  - unfold get_column at 1.
    destruct (list_index (name p) (columns data)) as [i|] eqn:Hidx; simpl;
      [|discriminate].
    match goal with |- context [mapM ?f ps] => destruct (mapM f ps) as [ds|] eqn:Hm end;
      simpl; [|discriminate].
    intros [= <-]. destruct (IH ds eq_refl) as [Hl [Hc [Hi Hn]]].
    simpl. repeat split; [now rewrite Hl|now rewrite Hc| |].
    + constructor; [|exact Hi].
      unfold index, transform_rep_exp2comp. simpl. now rewrite !map_map.
    + constructor; [|exact Hn].
      eapply list_index_Some_In; eassumption.
Qed.

(** What the constructor establishes. *)
Lemma SubspaceDiscrete_init_inv ps e ee sd :
  SubspaceDiscrete_init ps e ee = Ok sd ->
  parameters sd = ps /\ exp_rep sd = e /\ empty_encoding sd = ee /\
  metadata sd = map (fun l => (l, fresh_meta)) (index e) /\
  incl (columns (comp_rep sd)) (encoded_columns ps) /\
  (ee = true \/ len e = 0 -> columns (comp_rep sd) = []) /\
  (ps <> [] \/ len e = 0 \/ ee = true -> index (comp_rep sd) = index e).
Proof.
  unfold SubspaceDiscrete_init, transform_with.
  destruct (ee || (len e <? 1)) eqn:Hs; simpl.
  - intros [= <-]. simpl. repeat split; try reflexivity.
    + intros c Hc. destruct Hc.
    + intros _. rewrite drop_single_value_columns_index.
      apply frame_of_index_index.
  - match goal with |- context [mapM ?f ps] => destruct (mapM f ps) as [dfs|] eqn:Hm end;
      simpl; [|discriminate].
    intros [= <-]. simpl.
    destruct (transform_loop_inv _ _ _ Hm) as [Hl [Hc [Hi _]]].
    apply orb_false_iff in Hs. destruct Hs as [Hee Hlen].
    apply Nat.ltb_ge in Hlen.
    repeat split; try reflexivity.
    + eapply incl_tran; [apply drop_single_value_columns_incl|].
      rewrite concat_axis1_columns, Hc. apply incl_refl.
    + intros [H|H]; [congruence|lia].
    + intros [H|[H|H]]; [|lia|congruence].
      rewrite drop_single_value_columns_index.
      apply concat_axis1_index; [|exact Hi].
      destruct dfs; [destruct ps; [congruence|discriminate]|discriminate].
Qed.

Lemma SubspaceDiscrete_init_ok ps e ee :
  (ee = true \/ len e = 0 \/ forall p, In p ps -> In (name p) (columns e)) ->
  exists sd, SubspaceDiscrete_init ps e ee = Ok sd.
Proof.
  intros H. unfold SubspaceDiscrete_init.
  destruct (Bool.bool_dec ee true) as [Hee|Hee].
  - rewrite transform_with_shortcut by (now left). simpl. eauto.
  - destruct (Nat.eq_dec (len e) 0) as [Hl|Hl].
    + rewrite transform_with_shortcut by (now right). simpl. eauto.
    + destruct H as [H|[H|H]]; [congruence|congruence|].
      apply not_true_is_false in Hee. subst ee.
      destruct (transform_with_encoded ps None e H) as [full [_ [_ Ht]]]; [lia|].
      rewrite Ht. simpl. eauto.
Qed.

Lemma parameter_cartesian_prod_columns ps :
  columns (parameter_cartesian_prod_to_df ps) = map name ps.
Proof. destruct ps; reflexivity. Qed.

Lemma parameter_cartesian_prod_no_parameters :
  len (parameter_cartesian_prod_to_df []) = 0.
Proof. reflexivity. Qed.

(** ** SubspaceDiscrete.create *)

(** C1. For parameters and constraints whose types are listed in the
    execution order and whose [get_invalid] answers with labels of the
    frame it is given, [create] returns a subspace whose [exp_rep] holds
    exactly the rows of the Cartesian product that survive the creation-time
    constraints applied one after the other in the canonical order,
    reindexed from zero: one column per parameter, the cells of the
    surviving rows in their order, as many rows as survive, labelled
    0, 1, ...; [comp_rep] and [metadata] have the same row labels, hence
    the same row count, and every metadata flag is False. *)
Theorem create_builds_filtered_product
        (order : list string) (params : list DiscreteParameter)
        (constraints : option (list Constraint)) (ee : bool) :
  (forall c, In c (constraints_given constraints) -> In (type c) order) ->
  (forall c df, In c (constraints_given constraints) ->
                incl (get_invalid c df) (index df)) ->
  exists sorted sd,
    create order params constraints ee = Ok sd /\
    canonical_order order (constraints_given constraints) sorted /\
    parameters sd = params /\ empty_encoding sd = ee /\
    exp_rep sd
    = reset_index (spec_apply_constraints
                     (filter eval_during_creation sorted)
                     (parameter_cartesian_prod_to_df params)) /\
    index (exp_rep sd) = seq 0 (len (exp_rep sd)) /\
    len (comp_rep sd) = len (exp_rep sd) /\
    length (metadata sd) = len (exp_rep sd) /\
    aligned sd /\
    Forall (fun lm => was_recommended (snd lm) = false /\
                      was_measured (snd lm) = false /\
                      dont_recommend (snd lm) = false) (metadata sd) /\
    let survivors := spec_apply_constraints
                       (filter eval_during_creation sorted)
                       (parameter_cartesian_prod_to_df params) in
    columns (exp_rep sd) = map name params /\
    map snd (rows (exp_rep sd)) = map snd (rows survivors) /\
    index (exp_rep sd) = seq 0 (length (rows survivors)) /\
    len (exp_rep sd) = length (rows survivors) /\
    len (comp_rep sd) = length (rows survivors) /\
    length (metadata sd) = length (rows survivors).
Proof.
  intros Htypes Hinv.
  assert (Hsort : exists sorted,
             match constraints with
             | None => Ok []
             | Some cs => sorted_constraints order cs
             end = Ok sorted /\
             canonical_order order (constraints_given constraints) sorted).
  { destruct constraints as [cs|]; simpl in *.
    - now apply sorted_constraints_canonical.
    - exists []. split; [reflexivity|]. repeat split; constructor. }
  destruct Hsort as [sorted [Hs Hcan]].
  set (prod := parameter_cartesian_prod_to_df params).
  set (survivors := spec_apply_constraints
                      (filter eval_during_creation sorted) prod).
  set (e := reset_index survivors).
  assert (Hcreate : create order params constraints ee
                    = SubspaceDiscrete_init params e ee).
  { unfold create. rewrite Hs. simpl.
    rewrite apply_constraints_refines; [reflexivity|].
    intros c d Hc. apply Hinv. apply filter_In in Hc. destruct Hc as [Hc _].
    destruct Hcan as [Hperm _].
    exact (Permutation_in _ (Permutation_sym Hperm) Hc). }
  assert (Hlen0 : params = [] -> len e = 0).
  { intros ->. unfold e. rewrite reset_index_len. unfold len.
    pose proof (spec_apply_constraints_incl
                  (filter eval_during_creation sorted) prod) as Hincl.
    fold survivors in Hincl.
    destruct (rows survivors) as [|r rs]; [reflexivity|].
    destruct (Hincl r (or_introl eq_refl)). }
  assert (Hcols : columns e = map name params).
  { unfold e, reset_index, survivors. simpl.
    rewrite spec_apply_constraints_columns. unfold prod.
    apply parameter_cartesian_prod_columns. }
  destruct (SubspaceDiscrete_init_ok params e ee) as [sd Hsd].
  { right. right. intros p Hp. rewrite Hcols. now apply in_map. }
  destruct (SubspaceDiscrete_init_inv _ _ _ _ Hsd)
    as [Hp [He [Hee [Hmd [_ [_ Hidx]]]]]].
  assert (Hci : index (comp_rep sd) = index e).
  { apply Hidx. destruct params; [right; left; now apply Hlen0|left; discriminate]. }
  assert (Hmi : map fst (metadata sd) = index e).
  { rewrite Hmd, map_map. simpl. apply map_id. }
  assert (Hlen : len e = length (rows survivors)).
  { unfold e. apply reset_index_len. }
  assert (Hlc : len (comp_rep sd) = len e).
  { rewrite <- !index_length. now rewrite Hci. }
  assert (Hlm : length (metadata sd) = len e).
  { rewrite <- index_length, <- Hmi. now rewrite length_map. }
  exists sorted, sd. rewrite Hcreate, He.
  split; [exact Hsd|]. split; [exact Hcan|]. split; [exact Hp|].
  split; [exact Hee|]. split; [reflexivity|].
  split; [unfold e; now rewrite reset_index_index, reset_index_len|].
  split; [exact Hlc|]. split; [exact Hlm|].
  split; [unfold aligned; rewrite He; now split|].
  split.
  { apply Forall_forall. intros lm Hin. rewrite Hmd in Hin.
    apply in_map_iff in Hin. destruct Hin as [l [<- _]]. simpl. auto. }
  cbv zeta. fold prod. fold survivors.
  split; [exact Hcols|].
  split; [unfold e; apply reset_index_rows|].
  split; [unfold e; apply reset_index_index|].
  split; [exact Hlen|].
  split; [now rewrite Hlc|now rewrite Hlm].
Qed.

Lemma index_where_incl (idx : list nat) (m : list bool) :
  incl (index_where idx m) idx.
Proof.
  unfold index_where. intros i Hi. apply in_map_iff in Hi.
  destruct Hi as [[j b] [<- Hj]]. apply filter_In in Hj.
  destruct Hj as [Hj _]. now apply in_combine_l in Hj.
Qed.

Lemma create_builds_filtered_product_witness :
  (forall c, In c [exclude_example] -> In (type c) ["EXCLUDE"]) /\
  (forall c df, In c [exclude_example] -> incl (get_invalid c df) (index df)) /\
  rows (parameter_cartesian_prod_to_df [cat_example; num_example])
  = [(0, [VStr "a"; VNum 1]); (1, [VStr "a"; VNum 5]);
     (2, [VStr "b"; VNum 1]); (3, [VStr "b"; VNum 5])] /\
  create ["EXCLUDE"] [cat_example; num_example] (Some [exclude_example]) false
  = Ok subspace_example /\
  exp_rep subspace_example
  = mkDF ["cat"; "num"] [(0, [VStr "a"; VNum 1]); (1, [VStr "b"; VNum 5])] /\
  exists sorted sd,
    create ["EXCLUDE"] [cat_example; num_example] (Some [exclude_example]) false
    = Ok sd /\
    canonical_order ["EXCLUDE"] [exclude_example] sorted /\
    parameters sd = [cat_example; num_example] /\ empty_encoding sd = false /\
    exp_rep sd
    = reset_index (spec_apply_constraints
                     (filter eval_during_creation sorted)
                     (parameter_cartesian_prod_to_df [cat_example; num_example])) /\
    index (exp_rep sd) = seq 0 (len (exp_rep sd)) /\
    len (comp_rep sd) = len (exp_rep sd) /\
    length (metadata sd) = len (exp_rep sd) /\
    aligned sd /\
    Forall (fun lm => was_recommended (snd lm) = false /\
                      was_measured (snd lm) = false /\
                      dont_recommend (snd lm) = false) (metadata sd) /\
    let survivors := spec_apply_constraints
                       (filter eval_during_creation sorted)
                       (parameter_cartesian_prod_to_df
                          [cat_example; num_example]) in
    columns (exp_rep sd) = ["cat"; "num"] /\
    map snd (rows (exp_rep sd)) = map snd (rows survivors) /\
    index (exp_rep sd) = seq 0 (length (rows survivors)) /\
    len (exp_rep sd) = length (rows survivors) /\
    len (comp_rep sd) = length (rows survivors) /\
    length (metadata sd) = length (rows survivors).
Proof.
  assert (H1 : forall c, In c [exclude_example] -> In (type c) ["EXCLUDE"]).
  { intros c [<-|[]]. simpl. now left. }
  assert (H2 : forall c df, In c [exclude_example] ->
                            incl (get_invalid c df) (index df)).
  { intros c df [<-|[]]. simpl. apply index_where_incl. }
  split; [exact H1|]. split; [exact H2|].
  split; [reflexivity|]. split; [reflexivity|]. split; [reflexivity|].
  exact (create_builds_filtered_product
           ["EXCLUDE"] [cat_example; num_example] (Some [exclude_example]) false
           H1 H2).
Defined.

(** Every subspace that [create] returns is as the constructor leaves it. *)
Lemma create_constructed order params constraints ee sd :
  create order params constraints ee = Ok sd -> constructed sd.
Proof.
  unfold create.
  destruct (match constraints with
            | None => Ok []
            | Some cs => sorted_constraints order cs
            end) as [cs|]; simpl; [|discriminate].
  destruct (foldM apply_constraint (filter eval_during_creation cs)
                  (parameter_cartesian_prod_to_df params)) as [e|]; simpl;
    [|discriminate].
  intros H. destruct (SubspaceDiscrete_init_inv _ _ _ _ H) as [Hp [He [Hee _]]].
  exists sd. rewrite Hp, He, Hee. split; [exact H|reflexivity].
Qed.

Lemma apply_constraints_inv (cs : list Constraint) (df e : DataFrame value) :
  foldM apply_constraint cs df = Ok e ->
  columns e = columns df /\ incl (rows e) (rows df).
Proof.
  revert df. induction cs as [|c cs IH]; intros df; simpl.
  - intros [= <-]. split; [reflexivity|apply incl_refl].
  - unfold apply_constraint at 1, drop.
    destruct (forallb (fun i => mem_nat i (index df)) (get_invalid c df));
      simpl; [|discriminate].
    intros H. destruct (IH _ H) as [Hc Hr]. simpl in *. split; [exact Hc|].
    intros r Hin. apply Hr in Hin. apply filter_In in Hin. tauto.
Qed.

(** What holds of every subspace that [create] returns: the columns of
    [exp_rep] are the parameters' names, the three tables are aligned, and
    the subspace is as constructed. *)
Lemma create_invariants order params constraints ee sd :
  create order params constraints ee = Ok sd ->
  columns (exp_rep sd) = map name (parameters sd) /\ aligned sd /\ constructed sd.
Proof.
  intros Hcreate. pose proof (create_constructed _ _ _ _ _ Hcreate) as Hcon.
  revert Hcreate. unfold create.
  destruct (match constraints with
            | None => Ok []
            | Some cs => sorted_constraints order cs
            end) as [cs|]; simpl; [|discriminate].
  destruct (foldM apply_constraint (filter eval_during_creation cs)
                  (parameter_cartesian_prod_to_df params)) as [e|] eqn:Hf;
    simpl; [|discriminate].
  intros H. destruct (apply_constraints_inv _ _ _ Hf) as [Hc Hr].
  destruct (SubspaceDiscrete_init_inv _ _ _ _ H)
    as [Hp [He [_ [Hmd [_ [_ Hidx]]]]]].
  rewrite Hp, He. split; [|split; [|exact Hcon]].
  - simpl. rewrite Hc. apply parameter_cartesian_prod_columns.
  - unfold aligned. rewrite He, Hmd, map_map. simpl. rewrite map_id.
    split; [|reflexivity]. apply Hidx.
    destruct params as [|p ps]; [right; left|left; discriminate].
    rewrite reset_index_len. unfold len.
    destruct (rows e) as [|r rs]; [reflexivity|].
    destruct (Hr r (or_introl eq_refl)).
Qed.

(** ** SubspaceDiscrete.transform *)

(** C2, as stated, fails on input without rows: the subspace of the single
    parameter x has the frozen column x, and the transformation of a frame
    with the column x and no row has no column. *)
Lemma transform_zero_rows_counterexample :
  exists out,
    SubspaceDiscrete_init [x_example] (exp_rep x_subspace_example) false
    = Ok x_subspace_example /\
    In (name x_example) (columns (mkDF ["x"] ([] : list (nat * list value)))) /\
    transform x_subspace_example (mkDF ["x"] []) = Ok out /\
    columns (comp_rep x_subspace_example) = ["x"] /\
    columns out = [] /\
    columns out <> columns (comp_rep x_subspace_example).
Proof.
  exists (mkDF [] []). repeat split; try reflexivity.
  - simpl. now left.
  - discriminate.
Qed.

(** C2, amended. For a subspace as constructed and data with a column per
    parameter: when the subspace does not use the empty encoding and the data
    has at least one row, [transform] returns a frame whose columns are
    exactly the frozen columns of [comp_rep] (the same labels, and the same
    list when the encoded column labels are distinct); when the data has no
    row or the subspace uses the empty encoding, it returns the frame without
    columns on the index of the data, whatever the number of rows; and a
    subspace with the empty encoding has a [comp_rep] without columns. *)
Theorem transform_reproduces_frozen_columns
        (sd : SubspaceDiscrete) (data : DataFrame value) :
  constructed sd ->
  (forall p, In p (parameters sd) -> In (name p) (columns data)) ->
  (empty_encoding sd = false -> 1 <= len data ->
   exists out,
     transform sd data = Ok out /\
     (forall c, In c (columns out) <-> In c (columns (comp_rep sd))) /\
     (NoDup (encoded_columns (parameters sd)) ->
      columns out = columns (comp_rep sd))) /\
  (empty_encoding sd = true \/ len data = 0 ->
   transform sd data = Ok (frame_of_index (index data)) /\
   columns (@frame_of_index Q (index data)) = []) /\
  (empty_encoding sd = true -> columns (comp_rep sd) = []).
Proof.
  intros [s0 [Hinit Hcomp]] Hcols.
  destruct (SubspaceDiscrete_init_inv _ _ _ _ Hinit)
    as [_ [_ [_ [_ [Hincl [Hempty _]]]]]].
  rewrite <- Hcomp in Hincl, Hempty.
  split; [|split].
  - intros Hee Hlen. unfold transform. rewrite Hee.
    destruct (transform_with_encoded (parameters sd)
                (Some (columns (comp_rep sd))) data Hcols Hlen)
      as [full [Hfull [_ Ht]]].
    rewrite Ht. rewrite <- Hfull in Hincl.
    rewrite select_ok by exact Hincl.
    eexists. split; [reflexivity|]. unfold take_columns. simpl. split.
    + intros c. now apply selected_columns_same_set.
    + intros Hnd. apply selected_columns_NoDup; [|exact Hincl].
      now rewrite Hfull.
  - intros H. unfold transform. split; [|reflexivity].
    now apply transform_with_shortcut.
  - intros Hee. apply Hempty. now left.
Qed.

Lemma transform_reproduces_frozen_columns_witness :
  constructed x_subspace_example /\
  (forall p, In p (parameters x_subspace_example) ->
             In (name p) (columns (mkDF ["x"; "note"]
                                        [(7, [VNum 2; VStr "second run"])]))) /\
  exists out,
    transform x_subspace_example
              (mkDF ["x"; "note"] [(7, [VNum 2; VStr "second run"])]) = Ok out /\
    (forall c, In c (columns out) <-> In c (columns (comp_rep x_subspace_example))).
Proof.
  assert (H1 : constructed x_subspace_example).
  { exists x_subspace_example. split; reflexivity. }
  assert (H2 : forall p, In p (parameters x_subspace_example) ->
                         In (name p) (columns (mkDF ["x"; "note"]
                                        [(7, [VNum 2; VStr "second run"])]))).
  { intros p [<-|[]]. simpl. now left. }
  split; [exact H1|]. split; [exact H2|].
  destruct (transform_reproduces_frozen_columns
              x_subspace_example
              (mkDF ["x"; "note"] [(7, [VNum 2; VStr "second run"])]) H1 H2)
    as [Hmain _].
  destruct (Hmain eq_refl (le_n 1)) as [out [Hout [Hset _]]].
  exists out. split; [exact Hout|exact Hset].
Defined.

(** ** SubspaceDiscrete.get_candidates *)

Lemma series_or_meta (f g : MetaRow -> bool) (md : list (nat * MetaRow)) :
  series_or (meta_column f md) (meta_column g md)
  = meta_column (fun m => f m || g m) md.
Proof.
  unfold series_or, meta_column.
  induction md as [|lm md IH]; simpl; [reflexivity|]. now rewrite IH.
Qed.

Lemma series_not_meta (f : MetaRow -> bool) (md : list (nat * MetaRow)) :
  series_not (meta_column f md) = meta_column (fun m => negb (f m)) md.
Proof. unfold series_not, meta_column. rewrite map_map. reflexivity. Qed.

Lemma meta_column_ext (f g : MetaRow -> bool) (md : list (nat * MetaRow)) :
  (forall m, f m = g m) -> meta_column f md = meta_column g md.
Proof.
  intros H. unfold meta_column. apply map_ext. intros lm. now rewrite H.
Qed.

Lemma meta_column_index (f : MetaRow -> bool) (md : list (nat * MetaRow)) :
  map fst (meta_column f md) = map fst md.
Proof. unfold meta_column. rewrite map_map. reflexivity. Qed.

(** The mask that [get_candidates] builds marks the candidates. *)
Lemma candidate_mask (md : list (nat * MetaRow)) (ar am : bool) :
  series_not
    (let mask_todrop := meta_column dont_recommend md in
     let mask_todrop :=
       if negb ar then series_or mask_todrop (meta_column was_recommended md)
       else mask_todrop in
     if negb am then series_or mask_todrop (meta_column was_measured md)
     else mask_todrop)
  = meta_column (is_candidate ar am) md.
Proof.
  cbv zeta. destruct ar, am; simpl negb; cbv iota;
    rewrite ?series_or_meta, series_not_meta; apply meta_column_ext;
    intros m; unfold is_candidate;
    destruct (dont_recommend m), (was_recommended m), (was_measured m);
    reflexivity.
Qed.

Lemma loc_mask_aligned {A} (f : MetaRow -> bool) (md : list (nat * MetaRow))
      (df : DataFrame A) :
  map fst md = index df ->
  loc_mask (meta_column f md) df
  = Ok (mkDF (columns df)
             (map fst (filter (fun rm => f (snd (snd rm)))
                              (combine (rows df) md)))).
Proof.
  intros H. unfold loc_mask. rewrite meta_column_index.
  destruct (list_eq_dec Nat.eq_dec (map fst md) (index df)) as [_|Hn];
    [|contradiction].
  do 2 f_equal. unfold meta_column. clear H.
  generalize (rows df). induction md as [|lm md IH]; intros rs.
  - destruct rs; reflexivity.
  - destruct rs as [|r rs]; [reflexivity|]. simpl.
    destruct (f (snd lm)); simpl; now rewrite IH.
Qed.

Lemma kept_labels {A} (k : MetaRow -> bool) (md : list (nat * MetaRow))
      (rs : list (nat * A)) :
  map fst md = map fst rs ->
  map fst (map fst (filter (fun rm => k (snd (snd rm))) (combine rs md)))
  = map fst (filter (fun lm => k (snd lm)) md).
Proof.
  revert rs. induction md as [|lm md IH]; intros rs H.
  - destruct rs; reflexivity.
  - destruct rs as [|r rs]; [discriminate|]. simpl in *.
    injection H as Hl H. destruct (k (snd lm)); simpl; rewrite IH by exact H;
      congruence.
Qed.

(** C3. On a subspace whose three tables are aligned, [get_candidates]
    returns, for either pair of flags, exactly the rows whose [dont_recommend]
    is False, whose [was_recommended] is False unless repetitions are allowed
    and whose [was_measured] is False unless measured rows are allowed; the
    experimental and the computational frame hold the same row labels in the
    same order, namely the labels of the candidate rows in search-space
    order. *)
Theorem get_candidates_selects
        (sd : SubspaceDiscrete) (allow_repeated allow_measured : bool) :
  aligned sd ->
  exists e c,
    get_candidates sd allow_repeated allow_measured = Ok (e, c) /\
    columns e = columns (exp_rep sd) /\
    columns c = columns (comp_rep sd) /\
    rows e = map fst (filter (fun rm => is_candidate allow_repeated allow_measured
                                                     (snd (snd rm)))
                             (combine (rows (exp_rep sd)) (metadata sd))) /\
    rows c = map fst (filter (fun rm => is_candidate allow_repeated allow_measured
                                                     (snd (snd rm)))
                             (combine (rows (comp_rep sd)) (metadata sd))) /\
    index e = index c /\
    index e = map fst (filter (fun lm => is_candidate allow_repeated allow_measured
                                                      (snd lm))
                              (metadata sd)).
Proof.
  intros [Hc Hm]. unfold get_candidates. cbv zeta.
  pose proof (candidate_mask (metadata sd) allow_repeated allow_measured) as Hk.
  cbv zeta in Hk. rewrite Hk. clear Hk.
  rewrite (loc_mask_aligned _ _ (exp_rep sd)) by exact Hm.
  rewrite (loc_mask_aligned _ _ (comp_rep sd)) by (now rewrite Hc).
  simpl. eexists. eexists. split; [reflexivity|]. simpl.
  repeat split; unfold index; simpl.
  - rewrite !kept_labels; [reflexivity| |]; [now rewrite Hm, <- Hc|exact Hm].
  - apply kept_labels. exact Hm.
Qed.

Lemma get_candidates_selects_witness :
  aligned flagged_example /\
  get_candidates flagged_example false true
  = Ok (mkDF ["x"] [(0, [VNum 1]); (2, [VNum 3])],
        mkDF ["x"] [(0, [1%Q]); (2, [3%Q])]) /\
  get_candidates flagged_example false false
  = Ok (mkDF ["x"] [(0, [VNum 1])], mkDF ["x"] [(0, [1%Q])]) /\
  exists e c,
    get_candidates flagged_example false true = Ok (e, c) /\
    columns e = columns (exp_rep flagged_example) /\
    columns c = columns (comp_rep flagged_example) /\
    rows e = map fst (filter (fun rm => is_candidate false true (snd (snd rm)))
                             (combine (rows (exp_rep flagged_example))
                                      (metadata flagged_example))) /\
    rows c = map fst (filter (fun rm => is_candidate false true (snd (snd rm)))
                             (combine (rows (comp_rep flagged_example))
                                      (metadata flagged_example))) /\
    index e = index c /\
    index e = map fst (filter (fun lm => is_candidate false true (snd lm))
                              (metadata flagged_example)).
Proof.
  assert (H : aligned flagged_example) by (split; reflexivity).
  split; [exact H|]. split; [reflexivity|]. split; [reflexivity|].
  exact (get_candidates_selects flagged_example false true H).
Defined.

(** ** Minima of series *)

Lemma Qmin_cases (x y : Q) : Qmin x y = x \/ Qmin x y = y.
Proof.
  unfold Qmin, GenericMinMax.gmin. destruct (x ?= y)%Q; auto.
Qed.

Lemma fold_Qmin_In (xs : list Q) (x : Q) :
  In (fold_left Qmin xs x) (x :: xs).
Proof.
  revert x. induction xs as [|y xs IH]; intros x; simpl; [now left|].
  destruct (IH (Qmin x y)) as [H|H].
  - rewrite <- H. destruct (Qmin_cases x y) as [E|E]; rewrite E; auto.
  - right. now right.
Qed.

Lemma fold_Qmin_le (xs : list Q) (x y : Q) :
  In y (x :: xs) -> (fold_left Qmin xs x <= y)%Q.
Proof.
  revert x y. induction xs as [|z xs IH]; intros x y; simpl.
  - intros [<-|[]]. apply Qle_refl.
  - intros [<-|[<-|H]].
    + eapply Qle_trans; [apply IH; now left|apply Q.le_min_l].
    + eapply Qle_trans; [apply IH; now left|apply Q.le_min_r].
    + apply IH. now right.
Qed.

Lemma series_min_In (l : list Q) : l <> [] -> In (series_min l) l.
Proof. destruct l as [|x xs]; [congruence|]. intros _. apply fold_Qmin_In. Qed.

Lemma series_min_le (l : list Q) (y : Q) : In y l -> (series_min l <= y)%Q.
Proof. destruct l as [|x xs]; [intros []|]. apply fold_Qmin_le. Qed.

(** An entry equals the minimum exactly when no entry is smaller. *)
Lemma equals_min_iff_least (l : list Q) (d : Q) :
  In d l -> Qeq_bool d (series_min l) = forallb (Qle_bool d) l.
Proof.
  intros Hd. apply eq_true_iff_eq.
  rewrite Qeq_bool_iff, forallb_forall. split.
  - intros He y Hy. apply Qle_bool_iff. rewrite He. now apply series_min_le.
  - intros H. apply Qle_antisym.
    + apply Qle_bool_iff, H, series_min_In. intros ->. destruct Hd.
    + now apply series_min_le.
Qed.

(** ** Measurement matching *)

Lemma row_get_cell (cols : list string) (row : list value) (c : string) :
  In c cols -> row_get cols row c = Ok (cell cols row c).
Proof.
  intros H. unfold row_get, cell.
  destruct (list_index_In _ _ H) as [i [Hi _]]. now rewrite Hi.
Qed.

Lemma get_column_cell (df : DataFrame value) (c : string) :
  In c (columns df) ->
  get_column no_value df c
  = Ok (map (fun r => (fst r, cell (columns df) (snd r) c)) (rows df)).
Proof.
  intros H. unfold get_column, cell.
  destruct (list_index_In _ _ H) as [i [Hi _]]. now rewrite Hi.
Qed.

Lemma forallb_on_map {A B} (f : A -> B) (p : B -> bool) (l : list A) :
  forallb p (map f l) = forallb (fun x => p (f x)) l.
Proof.
  induction l as [|x l IH]; simpl; [reflexivity|]. now rewrite IH.
Qed.

Lemma mask_and_map {A} (g h : A -> bool) (l : list A) :
  mask_and (map g l) (map h l) = map (fun x => g x && h x) l.
Proof.
  unfold mask_and. induction l as [|x l IH]; simpl; [reflexivity|].
  now rewrite IH.
Qed.

Lemma index_where_map {A} (g : nat * A -> bool) (rs : list (nat * A)) :
  index_where (map fst rs) (map g rs) = map fst (filter g rs).
Proof.
  unfold index_where. induction rs as [|r rs IH]; simpl; [reflexivity|].
  destruct (g r); simpl; now rewrite IH.
Qed.

Lemma record_matches_firstn (num_cols : list string) (found acc : list nat) :
  record_matches num_cols found acc
  = acc ++ match found with
           | [] => []
           | [i] => [i]
           | i :: _ => [i]
           end.
Proof.
  unfold record_matches. destruct found as [|i [|j found]]; simpl.
  - destruct (0 <? length num_cols); now rewrite ?app_nil_r.
  - reflexivity.
  - reflexivity.
Qed.

Lemma cat_cols_In ps c :
  In c (cat_cols_of ps) -> exists p, In p ps /\ name p = c /\ is_numeric p = false.
Proof.
  unfold cat_cols_of. rewrite in_map_iff. intros [p [<- Hp]].
  apply filter_In in Hp. destruct Hp as [Hp Hn].
  exists p. repeat split; [assumption|]. now apply negb_true_iff.
Qed.

Lemma num_cols_In ps c :
  In c (num_cols_of ps) -> exists p, In p ps /\ name p = c /\ is_numeric p = true.
Proof.
  unfold num_cols_of. rewrite in_map_iff. intros [p [<- Hp]].
  apply filter_In in Hp. destruct Hp as [Hp Hn].
  exists p. repeat split; [assumption|].
  apply andb_true_iff in Hn. tauto.
Qed.

Section Matching.
Context {FA : FloatArith}.
Variable self : SubspaceDiscrete.
Variable cols : list string.
Variable must_be_within_tolerance : bool.

Let params := parameters self.
Let e := exp_rep self.

Hypothesis exp_columns : forall p, In p params -> In (name p) (columns e).
Hypothesis row_columns : forall p, In p params -> In (name p) cols.
Hypothesis exp_numeric : numeric_columns params e.

Lemma check_row_first_offending row_name row ps :
  incl ps params ->
  check_row must_be_within_tolerance row_name cols row ps true
  = match find (offending must_be_within_tolerance cols row) ps with
    | Some p => Raise (ValueError_invalid_input row_name (name p))
    | None => Ok tt
    end.
Proof.
  induction ps as [|p ps IH]; intros Hincl; [reflexivity|].
  assert (Hp : In (name p) cols) by (apply row_columns, Hincl; now left).
  assert (IH' := IH (fun q Hq => Hincl q (or_intror Hq))).
  simpl. unfold offending, range_checked.
  rewrite (row_get_cell _ _ _ Hp).
  destruct (is_numeric p), must_be_within_tolerance; simpl;
    try (destruct (is_in_range p (cell cols row (name p))); simpl);
    try reflexivity; exact IH'.
Qed.

Lemma match_categorical_spec row cats (g0 : nat * list value -> bool) :
  (forall c, In c cats -> In c (columns e) /\ In c cols) ->
  ecols <- mapM (get_column no_value e) cats ;;
  vals <- mapM (row_get cols row) cats ;;
  Ok (fold_left
        (fun m cv => mask_and m (map (fun lv => value_eqb (snd lv) (snd cv))
                                     (fst cv)))
        (combine ecols vals) (map g0 (rows e)))
  = Ok (map (fun er => g0 er && forallb (agrees self cols row er) cats)
            (rows e)).
Proof.
  intros H.
  rewrite (mapM_ok_map _ (fun c => map (fun r => (fst r, cell (columns e) (snd r) c))
                                       (rows e)))
    by (intros c Hc; apply get_column_cell, H, Hc).
  rewrite (mapM_ok_map _ (cell cols row))
    by (intros c Hc; apply row_get_cell, H, Hc).
  simpl. f_equal. clear H. revert g0.
  induction cats as [|c cats IH]; intros g0; simpl.
  - apply map_ext. intros er. now rewrite andb_true_r.
  - rewrite map_map. simpl. rewrite mask_and_map, IH.
    apply map_ext. intros er. unfold agrees at 2. fold e.
    now rewrite andb_assoc.
Qed.

Lemma match_numeric_spec row nums (g0 : nat * list value -> bool) :
  (forall c, In c nums -> exists p, In p params /\ name p = c /\
                                    is_numeric p = true) ->
  (forall c, In c nums -> is_num (cell cols row c) = true) ->
  foldM (match_numeric e cols row) nums (map g0 (rows e))
  = Ok (map (fun er => g0 er
                       && forallb (closest_among self cols row (rows e) er) nums)
            (rows e)).
Proof.
  intros Hp Hv. revert g0.
  induction nums as [|c nums IH]; intros g0; simpl.
  - f_equal. apply map_ext. intros er. now rewrite andb_true_r.
  - destruct (Hp c (or_introl eq_refl)) as [p [Hin [Hn Hnum]]].
    unfold match_numeric at 1.
    rewrite get_column_cell by (rewrite <- Hn; now apply exp_columns).
    simpl. rewrite row_get_cell by (rewrite <- Hn; now apply row_columns).
    simpl.
    rewrite (mapM_ok_map _ (fun lv => deviation (snd lv) (cell cols row c))).
    2:{ intros lv Hlv. apply in_map_iff in Hlv. destruct Hlv as [r [<- Hr]].
        simpl. pose proof (exp_numeric p r Hin Hnum Hr) as H1.
        pose proof (Hv c (or_introl eq_refl)) as H2. rewrite Hn in H1.
        fold e in H1. unfold abs_diff, deviation.
        destruct (cell (columns e) (snd r) c); [|discriminate].
        destruct (cell cols row c); [reflexivity|discriminate]. }
    simpl. rewrite !map_map. simpl.
    set (dev := fun er : nat * list value =>
                  deviation (cell (columns e) (snd er) c) (cell cols row c)).
    rewrite (map_ext_in
               (fun x => Qeq_bool (dev x) (series_min (map dev (rows e))))
               (fun er => closest_among self cols row (rows e) er c)).
    2:{ intros er Her. rewrite equals_min_iff_least by (now apply in_map).
        unfold closest_among. rewrite forallb_on_map. reflexivity. }
    rewrite mask_and_map, IH.
    + f_equal. apply map_ext. intros er. now rewrite andb_assoc.
    + intros c' Hc'. apply Hp. now right.
    + intros c' Hc'. apply Hv. now right.
Qed.

Lemma find_matches_spec row :
  (forall p, In p params -> is_numeric p = true ->
             is_num (cell cols row (name p)) = true) ->
  find_matches self cols row = Ok (spec_candidates self cols row).
Proof.
  intros Hv. unfold find_matches, match_categorical. fold params e.
  pose proof (match_categorical_spec row (cat_cols_of params) (fun _ => true))
    as Hc.
  match type of Hc with ?h -> ?l = ?r => assert (Hc' : l = r) end.
  { apply Hc. intros c Hin. destruct (cat_cols_In _ _ Hin) as [p [Hp [<- _]]].
    split; [now apply exp_columns|now apply row_columns]. }
  clear Hc.
  destruct (mapM (get_column no_value e) (cat_cols_of params)) as [ecols|];
    simpl in *; [|discriminate].
  destruct (mapM (row_get cols row) (cat_cols_of params)) as [vals|];
    simpl in *; [|discriminate].
  injection Hc' as Hc'. rewrite Hc'.
  rewrite match_numeric_spec.
  - simpl. unfold spec_candidates, index. fold e.
    rewrite index_where_map. reflexivity.
  - apply num_cols_In.
  - intros c Hin. destruct (num_cols_In _ _ Hin) as [p [Hp [<- Hn]]].
    now apply Hv.
Qed.
End Matching.

Lemma first_invalid_Some flag cols ps rs l n :
  first_invalid flag cols ps rs = Some (l, n) ->
  exists r p, In r rs /\ In p ps /\ offending flag cols (snd r) p = true /\
              l = fst r /\ n = name p.
Proof.
  induction rs as [|r rs IH]; simpl; [discriminate|].
  destruct (find (offending flag cols (snd r)) ps) as [p|] eqn:Hf.
  - intros [= <- <-]. apply find_some in Hf. destruct Hf as [Hp Ho].
    exists r, p. auto.
  - intros H. destruct (IH H) as [r' [p' [Hr' H']]].
    exists r', p'. split; [now right|exact H'].
Qed.

Lemma first_invalid_None flag cols ps rs :
  first_invalid flag cols ps rs = None <->
  forall r p, In r rs -> In p ps -> offending flag cols (snd r) p = false.
Proof.
  induction rs as [|r rs IH]; simpl.
  - split; [intros _ r p []|reflexivity].
  - destruct (find (offending flag cols (snd r)) ps) as [p|] eqn:Hf.
    + split; [discriminate|]. intros H. apply find_some in Hf.
      destruct Hf as [Hp Ho]. rewrite (H r p (or_introl eq_refl) Hp) in Ho.
      discriminate.
    + rewrite IH. split.
      * intros H r' p' [<-|Hr'] Hp'; [|now apply H].
        exact (find_none _ _ Hf p' Hp').
      * intros H r' p' Hr' Hp'. apply H; [now right|exact Hp'].
Qed.

Lemma match_rows_spec {FA : FloatArith} self cols flag rs acc :
  (forall p, In p (parameters self) -> In (name p) (columns (exp_rep self))) ->
  (forall p, In p (parameters self) -> In (name p) cols) ->
  numeric_columns (parameters self) (exp_rep self) ->
  (forall p r, In p (parameters self) -> is_numeric p = true -> In r rs ->
               is_num (cell cols (snd r) (name p)) = true) ->
  foldM (match_one_row self cols flag) rs acc
  = match first_invalid flag cols (parameters self) rs with
    | Some (l, n) => Raise (ValueError_invalid_input l n)
    | None => Ok (acc ++ flat_map (fun r => spec_recorded self cols (snd r)) rs)
    end.
Proof.
  intros He Hc Hne. revert acc.
  induction rs as [|r rs IH]; intros acc Hnr; simpl.
  - now rewrite app_nil_r.
  - unfold match_one_row at 1.
    rewrite (check_row_first_offending self cols flag Hc) by apply incl_refl.
    destruct (find (offending flag cols (snd r)) (parameters self)) as [p|];
      simpl; [reflexivity|].
    rewrite (find_matches_spec self cols He Hc Hne).
    2:{ intros p Hp Hn. apply (Hnr p r Hp Hn). now left. }
    simpl. rewrite record_matches_firstn.
    rewrite IH by (intros p r' Hp Hn Hr'; apply (Hnr p r' Hp Hn); now right).
    destruct (first_invalid flag cols (parameters self) rs) as [[l n]|];
      [reflexivity|].
    unfold spec_recorded at 2. now rewrite app_assoc.
Qed.

(** The whole of [_match_measurement_with_searchspace_indices], for frames
    whose numeric columns hold numbers. *)
Lemma match_measurement_spec {FA : FloatArith} self df flag :
  columns (exp_rep self) = map name (parameters self) ->
  numeric_columns (parameters self) (exp_rep self) ->
  numeric_columns (parameters self) df ->
  _match_measurement_with_searchspace_indices self df flag
  = if forallb (fun p => mem_string (name p) (columns df)) (parameters self)
    then match first_invalid flag (columns df) (parameters self) (rows df) with
         | Some (l, n) => Raise (ValueError_invalid_input l n)
         | None => Ok (flat_map (fun r => spec_recorded self (columns df) (snd r))
                                (rows df))
         end
    else Raise ValueError_missing_parameter.
Proof.
  intros Hcols Hne Hnd. unfold _match_measurement_with_searchspace_indices.
  rewrite Hcols, forallb_on_map.
  destruct (forallb (fun p => mem_string (name p) (columns df)) (parameters self))
    eqn:Hall; simpl; [|reflexivity].
  rewrite forallb_forall in Hall.
  rewrite (match_rows_spec self (columns df) flag (rows df) []); [reflexivity| | | |].
  - intros p Hp. rewrite Hcols. now apply in_map.
  - intros p Hp. apply mem_string_In. now apply Hall.
  - exact Hne.
  - intros p r Hp Hn Hr. now apply Hnd.
Qed.

(** C4. On a subspace whose [exp_rep] has the parameters' names as
    columns, with numeric columns holding numbers: when some parameter has
    no column in the measurements the call fails with the missing-parameter
    validation error; otherwise, when some row holds for some parameter a
    value outside its domain, where the test applies to a non-numeric
    parameter under either flag and to a numeric one only under the tolerance
    flag, the call fails with the validation error that names such a row and
    parameter; and when no tested value is outside its domain (in
    particular numeric values out of range without the flag) the matching
    proceeds and returns indices. *)
Theorem match_measurement_validation {FA : FloatArith}
        (sd : SubspaceDiscrete) (df : DataFrame value) (flag : bool) :
  columns (exp_rep sd) = map name (parameters sd) ->
  numeric_columns (parameters sd) (exp_rep sd) ->
  numeric_columns (parameters sd) df ->
  ((exists p, In p (parameters sd) /\ ~ In (name p) (columns df)) ->
   _match_measurement_with_searchspace_indices sd df flag
   = Raise ValueError_missing_parameter /\
   mark_as_measured sd df flag = (sd, Raise ValueError_missing_parameter)) /\
  ((forall p, In p (parameters sd) -> In (name p) (columns df)) ->
   ((exists r p, In r (rows df) /\ In p (parameters sd) /\
                 (is_numeric p = false \/ flag = true) /\
                 is_in_range p (cell (columns df) (snd r) (name p)) = false) ->
    exists r p,
      In r (rows df) /\ In p (parameters sd) /\
      (is_numeric p = false \/ flag = true) /\
      is_in_range p (cell (columns df) (snd r) (name p)) = false /\
      _match_measurement_with_searchspace_indices sd df flag
      = Raise (ValueError_invalid_input (fst r) (name p)) /\
      mark_as_measured sd df flag
      = (sd, Raise (ValueError_invalid_input (fst r) (name p)))) /\
   ((forall r p, In r (rows df) -> In p (parameters sd) ->
                 (is_numeric p = false \/ flag = true) ->
                 is_in_range p (cell (columns df) (snd r) (name p)) = true) ->
    exists inds,
      _match_measurement_with_searchspace_indices sd df flag = Ok inds)).
Proof.
  intros Hcols Hne Hnd.
  pose proof (match_measurement_spec sd df flag Hcols Hne Hnd) as Hspec.
  assert (Hoff : forall (r : nat * list value) p,
             offending flag (columns df) (snd r) p = true <->
             (is_numeric p = false \/ flag = true) /\
             is_in_range p (cell (columns df) (snd r) (name p)) = false).
  { intros r p. unfold offending, range_checked.
    rewrite andb_true_iff, orb_true_iff, !negb_true_iff. reflexivity. }
  split.
  - intros [p [Hp Hmiss]].
    assert (Hall : forallb (fun p => mem_string (name p) (columns df))
                           (parameters sd) = false).
    { apply not_true_is_false. intros H. rewrite forallb_forall in H.
      apply Hmiss, mem_string_In, H, Hp. }
    rewrite Hall in Hspec. split; [exact Hspec|].
    unfold mark_as_measured. now rewrite Hspec.
  - intros Hpresent.
    assert (Hall : forallb (fun p => mem_string (name p) (columns df))
                           (parameters sd) = true).
    { apply forallb_forall. intros p Hp. now apply mem_string_In, Hpresent. }
    rewrite Hall in Hspec. split.
    + intros [r [p [Hr [Hp Hbad]]]].
      destruct (first_invalid flag (columns df) (parameters sd) (rows df))
        as [[l n]|] eqn:Hfi.
      * destruct (first_invalid_Some _ _ _ _ _ _ Hfi)
          as [r' [p' [Hr' [Hp' [Ho [-> ->]]]]]].
        apply Hoff in Ho. destruct Ho as [Hchk Hout].
        exists r', p'. repeat split; try assumption.
        unfold mark_as_measured. now rewrite Hspec.
      * rewrite first_invalid_None in Hfi.
        apply Hoff in Hbad. rewrite (Hfi r p Hr Hp) in Hbad. discriminate.
    + intros Hok.
      assert (Hfi : first_invalid flag (columns df) (parameters sd) (rows df)
                    = None).
      { apply first_invalid_None. intros r p Hr Hp.
        apply not_true_is_false. intros Ho. apply Hoff in Ho.
        destruct Ho as [Hchk Hout]. rewrite (Hok r p Hr Hp Hchk) in Hout.
        discriminate. }
      rewrite Hfi in Hspec. eauto.
Qed.

Lemma subspace_example_numeric :
  numeric_columns (parameters subspace_example) (exp_rep subspace_example).
Proof.
  intros p r [<-|[<-|[]]] Hn [<-|[<-|[]]]; try discriminate Hn; reflexivity.
Qed.

Lemma match_measurement_validation_witness :
  columns (exp_rep subspace_example) = map name (parameters subspace_example) /\
  numeric_columns (parameters subspace_example) (exp_rep subspace_example) /\
  numeric_columns (parameters subspace_example) measurements_invalid_example /\
  exists r p,
    In r (rows measurements_invalid_example) /\
    In p (parameters subspace_example) /\
    _match_measurement_with_searchspace_indices
      subspace_example measurements_invalid_example false
    = Raise (ValueError_invalid_input (fst r) (name p)).
Proof.
  assert (H1 : columns (exp_rep subspace_example)
               = map name (parameters subspace_example)) by reflexivity.
  assert (H3 : numeric_columns (parameters subspace_example)
                               measurements_invalid_example).
  { intros p r [<-|[<-|[]]] Hn [<-|[<-|[]]]; try discriminate Hn; reflexivity. }
  split; [exact H1|]. split; [exact subspace_example_numeric|].
  split; [exact H3|].
  destruct (match_measurement_validation
              subspace_example measurements_invalid_example false
              H1 subspace_example_numeric H3) as [_ Hpresent].
  destruct Hpresent as [Hbad _].
  { intros p [<-|[<-|[]]]; simpl; auto. }
  destruct Hbad as [r [p [Hr [Hp [_ [_ [Hm _]]]]]]].
  { exists (1, [VStr "c"; VNum 5]), cat_example. simpl.
    repeat split; auto. }
  exists r, p. repeat split; assumption.
Defined.

(** C5, as stated, fails: in [subspace_example], whose rows are (a, 1) and
    (b, 5), the measurement (b, 1) agrees with row 1 alone on the
    categorical parameter, so that row attains the least deviation among
    the remaining candidates and the claim has its index recorded; the code
    compares with the least deviation over all rows, which row 0 attains,
    and records nothing. *)
Lemma nearest_among_remaining_counterexample :
  claimed_candidates subspace_example (columns measurement_example)
                     [VStr "b"; VNum 1] = [1] /\
  _match_measurement_with_searchspace_indices
    subspace_example measurement_example false = Ok [] /\
  _match_measurement_with_searchspace_indices
    subspace_example measurement_example false
  <> Ok (claimed_candidates subspace_example (columns measurement_example)
                            [VStr "b"; VNum 1]) /\
  metadata (fst (mark_as_measured subspace_example measurement_example false))
  = metadata subspace_example.
Proof. repeat split; try reflexivity. discriminate. Qed.

(** Rounding makes ties.  In [tie_example] the values are -1 and 1 and the
    measurement is 2^-54: the value 1 is the nearer one, but both computed
    deviations are 1, so the code finds two candidates and records the
    first, where subtraction without rounding would record the second. *)
Lemma rounding_makes_ties :
  float64 (1 # 10) = (3602879701896397 # 36028797018963968)%Q /\
  float64 (-1 - (1 # 18014398509481984)) = (-1)%Q /\
  float64 (1 - (1 # 18014398509481984)) = 1%Q /\
  _match_measurement_with_searchspace_indices
    tie_example tie_measurement_example false = Ok [0] /\
  _match_measurement_with_searchspace_indices
    (FA := exact_arith) tie_example tie_measurement_example false = Ok [1].
Proof. repeat split; vm_compute; reflexivity. Qed.

Lemma set_was_measured_spec (inds : list nat) (md : list (nat * MetaRow)) :
  incl inds (map fst md) ->
  exists md',
    set_was_measured inds md = Ok md' /\
    Forall2 (fun old new =>
               fst new = fst old /\
               was_recommended (snd new) = was_recommended (snd old) /\
               dont_recommend (snd new) = dont_recommend (snd old) /\
               was_measured (snd new)
               = (was_measured (snd old) || mem_nat (fst old) inds)) md md'.
Proof.
  intros H. unfold set_was_measured.
  replace (forallb (fun i => mem_nat i (map fst md)) inds) with true.
  2:{ symmetry. apply forallb_forall. intros i Hi. apply mem_nat_In, H, Hi. }
  eexists. split; [reflexivity|]. clear H.
  induction md as [|lm md IH]; simpl; constructor; [|exact IH].
  destruct (mem_nat (fst lm) inds); simpl.
  - repeat split. now rewrite orb_true_r.
  - repeat split. now rewrite orb_false_r.
Qed.

Lemma set_was_measured_inv (inds : list nat) (md md' : list (nat * MetaRow)) :
  set_was_measured inds md = Ok md' -> incl inds (map fst md).
Proof.
  unfold set_was_measured.
  destruct (forallb (fun i => mem_nat i (map fst md)) inds) eqn:E;
    [|discriminate].
  intros _ i Hi. rewrite forallb_forall in E. now apply mem_nat_In, E.
Qed.

Lemma spec_recorded_incl {FA : FloatArith} self cols row :
  incl (spec_recorded self cols row) (index (exp_rep self)).
Proof.
  assert (H : incl (spec_candidates self cols row) (index (exp_rep self))).
  { unfold spec_candidates, index. intros i Hi. apply in_map_iff in Hi.
    destruct Hi as [r [<- Hr]]. apply filter_In in Hr.
    apply in_map. tauto. }
  unfold spec_recorded. destruct (spec_candidates self cols row) as [|i [|j l]].
  - intros x [].
  - exact H.
  - intros x [<-|[]]. apply H. now left.
Qed.

(** C5, amended. On an aligned subspace whose [exp_rep] has the
    parameters' names as columns, for measurements that pass the validation
    and with numeric columns holding numbers: the candidates of an input row
    are the search-space rows that equal it on every non-numeric parameter
    and that attain, for each numeric parameter, the least absolute deviation
    among all rows of the search space (not only among the remaining
    candidates), the deviation being the one the subtraction computes, with
    its rounding; one candidate is recorded, of several the first, of none
    none; and [was_measured] becomes True exactly at the recorded indices,
    the other flags and rows staying as they are.  The statement holds for
    every subtraction, that of float64 among them. *)
Theorem measurement_matching_records_closest {FA : FloatArith}
        (sd : SubspaceDiscrete) (df : DataFrame value) (flag : bool) :
  columns (exp_rep sd) = map name (parameters sd) ->
  map fst (metadata sd) = index (exp_rep sd) ->
  (forall p, In p (parameters sd) -> In (name p) (columns df)) ->
  numeric_columns (parameters sd) (exp_rep sd) ->
  numeric_columns (parameters sd) df ->
  first_invalid flag (columns df) (parameters sd) (rows df) = None ->
  let recorded :=
    flat_map (fun r => spec_recorded sd (columns df) (snd r)) (rows df) in
  _match_measurement_with_searchspace_indices sd df flag = Ok recorded /\
  exists sd',
    mark_as_measured sd df flag = (sd', Ok tt) /\
    Forall2 (fun old new =>
               fst new = fst old /\
               was_recommended (snd new) = was_recommended (snd old) /\
               dont_recommend (snd new) = dont_recommend (snd old) /\
               was_measured (snd new)
               = (was_measured (snd old) || mem_nat (fst old) recorded))
            (metadata sd) (metadata sd').
Proof.
  intros Hcols Hmd Hpresent Hne Hnd Hvalid recorded.
  pose proof (match_measurement_spec sd df flag Hcols Hne Hnd) as Hspec.
  replace (forallb (fun p => mem_string (name p) (columns df)) (parameters sd))
    with true in Hspec.
  2:{ symmetry. apply forallb_forall. intros p Hp.
      now apply mem_string_In, Hpresent. }
  rewrite Hvalid in Hspec. fold recorded in Hspec.
  split; [exact Hspec|].
  destruct (set_was_measured_spec recorded (metadata sd)) as [md' [Hset Hrel]].
  { rewrite Hmd. unfold recorded. intros i Hi. apply in_flat_map in Hi.
    destruct Hi as [r [_ Hi]]. exact (spec_recorded_incl _ _ _ i Hi). }
  unfold mark_as_measured. rewrite Hspec, Hset.
  eexists. split; [reflexivity|exact Hrel].
Qed.

Lemma measurement_matching_records_closest_witness :
  (columns (exp_rep subspace_example) = map name (parameters subspace_example) /\
   map fst (metadata subspace_example) = index (exp_rep subspace_example) /\
   (forall p, In p (parameters subspace_example) ->
              In (name p) (columns measurements_example)) /\
   numeric_columns (parameters subspace_example) (exp_rep subspace_example) /\
   numeric_columns (parameters subspace_example) measurements_example /\
   first_invalid false (columns measurements_example)
                 (parameters subspace_example) (rows measurements_example)
   = None /\
   _match_measurement_with_searchspace_indices
     subspace_example measurements_example false
   = Ok (flat_map (fun r => spec_recorded subspace_example
                                          (columns measurements_example) (snd r))
                  (rows measurements_example)) /\
   _match_measurement_with_searchspace_indices
     subspace_example measurements_example false = Ok [1; 0]) /\
  (columns (exp_rep tie_example) = map name (parameters tie_example) /\
   map fst (metadata tie_example) = index (exp_rep tie_example) /\
   (forall p, In p (parameters tie_example) ->
              In (name p) (columns tie_measurement_example)) /\
   numeric_columns (parameters tie_example) (exp_rep tie_example) /\
   numeric_columns (parameters tie_example) tie_measurement_example /\
   first_invalid false (columns tie_measurement_example)
                 (parameters tie_example) (rows tie_measurement_example)
   = None /\
   spec_candidates tie_example (columns tie_measurement_example)
                   [VNum (1 # 18014398509481984)] = [0; 1] /\
   _match_measurement_with_searchspace_indices
     tie_example tie_measurement_example false = Ok [0]).
Proof.
  assert (H1 : columns (exp_rep subspace_example)
               = map name (parameters subspace_example)) by reflexivity.
  assert (H2 : map fst (metadata subspace_example)
               = index (exp_rep subspace_example)) by reflexivity.
  assert (H3 : forall p, In p (parameters subspace_example) ->
                         In (name p) (columns measurements_example)).
  { intros p [<-|[<-|[]]]; simpl; auto. }
  assert (H5 : numeric_columns (parameters subspace_example)
                               measurements_example).
  { intros p r [<-|[<-|[]]] Hn [<-|[<-|[]]]; try discriminate Hn; reflexivity. }
  assert (H6 : first_invalid false (columns measurements_example)
                             (parameters subspace_example)
                             (rows measurements_example) = None)
    by reflexivity.
  assert (T1 : columns (exp_rep tie_example) = map name (parameters tie_example))
    by reflexivity.
  assert (T2 : map fst (metadata tie_example) = index (exp_rep tie_example))
    by reflexivity.
  assert (T3 : forall p, In p (parameters tie_example) ->
                         In (name p) (columns tie_measurement_example)).
  { intros p [<-|[]]; simpl; auto. }
  assert (T4 : numeric_columns (parameters tie_example) (exp_rep tie_example)).
  { intros p r [<-|[]] Hn [<-|[<-|[]]]; reflexivity. }
  assert (T5 : numeric_columns (parameters tie_example) tie_measurement_example).
  { intros p r [<-|[]] Hn [<-|[]]; reflexivity. }
  assert (T6 : first_invalid false (columns tie_measurement_example)
                             (parameters tie_example)
                             (rows tie_measurement_example) = None)
    by reflexivity.
  split.
  - repeat (split; [assumption || exact subspace_example_numeric|]).
    split;
      exact (proj1 (measurement_matching_records_closest
                      subspace_example measurements_example false
                      H1 H2 H3 subspace_example_numeric H5 H6)).
  - split; [exact T1|]. split; [exact T2|]. split; [exact T3|].
    split; [exact T4|]. split; [exact T5|]. split; [exact T6|].
    split; [vm_compute; reflexivity|].
    exact (proj1 (measurement_matching_records_closest
                    tie_example tie_measurement_example false
                    T1 T2 T3 T4 T5 T6)).
Defined.

(** ** mark_as_measured and the state of the subspace *)

Lemma mark_as_measured_cases {FA : FloatArith} sd df flag :
  (exists e, mark_as_measured sd df flag = (sd, Raise e)) \/
  (exists inds md,
      _match_measurement_with_searchspace_indices sd df flag = Ok inds /\
      set_was_measured inds (metadata sd) = Ok md /\
      mark_as_measured sd df flag
      = (mkSubspaceDiscrete (parameters sd) (exp_rep sd) (comp_rep sd) md
                            (empty_encoding sd), Ok tt)).
Proof.
  unfold mark_as_measured.
  destruct (_match_measurement_with_searchspace_indices sd df flag)
    as [inds|e] eqn:Hm; [|left; eexists; reflexivity].
  destruct (set_was_measured inds (metadata sd)) as [md|e] eqn:Hs;
    [|left; eexists; reflexivity].
  right. exists inds, md. repeat split. exact Hs.
Qed.

(** C10. A call of [mark_as_measured] that raises, for whatever input row
    and whatever rows were matched before it, leaves the subspace as it was;
    a call that returns changes nothing but the column [was_measured], in
    which no flag goes from True to False. *)
Theorem mark_as_measured_atomic {FA : FloatArith}
        (sd : SubspaceDiscrete) (df : DataFrame value) (flag : bool) :
  (forall e, snd (mark_as_measured sd df flag) = Raise e ->
             fst (mark_as_measured sd df flag) = sd) /\
  (snd (mark_as_measured sd df flag) = Ok tt ->
   parameters (fst (mark_as_measured sd df flag)) = parameters sd /\
   exp_rep (fst (mark_as_measured sd df flag)) = exp_rep sd /\
   comp_rep (fst (mark_as_measured sd df flag)) = comp_rep sd /\
   empty_encoding (fst (mark_as_measured sd df flag)) = empty_encoding sd /\
   Forall2 (fun old new =>
              fst new = fst old /\
              was_recommended (snd new) = was_recommended (snd old) /\
              dont_recommend (snd new) = dont_recommend (snd old) /\
              (was_measured (snd old) = true -> was_measured (snd new) = true))
           (metadata sd) (metadata (fst (mark_as_measured sd df flag)))).
Proof.
  destruct (mark_as_measured_cases sd df flag)
    as [[e H]|[inds [md [Hm [Hs H]]]]]; rewrite H; simpl.
  - split; [reflexivity|discriminate].
  - split; [discriminate|]. intros _. repeat split.
    destruct (set_was_measured_spec inds (metadata sd)
                (set_was_measured_inv _ _ _ Hs)) as [md' [Hs' Hrel]].
    rewrite Hs in Hs'. injection Hs' as <-.
    eapply Forall2_impl; [|exact Hrel]. simpl.
    intros old new [H1 [H2 [H3 H4]]]. repeat split; try assumption.
    intros Hold. now rewrite H4, Hold.
Qed.

(** The second measurement of [measurements_invalid_example] is invalid;
    the first matches row 1, whose flag nevertheless stays False. *)
Lemma mark_as_measured_atomic_witness :
  snd (mark_as_measured subspace_example measurements_invalid_example false)
  = Raise (ValueError_invalid_input 1 "cat") /\
  find_matches subspace_example (columns measurements_invalid_example)
               [VStr "b"; VNum 5] = Ok [1] /\
  fst (mark_as_measured subspace_example measurements_invalid_example false)
  = subspace_example.
Proof.
  assert (H : snd (mark_as_measured subspace_example
                                    measurements_invalid_example false)
              = Raise (ValueError_invalid_input 1 "cat")) by reflexivity.
  split; [exact H|]. split; [reflexivity|].
  exact (proj1 (mark_as_measured_atomic
                  subspace_example measurements_invalid_example false) _ H).
Defined.

Lemma mark_as_measured_preserves {FA : FloatArith} sd df flag :
  (aligned sd -> aligned (fst (mark_as_measured sd df flag))) /\
  (constructed sd -> constructed (fst (mark_as_measured sd df flag))).
Proof.
  destruct (mark_as_measured_cases sd df flag)
    as [[e H]|[inds [md [Hm [Hs H]]]]]; rewrite H; simpl; [tauto|].
  split.
  - intros [Hc Hmd]. split; simpl; [exact Hc|].
    destruct (set_was_measured_spec inds (metadata sd)
                (set_was_measured_inv _ _ _ Hs)) as [md' [Hs' Hrel]].
    rewrite Hs in Hs'. injection Hs' as <-. rewrite <- Hmd.
    clear - Hrel. induction Hrel as [|o n l l' Hon _ IH]; simpl; [reflexivity|].
    destruct Hon as [-> _]. now rewrite IH.
  - intros [s0 [Hi Hc]]. exists s0. simpl. auto.
Qed.

(* ------------------------------------------------------------------ *)
(** ** SubspaceContinuous: bounds *)

Lemma Qmax_left (q lo : Q) : (lo <= q)%Q -> Qmax q lo = q.
Proof.
  intros H. unfold Qmax, GenericMinMax.gmax.
  destruct (q ?= lo)%Q eqn:E; try reflexivity.
  apply Qlt_alt in E. exfalso. exact (Qlt_not_le _ _ E H).
Qed.

Lemma Qmin_left (q hi : Q) : (q <= hi)%Q -> Qmin q hi = q.
Proof.
  intros H. unfold Qmin, GenericMinMax.gmin.
  destruct (q ?= hi)%Q eqn:E; try reflexivity.
  apply Qgt_alt in E. exfalso. exact (Qlt_not_le _ _ E H).
Qed.

Lemma Qmin_right (q hi : Q) : (hi < q)%Q -> Qmin q hi = hi.
Proof.
  intros H. unfold Qmin, GenericMinMax.gmin.
  destruct (q ?= hi)%Q eqn:E; try reflexivity.
  - apply Qeq_alt in E. rewrite E in H. exfalso. exact (Qlt_irrefl _ H).
  - apply Qlt_alt in E. exfalso. exact (Qlt_irrefl _ (Qlt_trans _ _ _ E H)).
Qed.

(** What clipping to the replacement magnitude does to one bound: the
    infinities become -1000 and 1000, a finite bound of magnitude at most
    1000 stays, and a finite bound beyond 1000 becomes 1000. *)
Lemma clip_cases (b : bound) :
  let c := clip (- INF_BOUNDS_REPLACEMENT) INF_BOUNDS_REPLACEMENT in
  match b with
  | NegInf => c b = Finite (-(1000))
  | PosInf => c b = Finite 1000
  | Finite q =>
      ((-(1000) <= q)%Q -> (q <= 1000)%Q -> c b = b) /\
      ((1000 < q)%Q -> c b = Finite 1000)
  end.
Proof.
  destruct b as [|q|]; simpl; try reflexivity.
  unfold INF_BOUNDS_REPLACEMENT. split.
  - intros Hlo Hhi. rewrite Qmax_left by exact Hlo.
    now rewrite Qmin_left by exact Hhi.
  - intros Hbig. rewrite Qmax_left.
    + now rewrite Qmin_right by exact Hbig.
    + apply Qlt_le_weak. eapply Qlt_trans; [|exact Hbig]. reflexivity.
Qed.

(** C8: the declared bounds (0, 5000) are finite, and the upper one is
    returned as 1000. *)
Lemma bounds_forced_finite_changes_finite_bound :
  cont_param_bounds_comp (mkSubspaceContinuous [wide_example])
  = ([Finite 0], [Finite 5000]) /\
  bounds_forced_finite (mkSubspaceContinuous [wide_example])
  = ([Finite 0], [Finite 1000]).
Proof. split; reflexivity. Qed.

(** ** SubspaceContinuous: the full factorial *)

Lemma tensor_truth_two_rows (t : tensor bool) :
  length (fst t) = length (snd t) ->
  tensor_truth t = Raise RuntimeError_ambiguous_truth.
Proof.
  destruct t as [l u]. unfold tensor_truth. simpl.
  destruct l as [|a [|a' l]], u as [|b u]; simpl; try discriminate; reflexivity.
Qed.

(** The truth value of [is_fully_bounded] is taken of a tensor with two
    rows of the same length, which has none: [full_factorial] raises for
    every continuous subspace. *)
Lemma full_factorial_raises (self : SubspaceContinuous) :
  full_factorial self = Raise RuntimeError_ambiguous_truth.
Proof.
  unfold full_factorial. rewrite tensor_truth_two_rows; [reflexivity|].
  unfold is_fully_bounded, cont_param_bounds_comp.
  destruct (cont_parameters self); simpl; [reflexivity|].
  now rewrite !length_map.
Qed.

(** C7: one point of the full factorial of one parameter with the bounds
    (0, 1) is asked for, which has two corners; the call raises. *)
Lemma samples_full_factorial_raises :
  samples_full_factorial (mkSubspaceContinuous [unit_example]) 1 [0]
  = Raise RuntimeError_ambiguous_truth /\
  forall self n drawn,
    samples_full_factorial self n drawn = Raise RuntimeError_ambiguous_truth.
Proof.
  split; [reflexivity|]. intros self n drawn.
  unfold samples_full_factorial. now rewrite full_factorial_raises.
Qed.

Lemma cartesian_pairs_length {A} (t : list (A * A)) :
  length (cartesian (map (fun lu => [fst lu; snd lu]) t)) = 2 ^ length t.
Proof.
  induction t as [|lu t IH]; [reflexivity|].
  cbn [map cartesian flat_map length]. rewrite app_nil_r, length_app, !length_map, IH.
  cbn [Nat.pow]. lia.
Qed.

(** The frame that [full_factorial] would build past the truth test has
    one row per corner: 2 ^ k rows for k parameters. *)
Lemma corner_frame_rows (self : SubspaceContinuous) :
  cont_parameters self <> [] ->
  exists df,
    frame_from_product (T_tolist (bounds_forced_finite self)) (param_names self)
    = Ok df /\
    len df = 2 ^ length (cont_parameters self).
Proof.
  intros Hne. unfold frame_from_product, T_tolist.
  destruct (cont_parameters self) as [|p ps] eqn:Hps; [congruence|].
  unfold bounds_forced_finite, cont_param_bounds_comp. rewrite Hps.
  cbn [tensor_map fst snd map combine].
  eexists. split; [reflexivity|]. unfold len. cbn [rows].
  rewrite length_combine, length_seq, Nat.min_id.
  match goal with
  | |- length (cartesian (?x :: map ?f ?t)) = _ =>
      change (x :: map f t) with (map f ((clip (- INF_BOUNDS_REPLACEMENT) INF_BOUNDS_REPLACEMENT (fst (cont_bounds p)), clip (- INF_BOUNDS_REPLACEMENT) INF_BOUNDS_REPLACEMENT (snd (cont_bounds p))) :: t))
  end.
  rewrite cartesian_pairs_length. cbn [length].
  now rewrite length_combine, !length_map, Nat.min_id.
Qed.

(** The two corners of a parameter whose bounds are clipped to the same
    value are the same row. *)
Lemma corner_frame_repeats_rows :
  frame_from_product
    (T_tolist (bounds_forced_finite (mkSubspaceContinuous [far_example])))
    (param_names (mkSubspaceContinuous [far_example]))
  = Ok (mkDF ["x"] [(0, [Finite 1000]); (1, [Finite 1000])]).
Proof. reflexivity. Qed.

(* ------------------------------------------------------------------ *)
(** ** SearchSpace.param_bounds_comp *)

(** The bounds of the discrete part exist exactly when the subspace has no
    parameter or some computational column of a parameter is a column of
    [comp_rep]. *)
Lemma disc_param_bounds_comp_defined (sd : SubspaceDiscrete) :
  (parameters sd = [] \/ bound_columns sd <> []) <->
  exists d, disc_param_bounds_comp sd = Ok d.
Proof.
  unfold disc_param_bounds_comp, np_hstack.
  destruct (parameters sd) as [|p ps] eqn:Hp.
  - split; [eauto|now left].
  - destruct (bound_columns sd) as [|b bs]; simpl.
    + split; [intros [H|H]; congruence|intros [d H]; discriminate].
    + split; [eauto|right; discriminate].
Qed.

(** Whenever the bounds of the discrete part exist, the bounds of the space
    are these followed by the bounds of the continuous part, row by row. *)
Lemma param_bounds_comp_discrete_first (sp : SearchSpace) (d : tensor bound) :
  disc_param_bounds_comp (discrete sp) = Ok d ->
  param_bounds_comp sp
  = Ok (fst d ++ fst (cont_param_bounds_comp (continuous sp)),
        snd d ++ snd (cont_param_bounds_comp (continuous sp))).
Proof.
  intros H. unfold param_bounds_comp, hstack. rewrite H. simpl.
  now rewrite !app_nil_r.
Qed.

(** The example of [test_bounds_order]. *)
Lemma param_bounds_comp_bounds_order :
  exists sp,
    SearchSpace_create [] bounds_order_parameters None false = Ok sp /\
    param_bounds_comp sp
    = Ok ([Finite 1; Finite 7; Finite 4; Finite 10],
          [Finite 3; Finite 9; Finite 6; Finite 12]).
Proof. eexists. split; reflexivity. Qed.

(** C6: a space with a discrete parameter and the empty encoding has a
    [comp_rep] without columns; the list handed to [np.hstack] is empty and
    [param_bounds_comp] raises. *)
Lemma param_bounds_comp_empty_encoding_raises :
  exists sp,
    SearchSpace_create [] [Discrete A_disc; Continuous A_cont] None true = Ok sp /\
    columns (comp_rep (discrete sp)) = [] /\
    param_bounds_comp sp = Raise ValueError_nothing_to_concatenate.
Proof. eexists. repeat split; reflexivity. Qed.

(* ------------------------------------------------------------------ *)
(** ** The dictionary form *)

Lemma SubspaceDiscrete_init_reloads (sd : SubspaceDiscrete) :
  constructed sd ->
  SubspaceDiscrete_init (parameters sd) (exp_rep sd) (empty_encoding sd)
  = Ok (mkSubspaceDiscrete (parameters sd) (exp_rep sd) (comp_rep sd)
                           (fresh_metadata (exp_rep sd)) (empty_encoding sd)).
Proof.
  intros [s0 [Hi Hc]]. rewrite Hi. f_equal.
  destruct (SubspaceDiscrete_init_inv _ _ _ _ Hi) as [Hp [He [Hee [Hmd _]]]].
  destruct s0 as [p e c m ee]. simpl in *. subst. reflexivity.
Qed.

(** C9, as stated, fails: the space whose row 0 has been measured is not
    equal to what its dictionary form is read back to, the metadata being
    initialised anew; and the dictionary of the discrete part does hold the
    keys [comp_rep] and [metadata]. *)
Lemma from_dict_to_dict_counterexample :
  constructed (discrete measured_space_example) /\
  (exists sp, from_dict (to_dict measured_space_example) = Ok sp /\
              sp <> measured_space_example) /\
  exists d, dict_get "discrete" (to_dict measured_space_example) = Some (PDict d) /\
            dict_has "comp_rep" d = true /\ dict_has "metadata" d = true.
Proof.
  split; [|split].
  - exists subspace_example. split; reflexivity.
  - eexists. split; [reflexivity|]. intros H.
    apply (f_equal (fun s => map (fun lm => was_measured (snd lm))
                                 (metadata (discrete s)))) in H.
    discriminate H.
  - eexists. repeat split; reflexivity.
Qed.

(** C9, amended. For a search space with at least one parameter whose
    discrete part is as constructed: [from_dict (to_dict space)] succeeds;
    the parameters, [exp_rep] and the encoding mode come back as they were;
    [comp_rep] and [metadata] are present in the dictionary, are discarded
    by the structuring hook and are computed again, giving the same
    [comp_rep] and a metadata table with every flag False; the result is therefore equal to the space exactly
    when the metadata of the space is as initialised. *)
Theorem from_dict_to_dict (sp : SearchSpace) :
  constructed (discrete sp) ->
  1 <= length (space_parameters sp) ->
  from_dict (to_dict sp) = Ok (reloaded sp) /\
  parameters (discrete (reloaded sp)) = parameters (discrete sp) /\
  exp_rep (discrete (reloaded sp)) = exp_rep (discrete sp) /\
  empty_encoding (discrete (reloaded sp)) = empty_encoding (discrete sp) /\
  comp_rep (discrete (reloaded sp)) = comp_rep (discrete sp) /\
  continuous (reloaded sp) = continuous sp /\
  space_parameters (reloaded sp) = space_parameters sp /\
  space_empty_encoding (reloaded sp) = space_empty_encoding sp /\
  Forall (fun lm => snd lm = fresh_meta) (metadata (discrete (reloaded sp))) /\
  dict_has "comp_rep" (unstructure_SubspaceDiscrete (discrete sp)) = true /\
  dict_has "metadata" (unstructure_SubspaceDiscrete (discrete sp)) = true /\
  (reloaded sp = sp <->
   metadata (discrete sp) = fresh_metadata (exp_rep (discrete sp))).
Proof.
  intros Hc Hlen.
  split.
  { unfold from_dict, to_dict. cbn [dict_get String.eqb Ascii.eqb Bool.eqb].
    unfold structure_hook, unstructure_SubspaceDiscrete, dict_pop.
    cbn [dict_get String.eqb Ascii.eqb Bool.eqb bind snd filter fst negb].
    unfold structure_attrs_fromdict_SubspaceDiscrete, dict_has.
    cbn [dict_get String.eqb Ascii.eqb Bool.eqb orb].
    rewrite (SubspaceDiscrete_init_reloads _ Hc).
    cbn [bind]. unfold structure_SubspaceContinuous, unstructure_SubspaceContinuous.
    cbn [dict_get String.eqb Ascii.eqb Bool.eqb bind].
    unfold SearchSpace_init.
    replace (length (space_parameters sp) <? 1) with false
      by (symmetry; apply Nat.ltb_ge; exact Hlen).
    unfold reloaded. destruct (continuous sp). reflexivity. }
  repeat (split; [reflexivity|]).
  split.
  { simpl. unfold fresh_metadata. apply Forall_forall. intros lm Hlm.
    apply in_map_iff in Hlm. destruct Hlm as [l [<- _]]. reflexivity. }
  repeat (split; [reflexivity|]).
  split.
  - intros H. apply (f_equal (fun s => metadata (discrete s))) in H.
    simpl in H. now symmetry.
  - intros H. unfold reloaded. rewrite <- H.
    destruct sp as [[p e c m ee] ct ps see]. reflexivity.
Qed.

Lemma from_dict_to_dict_witness :
  constructed (discrete measured_space_example) /\
  1 <= length (space_parameters measured_space_example) /\
  from_dict (to_dict measured_space_example)
  = Ok (reloaded measured_space_example).
Proof.
  assert (H1 : constructed (discrete measured_space_example)).
  { exists subspace_example. split; reflexivity. }
  assert (H2 : 1 <= length (space_parameters measured_space_example)).
  { simpl. lia. }
  split; [exact H1|]. split; [exact H2|].
  exact (proj1 (from_dict_to_dict measured_space_example H1 H2)).
Defined.

(* ================================================================== *)
(** * Further properties *)

(** ** SearchSpace.create and SearchSpace.type *)

Lemma create_fields order params constraints ee sd :
  create order params constraints ee = Ok sd ->
  parameters sd = params /\ empty_encoding sd = ee.
Proof.
  unfold create.
  destruct (match constraints with
            | None => Ok []
            | Some cs => sorted_constraints order cs
            end) as [cs|]; simpl; [|discriminate].
  destruct (foldM apply_constraint (filter eval_during_creation cs)
                  (parameter_cartesian_prod_to_df params)) as [e|]; simpl;
    [|discriminate].
  intros H. destruct (SubspaceDiscrete_init_inv _ _ _ _ H) as [Hp [_ [Hee _]]].
  now split.
Qed.

Lemma SearchSpace_create_inv order ps constraints ee sp :
  SearchSpace_create order ps constraints ee = Ok sp ->
  exists sd,
    create order (discrete_of ps) constraints ee = Ok sd /\
    1 <= length ps /\
    sp = mkSearchSpace sd (mkSubspaceContinuous (continuous_of ps)) ps ee.
Proof.
  unfold SearchSpace_create.
  destruct (create order (discrete_of ps) constraints ee) as [sd|]; simpl;
    [|discriminate].
  unfold SearchSpace_init. destruct (length ps <? 1) eqn:E; [discriminate|].
  intros [= <-]. exists sd. apply Nat.ltb_ge in E. auto.
Qed.

Lemma split_parameters_length (ps : list Param) :
  length (discrete_of ps) + length (continuous_of ps) = length ps.
Proof.
  induction ps as [|[d|c] ps IH]; simpl; [reflexivity| |]; lia.
Qed.

(** X1. A space that [SearchSpace.create] returns has a type, never the
    RuntimeError of the last line of [type]: CONTINUOUS without discrete
    parameters, DISCRETE without continuous ones, HYBRID with both. *)
Theorem created_space_type order ps constraints ee sp :
  SearchSpace_create order ps constraints ee = Ok sp ->
  space_type sp
  = Some (match discrete_of ps, continuous_of ps with
          | [], _ => CONTINUOUS
          | _ :: _, [] => DISCRETE
          | _ :: _, _ :: _ => HYBRID
          end).
Proof.
  intros H. destruct (SearchSpace_create_inv _ _ _ _ _ H) as [sd [Hc [Hlen ->]]].
  destruct (create_fields _ _ _ _ _ Hc) as [Hp _].
  pose proof (split_parameters_length ps) as Hsplit.
  unfold space_type, empty, cont_empty. simpl. rewrite Hp.
  destruct (discrete_of ps), (continuous_of ps); simpl in *; try reflexivity.
  lia.
Qed.

Lemma created_space_type_witness :
  exists sp, SearchSpace_create [] bounds_order_parameters None false = Ok sp /\
             space_type sp = Some HYBRID.
Proof.
  destruct (SearchSpace_create [] bounds_order_parameters None false)
    as [sp|e] eqn:E; [|discriminate E].
  exists sp. split; [reflexivity|].
  exact (created_space_type [] bounds_order_parameters None false sp E).
Defined.

(** X2. Without parameters [SearchSpace.create] never returns a space:
    whatever the constraints, it raises, and without constraints it is the
    validator of [parameters] that raises, after the empty discrete
    subspace has been built. *)
Theorem create_without_parameters_raises order constraints ee :
  (exists e, SearchSpace_create order [] constraints ee = Raise e) /\
  SearchSpace_create order [] None ee = Raise ValueError_min_len.
Proof.
  split; [|destruct ee; reflexivity].
  unfold SearchSpace_create. simpl discrete_of.
  destruct (create order [] constraints ee) as [sd|e]; simpl;
    eexists; reflexivity.
Qed.

(** ** SubspaceDiscrete.create and its constraints *)

Lemma list_index_absent (x : string) (l : list string) :
  ~ In x l -> list_index x l = None.
Proof.
  intros H. destruct (list_index x l) as [i|] eqn:E; [|reflexivity].
  exfalso. apply H. exact (list_index_Some_In _ _ _ E).
Qed.

Lemma mapM_raises_at {A B} (f : A -> result B) (pre post : list A) (x : A) e :
  (forall y, In y pre -> exists b, f y = Ok b) -> f x = Raise e ->
  mapM f (pre ++ x :: post) = Raise e.
Proof.
  induction pre as [|y pre IH]; intros Hpre Hx; simpl.
  - now rewrite Hx.
  - destruct (Hpre y (or_introl eq_refl)) as [b Hb]. rewrite Hb. simpl.
    rewrite IH; [reflexivity| |exact Hx].
    intros z Hz. apply Hpre. now right.
Qed.

(** X4. [create] raises the ValueError of [list.index] as soon as the type
    of a constraint is not in the execution order, for the first such
    constraint of the list, whether or not the constraint is evaluated
    during creation and whatever the parameters. *)
Theorem create_unlisted_constraint_type order params pre c post ee :
  (forall c', In c' pre -> In (type c') order) ->
  ~ In (type c) order ->
  create order params (Some (pre ++ c :: post)) ee
  = Raise (ValueError_not_in_list (type c)).
Proof.
  intros Hpre Hc. unfold create, sorted_constraints.
  rewrite (mapM_raises_at _ pre post c (ValueError_not_in_list (type c)));
    [reflexivity| |].
  - intros c' Hc'. unfold order_key.
    destruct (list_index_In _ _ (Hpre c' Hc')) as [i [Hi _]].
    rewrite Hi. simpl. eauto.
  - unfold order_key. now rewrite (list_index_absent _ _ Hc).
Qed.

Lemma create_unlisted_constraint_type_witness :
  (forall c', In c' [exclude_example] -> In (type c') ["EXCLUDE"]) /\
  ~ In (type later_example) ["EXCLUDE"] /\
  create ["EXCLUDE"] [cat_example; num_example]
         (Some ([exclude_example] ++ later_example :: [])) false
  = Raise (ValueError_not_in_list "DEPENDENCY").
Proof.
  assert (H1 : forall c', In c' [exclude_example] -> In (type c') ["EXCLUDE"]).
  { intros c' [<-|[]]. simpl. now left. }
  assert (H2 : ~ In (type later_example) ["EXCLUDE"]).
  { simpl. intros [H|[]]. discriminate H. }
  split; [exact H1|]. split; [exact H2|].
  exact (create_unlisted_constraint_type
           ["EXCLUDE"] [cat_example; num_example] [exclude_example]
           later_example [] false H1 H2).
Defined.

(** X5. Constraints that are not evaluated during creation leave no trace
    in the subspace: with their types listed, [create] returns what it
    returns without constraints. *)
Theorem create_ignores_later_constraints order params cs ee :
  (forall c, In c cs -> In (type c) order) ->
  (forall c, In c cs -> eval_during_creation c = false) ->
  create order params (Some cs) ee = create order params None ee.
Proof.
  intros Htypes Hlater.
  destruct (sorted_constraints_canonical order cs Htypes)
    as [sorted [Hs [Hperm _]]].
  unfold create. rewrite Hs. simpl.
  assert (Hall : forall c, In c sorted -> eval_during_creation c = false).
  { intros c Hc. apply Hlater.
    exact (Permutation_in _ (Permutation_sym Hperm) Hc). }
  replace (filter eval_during_creation sorted) with (@nil Constraint);
    [reflexivity|].
  clear - Hall. induction sorted as [|c sorted IH]; [reflexivity|].
  simpl. rewrite (Hall c (or_introl eq_refl)).
  apply IH. intros c' Hc'. apply Hall. now right.
Qed.

Lemma create_ignores_later_constraints_witness :
  (forall c, In c [later_example] -> In (type c) ["EXCLUDE"; "DEPENDENCY"]) /\
  (forall c, In c [later_example] -> eval_during_creation c = false) /\
  create ["EXCLUDE"; "DEPENDENCY"] [cat_example; num_example]
         (Some [later_example]) false
  = create ["EXCLUDE"; "DEPENDENCY"] [cat_example; num_example] None false.
Proof.
  assert (H1 : forall c, In c [later_example] ->
                         In (type c) ["EXCLUDE"; "DEPENDENCY"]).
  { intros c [<-|[]]. simpl. auto. }
  assert (H2 : forall c, In c [later_example] -> eval_during_creation c = false).
  { intros c [<-|[]]. reflexivity. }
  split; [exact H1|]. split; [exact H2|].
  exact (create_ignores_later_constraints
           ["EXCLUDE"; "DEPENDENCY"] [cat_example; num_example]
           [later_example] false H1 H2).
Defined.

Lemma key_injective {A} (key : A -> nat) (l : list A) (a b : A) :
  NoDup (map key l) -> In a l -> In b l -> key a = key b -> a = b.
Proof.
  induction l as [|h t IH]; simpl; [tauto|].
  intros Hnd Ha Hb Hk. apply NoDup_cons_iff in Hnd. destruct Hnd as [Hh Hnd].
  destruct Ha as [<-|Ha], Hb as [<-|Hb]; try reflexivity.
  - exfalso. apply Hh. rewrite Hk. now apply in_map.
  - exfalso. apply Hh. rewrite <- Hk. now apply in_map.
  - now apply IH.
Qed.

(** Two sorted lists with the same elements and distinct keys are equal. *)
Lemma sorted_unique {A} (key : A -> nat) (l1 l2 : list A) :
  StronglySorted (fun a b => key a <= key b) l1 ->
  StronglySorted (fun a b => key a <= key b) l2 ->
  Permutation l1 l2 -> NoDup (map key l1) -> l1 = l2.
Proof.
  revert l2. induction l1 as [|x t1 IH]; intros l2 Hs1 Hs2 Hperm Hnd.
  - apply Permutation_nil in Hperm. now subst.
  - destruct l2 as [|y t2];
      [apply Permutation_sym, Permutation_nil in Hperm; discriminate|].
    apply StronglySorted_inv in Hs1. destruct Hs1 as [Hs1 Hx].
    apply StronglySorted_inv in Hs2. destruct Hs2 as [Hs2 Hy].
    rewrite Forall_forall in Hx, Hy.
    assert (Hxy : x = y).
    { assert (Hyin : In y (x :: t1))
        by (apply (Permutation_in _ (Permutation_sym Hperm)); now left).
      assert (Hxin : In x (y :: t2))
        by (apply (Permutation_in _ Hperm); now left).
      apply (key_injective key (x :: t1)); [exact Hnd|now left|exact Hyin|].
      apply Nat.le_antisymm.
      - destruct Hyin as [->|Hyin]; [apply Nat.le_refl|now apply Hx].
      - destruct Hxin as [->|Hxin]; [apply Nat.le_refl|now apply Hy]. }
    subst y. f_equal. apply IH; try assumption.
    + now apply Permutation_cons_inv in Hperm.
    + simpl in Hnd. now apply NoDup_cons_iff in Hnd.
Qed.

(** X6. The order in which the caller lists constraints of pairwise
    different types does not matter: [create] returns the same for every
    arrangement of the list. *)
Theorem create_constraint_order_irrelevant order params cs cs' ee :
  (forall c, In c cs -> In (type c) order) ->
  NoDup (map (rank order) cs) ->
  Permutation cs cs' ->
  create order params (Some cs') ee = create order params (Some cs) ee.
Proof.
  intros Htypes Hnd Hperm.
  assert (Htypes' : forall c, In c cs' -> In (type c) order).
  { intros c Hc. apply Htypes.
    exact (Permutation_in _ (Permutation_sym Hperm) Hc). }
  destruct (sorted_constraints_canonical order cs Htypes)
    as [s [Hs [Hp [Hsorted _]]]].
  destruct (sorted_constraints_canonical order cs' Htypes')
    as [s' [Hs' [Hp' [Hsorted' _]]]].
  assert (Heq : s = s').
  { apply (sorted_unique (rank order)); try assumption.
    - eapply perm_trans; [apply Permutation_sym, Hp|].
      eapply perm_trans; [exact Hperm|exact Hp'].
    - eapply Permutation_NoDup; [|exact Hnd]. now apply Permutation_map. }
  unfold create. now rewrite Hs, Hs', Heq.
Qed.

Lemma create_constraint_order_irrelevant_witness :
  (forall c, In c [exclude_example; later_example] ->
             In (type c) ["EXCLUDE"; "DEPENDENCY"]) /\
  NoDup (map (rank ["EXCLUDE"; "DEPENDENCY"]) [exclude_example; later_example]) /\
  Permutation [exclude_example; later_example] [later_example; exclude_example] /\
  create ["EXCLUDE"; "DEPENDENCY"] [cat_example; num_example]
         (Some [later_example; exclude_example]) false
  = create ["EXCLUDE"; "DEPENDENCY"] [cat_example; num_example]
           (Some [exclude_example; later_example]) false.
Proof.
  assert (H1 : forall c, In c [exclude_example; later_example] ->
                         In (type c) ["EXCLUDE"; "DEPENDENCY"]).
  { intros c [<-|[<-|[]]]; simpl; auto. }
  assert (H2 : NoDup (map (rank ["EXCLUDE"; "DEPENDENCY"])
                          [exclude_example; later_example])).
  { simpl. repeat constructor; simpl; intuition discriminate. }
  assert (H3 : Permutation [exclude_example; later_example]
                           [later_example; exclude_example])
    by apply perm_swap.
  split; [exact H1|]. split; [exact H2|]. split; [exact H3|].
  exact (create_constraint_order_irrelevant
           ["EXCLUDE"; "DEPENDENCY"] [cat_example; num_example]
           [exclude_example; later_example] [later_example; exclude_example]
           false H1 H2 H3).
Defined.

(** ** The constructor and [transform] *)

(** X7. The constructor of [SubspaceDiscrete] succeeds exactly when the
    encoding is empty, or [exp_rep] has no row, or [exp_rep] has a column
    for every parameter; otherwise the lookup of a parameter's column in
    [__attrs_post_init__] raises. *)
Theorem constructor_succeeds_iff ps (e : DataFrame value) ee :
  (exists sd, SubspaceDiscrete_init ps e ee = Ok sd) <->
  (ee = true \/ len e = 0 \/ forall p, In p ps -> In (name p) (columns e)).
Proof.
  split; [|apply SubspaceDiscrete_init_ok].
  intros [sd H]. unfold SubspaceDiscrete_init, transform_with in H.
  destruct ee; [now left|]. right.
  destruct (len e) as [|n] eqn:Hlen; [now left|]. right.
  simpl in H.
  match type of H with
  | context [mapM ?f ps] => destruct (mapM f ps) as [dfs|] eqn:Hm
  end; simpl in H; [|discriminate].
  destruct (transform_loop_inv _ _ _ Hm) as [_ [_ [_ Hall]]].
  now rewrite Forall_forall in Hall.
Qed.

(** X8. With the encoding not empty and at least one row of data,
    [transform] raises the KeyError of the first parameter, in parameter
    order, whose column the data lacks. *)
Theorem transform_missing_column sd (data : DataFrame value) pre p post :
  empty_encoding sd = false ->
  1 <= len data ->
  parameters sd = pre ++ p :: post ->
  (forall q, In q pre -> In (name q) (columns data)) ->
  ~ In (name p) (columns data) ->
  transform sd data = Raise (KeyError (name p)).
Proof.
  intros Hee Hlen Hps Hpre Hp. unfold transform, transform_with.
  rewrite Hee, Hps.
  replace (len data <? 1) with false by (symmetry; now apply Nat.ltb_ge).
  simpl orb. cbv iota.
  rewrite (mapM_raises_at _ pre post p (KeyError (name p))); [reflexivity| |].
  - intros q Hq. rewrite (get_column_cell _ _ (Hpre q Hq)). simpl. eauto.
  - unfold get_column. now rewrite (list_index_absent _ _ Hp).
Qed.

Lemma transform_missing_column_witness :
  empty_encoding subspace_example = false /\
  1 <= len (mkDF ["cat"] [(0, [VStr "a"])]) /\
  parameters subspace_example = [cat_example] ++ num_example :: [] /\
  (forall q, In q [cat_example] ->
             In (name q) (columns (mkDF ["cat"] [(0, [VStr "a"])]))) /\
  ~ In (name num_example) (columns (mkDF ["cat"] [(0, [VStr "a"])])) /\
  transform subspace_example (mkDF ["cat"] [(0, [VStr "a"])])
  = Raise (KeyError "num").
Proof.
  assert (H4 : forall q, In q [cat_example] ->
                         In (name q) (columns (mkDF ["cat"] [(0, [VStr "a"])]))).
  { intros q [<-|[]]. simpl. now left. }
  assert (H5 : ~ In (name num_example)
                    (columns (mkDF ["cat"] [(0, [VStr "a"])]))).
  { simpl. intros [H|[]]. discriminate H. }
  split; [reflexivity|]. split; [apply le_n|]. split; [reflexivity|].
  split; [exact H4|]. split; [exact H5|].
  exact (transform_missing_column
           subspace_example (mkDF ["cat"] [(0, [VStr "a"])])
           [cat_example] num_example [] eq_refl (le_n 1) eq_refl H4 H5).
Defined.

Lemma positions_nth_NoDup (cols : list string) (i : nat) :
  NoDup cols -> i < length cols -> positions (nth i cols "") cols = [i].
Proof.
  intros Hnd Hi.
  destruct (positions_from_NoDup (nth i cols "") cols 0 Hnd (nth_In _ _ Hi))
    as [j Hj].
  unfold positions. rewrite Hj. f_equal.
  assert (Hin : In j (positions_from (nth i cols "") cols 0))
    by (rewrite Hj; now left).
  pose proof (positions_nth _ _ _ Hin) as Hn.
  apply positions_from_spec in Hin. destruct Hin as [_ Hsome].
  rewrite Nat.sub_0_r in Hsome.
  assert (Hjlt : j < length cols)
    by (apply nth_error_Some; congruence).
  exact (proj1 (NoDup_nth cols "") Hnd j i Hjlt Hi Hn).
Qed.

(** Selecting the labels of a projection of a frame with distinct labels
    gives the projection. *)
Lemma select_take_columns {A} (d : A) (ks : list nat) (df : DataFrame A) :
  NoDup (columns df) ->
  (forall i, In i ks -> i < length (columns df)) ->
  select d (columns (take_columns d ks df)) df = Ok (take_columns d ks df).
Proof.
  intros Hnd Hks. simpl columns at 1.
  rewrite select_ok.
  - do 2 f_equal. rewrite map_map.
    induction ks as [|i ks IH]; [reflexivity|]. simpl.
    rewrite positions_nth_NoDup by (auto using in_eq). simpl. f_equal.
    apply IH. intros j Hj. apply Hks. now right.
  - intros c Hc. apply in_map_iff in Hc. destruct Hc as [i [<- Hi]].
    apply nth_In. now apply Hks.
Qed.

(** X9. For a subspace as constructed whose encoded column labels are
    distinct, the transformation of its own experimental representation is
    its computational representation. *)
Theorem transform_exp_rep_is_comp_rep sd :
  constructed sd ->
  NoDup (encoded_columns (parameters sd)) ->
  transform sd (exp_rep sd) = Ok (comp_rep sd).
Proof.
  intros [s0 [Hinit Hcomp]] Hnd. unfold transform. rewrite Hcomp.
  revert Hinit. unfold SubspaceDiscrete_init, transform_with.
  destruct (empty_encoding sd || (len (exp_rep sd) <? 1)); simpl.
  - intros [= <-]. simpl. f_equal.
    unfold df_drop_single_value_columns, take_columns, frame_of_index. simpl.
    now rewrite map_map.
  - match goal with
    | |- context [mapM ?f (parameters sd)] =>
        destruct (mapM f (parameters sd)) as [dfs|] eqn:Hm
    end; simpl; [|discriminate].
    intros [= <-]. simpl.
    destruct (transform_loop_inv _ _ _ Hm) as [_ [Hc _]].
    unfold df_drop_single_value_columns. apply select_take_columns.
    + rewrite concat_axis1_columns, Hc. exact Hnd.
    + intros i Hi. apply filter_In in Hi. destruct Hi as [Hi _].
      apply in_seq in Hi. lia.
Qed.

Lemma transform_exp_rep_is_comp_rep_witness :
  constructed subspace_example /\
  NoDup (encoded_columns (parameters subspace_example)) /\
  transform subspace_example (exp_rep subspace_example)
  = Ok (comp_rep subspace_example).
Proof.
  assert (H1 : constructed subspace_example).
  { exists subspace_example. split; reflexivity. }
  assert (H2 : NoDup (encoded_columns (parameters subspace_example))).
  { simpl. repeat constructor; simpl; intuition discriminate. }
  split; [exact H1|]. split; [exact H2|].
  exact (transform_exp_rep_is_comp_rep subspace_example H1 H2).
Defined.

Lemma combine_map_same {A B C} (g : A -> B) (h : A -> C) (l : list A) :
  combine (map g l) (map h l) = map (fun x => (g x, h x)) l.
Proof.
  induction l as [|x l IH]; simpl; [reflexivity|]. now rewrite IH.
Qed.

(** The frame that the loop of [transform] builds for a non-empty list of
    parameters: each row is the encoding of the row of the data. *)
Lemma concat_axis1_encoded ps cols (rs : list (nat * list value)) :
  ps <> [] ->
  concat_axis1
    (map (fun p => transform_rep_exp2comp
                     p (map (fun r => (fst r, cell cols (snd r) (name p))) rs))
         ps)
  = mkDF (encoded_columns ps)
         (map (fun r => (fst r, encode_row ps cols (snd r))) rs).
Proof.
  induction ps as [|p ps IH]; intros Hne; [congruence|].
  destruct ps as [|p' ps].
  - simpl. unfold transform_rep_exp2comp, encoded_columns, encode_row. simpl.
    rewrite app_nil_r, map_map. f_equal. apply map_ext. intros r. simpl.
    now rewrite app_nil_r.
  - change (concat_axis1 (map ?f (p :: p' :: ps)))
      with (hcat (f p) (concat_axis1 (map f (p' :: ps)))).
    rewrite IH by discriminate.
    unfold hcat, transform_rep_exp2comp. simpl columns. simpl rows.
    f_equal. rewrite map_map, combine_map_same, map_map. reflexivity.
Qed.

(** X10. [transform] acts row by row: for a subspace as constructed, with
    parameters and without the empty encoding, there is a fixed list of
    positions such that, for every non-empty list of rows over columns that
    hold the parameters, the result has one row per input row, with the same
    label, made of the cells at these positions of the encoding of that row
    alone. *)
Theorem transform_acts_row_by_row sd cols :
  constructed sd ->
  empty_encoding sd = false ->
  parameters sd <> [] ->
  (forall p, In p (parameters sd) -> In (name p) cols) ->
  exists positions : list nat,
  forall rs, rs <> [] ->
    transform sd (mkDF cols rs)
    = Ok (mkDF (map (fun i => nth i (encoded_columns (parameters sd)) "")
                    positions)
               (map (fun r => (fst r,
                               map (fun i => nth i (encode_row (parameters sd)
                                                               cols (snd r))
                                                 0%Q)
                                   positions))
                    rs)).
Proof.
  intros [s0 [Hinit Hcomp]] Hee Hne Hcols.
  destruct (SubspaceDiscrete_init_inv _ _ _ _ Hinit)
    as [_ [_ [_ [_ [Hincl _]]]]].
  rewrite <- Hcomp in Hincl.
  exists (concat (map (fun c => positions c (encoded_columns (parameters sd)))
                      (columns (comp_rep sd)))).
  intros rs Hrs. unfold transform, transform_with. rewrite Hee.
  replace (len (mkDF cols rs) <? 1) with false.
  2:{ symmetry. apply Nat.ltb_ge. unfold len. simpl.
      destruct rs; [congruence|simpl; lia]. }
  simpl orb. cbv iota.
  rewrite (mapM_ok_map
             _ (fun p => transform_rep_exp2comp
                           p (map (fun r => (fst r, cell cols (snd r) (name p)))
                                  rs))).
  2:{ intros p Hp. rewrite (get_column_cell (mkDF cols rs) _ (Hcols p Hp)).
      reflexivity. }
  simpl bind. rewrite concat_axis1_encoded by exact Hne.
  rewrite select_ok by exact Hincl.
  unfold take_columns. simpl. now rewrite map_map.
Qed.

Lemma transform_acts_row_by_row_witness :
  constructed subspace_example /\
  empty_encoding subspace_example = false /\
  parameters subspace_example <> [] /\
  (forall p, In p (parameters subspace_example) ->
             In (name p) ["num"; "cat"]) /\
  exists positions : list nat,
  forall rs, rs <> [] ->
    transform subspace_example (mkDF ["num"; "cat"] rs)
    = Ok (mkDF (map (fun i => nth i (encoded_columns (parameters subspace_example)) "")
                    positions)
               (map (fun r => (fst r,
                               map (fun i => nth i (encode_row
                                                      (parameters subspace_example)
                                                      ["num"; "cat"] (snd r))
                                                 0%Q)
                                   positions))
                    rs)).
Proof.
  assert (H1 : constructed subspace_example).
  { exists subspace_example. split; reflexivity. }
  assert (H3 : parameters subspace_example <> []) by discriminate.
  assert (H4 : forall p, In p (parameters subspace_example) ->
                         In (name p) ["num"; "cat"]).
  { intros p [<-|[<-|[]]]; simpl; auto. }
  split; [exact H1|]. split; [reflexivity|]. split; [exact H3|].
  split; [exact H4|].
  exact (transform_acts_row_by_row subspace_example ["num"; "cat"]
                                   H1 eq_refl H3 H4).
Defined.

(** X11. A subspace without parameters and without the empty encoding
    turns data that has rows into the frame without rows and columns: the
    index of the data is not kept, other than under the empty encoding. *)
Theorem transform_without_parameters sd (data : DataFrame value) :
  constructed sd ->
  parameters sd = [] ->
  empty_encoding sd = false ->
  1 <= len data ->
  transform sd data = Ok (mkDF [] []).
Proof.
  intros [s0 [Hinit Hcomp]] Hps Hee Hlen.
  destruct (SubspaceDiscrete_init_inv _ _ _ _ Hinit)
    as [_ [_ [_ [_ [Hincl _]]]]].
  rewrite <- Hcomp, Hps in Hincl.
  assert (Hcols : columns (comp_rep sd) = []).
  { destruct (columns (comp_rep sd)) as [|c cs]; [reflexivity|].
    destruct (Hincl c (or_introl eq_refl)). }
  unfold transform, transform_with. rewrite Hee, Hps, Hcols.
  replace (len data <? 1) with false by (symmetry; now apply Nat.ltb_ge).
  reflexivity.
Qed.

Lemma transform_without_parameters_witness :
  constructed no_parameters_example /\
  parameters no_parameters_example = [] /\
  empty_encoding no_parameters_example = false /\
  1 <= len (mkDF ["y"] [(0, [VNum 1])]) /\
  transform no_parameters_example (mkDF ["y"] [(0, [VNum 1])]) = Ok (mkDF [] []).
Proof.
  assert (H1 : constructed no_parameters_example).
  { exists no_parameters_example. split; reflexivity. }
  split; [exact H1|]. split; [reflexivity|]. split; [reflexivity|].
  split; [apply le_n|].
  exact (transform_without_parameters
           no_parameters_example (mkDF ["y"] [(0, [VNum 1])])
           H1 eq_refl eq_refl (le_n 1)).
Defined.

(** ** Candidates *)

(** [get_candidates] on aligned tables, in closed form. *)
Lemma get_candidates_aligned sd ar am :
  aligned sd ->
  get_candidates sd ar am
  = Ok (mkDF (columns (exp_rep sd))
             (map fst (filter (fun rm => is_candidate ar am (snd (snd rm)))
                              (combine (rows (exp_rep sd)) (metadata sd)))),
        mkDF (columns (comp_rep sd))
             (map fst (filter (fun rm => is_candidate ar am (snd (snd rm)))
                              (combine (rows (comp_rep sd)) (metadata sd))))).
Proof.
  intros [Hc Hm]. unfold get_candidates. cbv zeta.
  pose proof (candidate_mask (metadata sd) ar am) as Hk.
  cbv zeta in Hk. rewrite Hk. clear Hk.
  rewrite (loc_mask_aligned _ _ (exp_rep sd)) by exact Hm.
  rewrite (loc_mask_aligned _ _ (comp_rep sd)) by (now rewrite Hc).
  reflexivity.
Qed.

Lemma create_metadata_fresh order params constraints ee sd :
  create order params constraints ee = Ok sd ->
  metadata sd = fresh_metadata (exp_rep sd).
Proof.
  unfold create.
  destruct (match constraints with
            | None => Ok []
            | Some cs => sorted_constraints order cs
            end) as [cs|]; simpl; [|discriminate].
  destruct (foldM apply_constraint (filter eval_during_creation cs)
                  (parameter_cartesian_prod_to_df params)) as [e|]; simpl;
    [|discriminate].
  intros H. destruct (SubspaceDiscrete_init_inv _ _ _ _ H) as [_ [He [_ [Hmd _]]]].
  now rewrite He, Hmd.
Qed.

Lemma keep_all_rows {A} (k : MetaRow -> bool) (rs : list (nat * list A))
      (md : list (nat * MetaRow)) :
  map fst md = map fst rs ->
  (forall lm, In lm md -> k (snd lm) = true) ->
  map fst (filter (fun rm => k (snd (snd rm))) (combine rs md)) = rs.
Proof.
  revert md. induction rs as [|r rs IH]; intros md Hl Hk.
  - reflexivity.
  - destruct md as [|lm md]; [discriminate|]. simpl in *.
    injection Hl as _ Hl. rewrite (Hk lm (or_introl eq_refl)). simpl.
    f_equal. apply IH; [exact Hl|]. intros lm' H'. apply Hk. now right.
Qed.

(** X12. Every row of a subspace that [create] has just returned is a
    candidate: under either pair of flags [get_candidates] returns
    [exp_rep] and [comp_rep] whole. *)
Theorem created_subspace_all_candidates order params constraints ee sd ar am :
  create order params constraints ee = Ok sd ->
  get_candidates sd ar am = Ok (exp_rep sd, comp_rep sd).
Proof.
  intros H. destruct (create_invariants _ _ _ _ _ H) as [_ [Hal _]].
  pose proof (create_metadata_fresh _ _ _ _ _ H) as Hmd.
  rewrite (get_candidates_aligned sd ar am Hal).
  destruct Hal as [Hc Hm].
  assert (Hfresh : forall lm, In lm (metadata sd) ->
                              is_candidate ar am (snd lm) = true).
  { intros lm Hlm. rewrite Hmd in Hlm. unfold fresh_metadata in Hlm.
    apply in_map_iff in Hlm. destruct Hlm as [l [<- _]]. simpl.
    unfold is_candidate. simpl. now rewrite !orb_true_r. }
  rewrite !keep_all_rows; try assumption.
  - destruct (exp_rep sd), (comp_rep sd). reflexivity.
  - now rewrite Hm, <- Hc.
Qed.

Lemma created_subspace_all_candidates_witness :
  exists sd,
    create ["EXCLUDE"] [cat_example; num_example] (Some [exclude_example]) false
    = Ok sd /\
    get_candidates sd false false = Ok (exp_rep sd, comp_rep sd).
Proof.
  destruct (create ["EXCLUDE"] [cat_example; num_example]
                   (Some [exclude_example]) false) as [sd|e] eqn:E;
    [|discriminate E].
  exists sd. split; [reflexivity|].
  exact (created_subspace_all_candidates
           ["EXCLUDE"] [cat_example; num_example] (Some [exclude_example])
           false sd false false E).
Defined.

Lemma is_candidate_monotone ar am ar' am' m :
  (ar = true -> ar' = true) -> (am = true -> am' = true) ->
  is_candidate ar am m = true -> is_candidate ar' am' m = true.
Proof.
  unfold is_candidate. intros Ha Hm.
  destruct (dont_recommend m), (was_recommended m), (was_measured m),
    ar, am, ar', am'; simpl; intros H; try reflexivity; try discriminate H;
    try discriminate (Ha eq_refl); discriminate (Hm eq_refl).
Qed.

(** X13. Allowing more never removes a candidate: on aligned tables, every
    row returned under a pair of flags is returned under every pair that
    allows at least as much. *)
Theorem get_candidates_monotone sd ar am ar' am' e c e' c' :
  aligned sd ->
  (ar = true -> ar' = true) -> (am = true -> am' = true) ->
  get_candidates sd ar am = Ok (e, c) ->
  get_candidates sd ar' am' = Ok (e', c') ->
  incl (rows e) (rows e') /\ incl (rows c) (rows c').
Proof.
  intros Hal Ha Hm. rewrite !(get_candidates_aligned sd _ _ Hal).
  intros [= <- <-] [= <- <-]. simpl.
  split; intros r Hr; apply in_map_iff in Hr; destruct Hr as [rm [<- Hrm]];
    apply filter_In in Hrm; destruct Hrm as [Hin Hk];
    apply in_map, filter_In; (split; [exact Hin|]);
    exact (is_candidate_monotone _ _ _ _ _ Ha Hm Hk).
Qed.

Lemma get_candidates_monotone_witness :
  aligned (discrete measured_space_example) /\
  exists e c e' c',
    get_candidates (discrete measured_space_example) false false = Ok (e, c) /\
    get_candidates (discrete measured_space_example) false true = Ok (e', c') /\
    incl (rows e) (rows e') /\ incl (rows c) (rows c').
Proof.
  assert (H : aligned (discrete measured_space_example)) by (split; reflexivity).
  split; [exact H|].
  destruct (get_candidates (discrete measured_space_example) false false)
    as [[e c]|] eqn:E1; [|discriminate E1].
  destruct (get_candidates (discrete measured_space_example) false true)
    as [[e' c']|] eqn:E2; [|discriminate E2].
  exists e, c, e', c'. split; [reflexivity|]. split; [reflexivity|].
  exact (get_candidates_monotone
           (discrete measured_space_example) false false false true
           e c e' c' H (fun h => h) (fun h => eq_refl) E1 E2).
Defined.

Lemma measured_only_changes_was_measured (md md' : list (nat * MetaRow))
      (inds : list nat) (k : MetaRow -> bool) :
  set_was_measured inds md = Ok md' ->
  (forall a b, was_recommended a = was_recommended b ->
               dont_recommend a = dont_recommend b -> k a = k b) ->
  meta_column k md' = meta_column k md.
Proof.
  intros Hs Hk.
  destruct (set_was_measured_spec inds md (set_was_measured_inv _ _ _ Hs))
    as [md'' [Hs' Hrel]].
  rewrite Hs in Hs'. injection Hs' as <-. clear Hs.
  unfold meta_column. induction Hrel as [|o n l l' Hon _ IH]; [reflexivity|].
  simpl. destruct Hon as [Hl [Hr [Hd _]]].
  f_equal; [|exact IH]. f_equal; [exact Hl|]. now apply Hk.
Qed.

(** X14. When measured rows may be recommended again, marking
    measurements does not change the candidates: [get_candidates] with
    [allow_recommending_already_measured] returns the same before and after
    any call of [mark_as_measured]. *)
Theorem mark_as_measured_keeps_candidates {FA : FloatArith} sd df flag ar :
  get_candidates (fst (mark_as_measured sd df flag)) ar true
  = get_candidates sd ar true.
Proof.
  destruct (mark_as_measured_cases sd df flag)
    as [[e H]|[inds [md [Hm [Hs H]]]]]; rewrite H; simpl; [reflexivity|].
  unfold get_candidates. cbv zeta.
  pose proof (candidate_mask md ar true) as Hk. cbv zeta in Hk.
  pose proof (candidate_mask (metadata sd) ar true) as Hk'. cbv zeta in Hk'.
  cbn [metadata exp_rep comp_rep]. rewrite Hk, Hk'.
  rewrite (measured_only_changes_was_measured _ _ _ _ Hs); [reflexivity|].
  intros a b Hr Hd. unfold is_candidate. now rewrite Hr, Hd, !orb_true_l.
Qed.

Lemma in_updated_metadata (md md' : list (nat * MetaRow)) (inds : list nat) lm :
  set_was_measured inds md = Ok md' -> In lm md' ->
  In (fst lm) inds -> was_measured (snd lm) = true.
Proof.
  unfold set_was_measured.
  destruct (forallb (fun i => mem_nat i (map fst md)) inds); [|discriminate].
  intros [= <-] Hin Hl. apply in_map_iff in Hin.
  destruct Hin as [old [Heq Hold]].
  destruct (mem_nat (fst old) inds) eqn:E.
  - subst lm. reflexivity.
  - subst lm. apply mem_nat_In in Hl. congruence.
Qed.

(** X15. A row that a call of [mark_as_measured] has matched is no
    candidate afterwards unless measured rows are allowed: on aligned
    tables its label occurs in neither frame that [get_candidates] returns
    with [allow_recommending_already_measured] False. *)
Theorem measured_rows_are_no_candidates {FA : FloatArith} sd df flag sd' inds ar e c :
  aligned sd ->
  mark_as_measured sd df flag = (sd', Ok tt) ->
  _match_measurement_with_searchspace_indices sd df flag = Ok inds ->
  get_candidates sd' ar false = Ok (e, c) ->
  forall l, In l inds -> ~ In l (index e) /\ ~ In l (index c).
Proof.
  intros Hal Hmark Hmatch Hget l Hl.
  destruct (mark_as_measured_cases sd df flag)
    as [[x H]|[inds0 [md [Hm [Hs H]]]]]; rewrite H in Hmark;
    [discriminate Hmark|].
  rewrite Hmatch in Hm. injection Hm as <-. injection Hmark as <-.
  pose proof (proj1 (mark_as_measured_preserves sd df flag) Hal) as Hal'.
  rewrite H in Hal'. simpl in Hal'.
  rewrite (get_candidates_aligned _ ar false Hal') in Hget.
  injection Hget as <- <-. destruct Hal' as [Hc' Hm']. simpl in *.
  assert (Hno : ~ In l (map fst (filter (fun lm => is_candidate ar false (snd lm))
                                        md))).
  { intros Hin. apply in_map_iff in Hin. destruct Hin as [lm [<- Hlm]].
    apply filter_In in Hlm. destruct Hlm as [Hlm Hk].
    pose proof (in_updated_metadata _ _ _ _ Hs Hlm Hl) as Hw.
    unfold is_candidate in Hk. rewrite Hw in Hk. simpl in Hk.
    now rewrite andb_false_r in Hk. }
  unfold index. simpl. rewrite !kept_labels; [now split| |exact Hm'].
  now rewrite Hm', <- Hc'.
Qed.

Lemma measured_rows_are_no_candidates_witness :
  aligned subspace_example /\
  exists sd' inds e c,
    mark_as_measured subspace_example measurements_example false = (sd', Ok tt) /\
    _match_measurement_with_searchspace_indices
      subspace_example measurements_example false = Ok inds /\
    get_candidates sd' false false = Ok (e, c) /\
    forall l, In l inds -> ~ In l (index e) /\ ~ In l (index c).
Proof.
  assert (H : aligned subspace_example) by (split; reflexivity).
  split; [exact H|].
  destruct (mark_as_measured subspace_example measurements_example false)
    as [sd' [[]|x]] eqn:E1; [|discriminate E1].
  destruct (_match_measurement_with_searchspace_indices
              subspace_example measurements_example false)
    as [inds|x] eqn:E2; [|discriminate E2].
  assert (H' : aligned sd').
  { pose proof (proj1 (mark_as_measured_preserves
                         subspace_example measurements_example false) H) as Hp.
    now rewrite E1 in Hp. }
  pose proof (get_candidates_aligned sd' false false H') as E3.
  eexists sd', inds, _, _. split; [reflexivity|]. split; [reflexivity|].
  split; [exact E3|].
  exact (measured_rows_are_no_candidates
           subspace_example measurements_example false sd' inds false _ _
           H E1 E2 E3).
Defined.

(** ** mark_as_measured: repetition and order *)

Lemma match_ignores_metadata {FA : FloatArith} sd md df flag :
  _match_measurement_with_searchspace_indices (with_metadata sd md) df flag
  = _match_measurement_with_searchspace_indices sd df flag.
Proof. destruct sd. reflexivity. Qed.

Lemma mark_as_measured_state {FA : FloatArith} sd md df flag :
  fst (mark_as_measured (with_metadata sd md) df flag)
  = with_metadata
      sd (metadata_after
            (_match_measurement_with_searchspace_indices sd df flag) md).
Proof.
  unfold mark_as_measured. rewrite match_ignores_metadata.
  unfold metadata_after.
  destruct (_match_measurement_with_searchspace_indices sd df flag)
    as [inds|e]; [|reflexivity].
  cbn [metadata with_metadata].
  destruct (set_was_measured inds md); reflexivity.
Qed.

Lemma with_metadata_same sd : with_metadata sd (metadata sd) = sd.
Proof. destruct sd. reflexivity. Qed.

Lemma mark_as_measured_first {FA : FloatArith} sd df flag :
  fst (mark_as_measured sd df flag)
  = with_metadata
      sd (metadata_after
            (_match_measurement_with_searchspace_indices sd df flag)
            (metadata sd)).
Proof.
  rewrite <- mark_as_measured_state. now rewrite with_metadata_same.
Qed.

Lemma set_was_measured_rows inds md :
  set_was_measured inds md
  = if forallb (fun i => mem_nat i (map fst md)) inds
    then Ok (map (measured_row inds) md)
    else Raise (KeyError_rows inds).
Proof. reflexivity. Qed.

Lemma measured_row_label inds lm : fst (measured_row inds lm) = fst lm.
Proof. unfold measured_row. destruct (mem_nat (fst lm) inds); reflexivity. Qed.

Lemma measured_rows_labels inds md :
  map fst (map (measured_row inds) md) = map fst md.
Proof.
  rewrite map_map. apply map_ext. intros lm. apply measured_row_label.
Qed.

Lemma measured_row_commute a b lm :
  measured_row a (measured_row b lm) = measured_row b (measured_row a lm).
Proof.
  unfold measured_row.
  destruct (mem_nat (fst lm) a) eqn:Ea, (mem_nat (fst lm) b) eqn:Eb; simpl;
    rewrite ?Ea, ?Eb; reflexivity.
Qed.

Lemma measured_row_idempotent a lm :
  measured_row a (measured_row a lm) = measured_row a lm.
Proof.
  unfold measured_row. destruct (mem_nat (fst lm) a) eqn:Ea; simpl;
    rewrite Ea; reflexivity.
Qed.

Lemma metadata_after_labels r md : map fst (metadata_after r md) = map fst md.
Proof.
  unfold metadata_after. destruct r as [inds|e]; [|reflexivity].
  rewrite set_was_measured_rows.
  destruct (forallb (fun i => mem_nat i (map fst md)) inds); [|reflexivity].
  apply measured_rows_labels.
Qed.

Lemma metadata_after_commute r1 r2 md :
  metadata_after r1 (metadata_after r2 md)
  = metadata_after r2 (metadata_after r1 md).
Proof.
  destruct r1 as [a|e1], r2 as [b|e2]; try reflexivity.
  unfold metadata_after. rewrite !set_was_measured_rows.
  destruct (forallb (fun i => mem_nat i (map fst md)) a) eqn:Ea,
           (forallb (fun i => mem_nat i (map fst md)) b) eqn:Eb;
    rewrite ?set_was_measured_rows, ?measured_rows_labels, ?Ea, ?Eb;
    try reflexivity.
  rewrite !map_map. apply map_ext. intros lm. apply measured_row_commute.
Qed.

Lemma metadata_after_idempotent r md :
  metadata_after r (metadata_after r md) = metadata_after r md.
Proof.
  destruct r as [a|e]; [|reflexivity].
  unfold metadata_after. rewrite !set_was_measured_rows.
  destruct (forallb (fun i => mem_nat i (map fst md)) a) eqn:Ea;
    rewrite ?set_was_measured_rows, ?measured_rows_labels, ?Ea;
    try reflexivity.
  rewrite map_map. apply map_ext. intros lm. apply measured_row_idempotent.
Qed.

(** X16. Marking the same measurements again changes nothing: the subspace
    after two calls of [mark_as_measured] with the same arguments is the
    subspace after one. *)
Theorem mark_as_measured_idempotent {FA : FloatArith} sd df flag :
  fst (mark_as_measured (fst (mark_as_measured sd df flag)) df flag)
  = fst (mark_as_measured sd df flag).
Proof.
  rewrite (mark_as_measured_first sd df flag), mark_as_measured_state.
  now rewrite metadata_after_idempotent.
Qed.

(** X17. The order of two calls of [mark_as_measured] does not matter for
    the subspace they leave, whether or not either of them raises. *)
Theorem mark_as_measured_commutes {FA : FloatArith} sd df1 flag1 df2 flag2 :
  fst (mark_as_measured (fst (mark_as_measured sd df1 flag1)) df2 flag2)
  = fst (mark_as_measured (fst (mark_as_measured sd df2 flag2)) df1 flag1).
Proof.
  rewrite (mark_as_measured_first sd df1 flag1),
    (mark_as_measured_first sd df2 flag2), !mark_as_measured_state.
  now rewrite metadata_after_commute.
Qed.

(** ** What the matching returns *)

Lemma find_matches_incl {FA : FloatArith} sd cols row found :
  find_matches sd cols row = Ok found -> incl found (index (exp_rep sd)).
Proof.
  unfold find_matches.
  destruct (match_categorical (exp_rep sd) cols row
                              (cat_cols_of (parameters sd))) as [m|];
    simpl; [|discriminate].
  destruct (foldM (match_numeric (exp_rep sd) cols row)
                  (num_cols_of (parameters sd)) m) as [m'|];
    simpl; [|discriminate].
  intros [= <-]. apply index_where_incl.
Qed.

Lemma match_rows_bound {FA : FloatArith} sd cols flag rs acc out :
  foldM (match_one_row sd cols flag) rs acc = Ok out ->
  incl acc (index (exp_rep sd)) ->
  incl out (index (exp_rep sd)) /\ length out <= length acc + length rs.
Proof.
  revert acc. induction rs as [|r rs IH]; intros acc; simpl.
  - intros [= <-] H. split; [exact H|lia].
  - unfold match_one_row at 1.
    destruct (check_row flag (fst r) cols (snd r) (parameters sd) true);
      simpl; [|discriminate].
    destruct (find_matches sd cols (snd r)) as [found|] eqn:Hf;
      simpl; [|discriminate].
    rewrite record_matches_firstn. intros H Hacc.
    pose proof (find_matches_incl _ _ _ _ Hf) as Hfound.
    apply IH in H.
    + destruct H as [H1 H2]. split; [exact H1|].
      rewrite length_app in H2.
      destruct found as [|i [|j found]]; simpl in H2; lia.
    + apply incl_app; [exact Hacc|].
      destruct found as [|i [|j found]]; intros x Hx; simpl in Hx;
        try destruct Hx as [<-|[]]; try contradiction;
        apply Hfound; now left.
Qed.

(** X18. Whatever the measurements, the indices that the matching returns
    are labels of [exp_rep], and there is at most one for each row of the
    measurements. *)
Theorem matched_indices_bounded {FA : FloatArith} sd df flag inds :
  _match_measurement_with_searchspace_indices sd df flag = Ok inds ->
  incl inds (index (exp_rep sd)) /\ length inds <= len df.
Proof.
  unfold _match_measurement_with_searchspace_indices.
  destruct (negb (forallb (fun col => mem_string col (columns df))
                          (columns (exp_rep sd)))); [discriminate|].
  intros H. apply match_rows_bound in H; [exact H|].
  intros x [].
Qed.

Lemma matched_indices_bounded_witness :
  exists inds,
    _match_measurement_with_searchspace_indices
      subspace_example measurements_example false = Ok inds /\
    incl inds (index (exp_rep subspace_example)) /\
    length inds <= len measurements_example.
Proof.
  destruct (_match_measurement_with_searchspace_indices
              subspace_example measurements_example false)
    as [inds|e] eqn:E; [|discriminate E].
  exists inds. split; [reflexivity|].
  exact (matched_indices_bounded
           subspace_example measurements_example false inds E).
Defined.

(** X19. On a subspace whose metadata has the index of [exp_rep], the
    write of [mark_as_measured] never raises: the call returns when the
    matching returns and raises what the matching raises. *)
Theorem mark_as_measured_outcome {FA : FloatArith} sd df flag :
  map fst (metadata sd) = index (exp_rep sd) ->
  snd (mark_as_measured sd df flag)
  = match _match_measurement_with_searchspace_indices sd df flag with
    | Ok _ => Ok tt
    | Raise e => Raise e
    end.
Proof.
  intros Hmd. unfold mark_as_measured.
  destruct (_match_measurement_with_searchspace_indices sd df flag)
    as [inds|e] eqn:Hm; [|reflexivity].
  assert (Hincl : incl inds (index (exp_rep sd))).
  { revert Hm. unfold _match_measurement_with_searchspace_indices.
    destruct (negb (forallb (fun col => mem_string col (columns df))
                            (columns (exp_rep sd)))); [discriminate|].
    intros Hm. apply match_rows_bound in Hm; [tauto|]. intros x []. }
  rewrite <- Hmd in Hincl.
  destruct (set_was_measured_spec inds (metadata sd) Hincl) as [md' [Hs _]].
  now rewrite Hs.
Qed.

Lemma mark_as_measured_outcome_witness :
  map fst (metadata subspace_example) = index (exp_rep subspace_example) /\
  snd (mark_as_measured subspace_example measurements_invalid_example false)
  = match _match_measurement_with_searchspace_indices
            subspace_example measurements_invalid_example false with
    | Ok _ => Ok tt
    | Raise e => Raise e
    end.
Proof.
  split; [reflexivity|].
  exact (mark_as_measured_outcome
           subspace_example measurements_invalid_example false eq_refl).
Defined.

(** ** Measurements that coincide with a row of the search space *)

Lemma forallb_ext_on {A} (f g : A -> bool) (l : list A) :
  (forall x, In x l -> f x = g x) -> forallb f l = forallb g l.
Proof.
  induction l as [|x l IH]; intros H; simpl; [reflexivity|].
  rewrite (H x (or_introl eq_refl)), IH; [reflexivity|].
  intros y Hy. apply H. now right.
Qed.

Lemma forallb_by_kind (f : DiscreteParameter -> bool) ps :
  forallb f ps
  = forallb f (filter (fun p => negb (is_numeric p)) ps)
    && forallb f (filter (fun p => is_numeric p && is_discrete p) ps).
Proof.
  induction ps as [|p ps IH]; [reflexivity|]. simpl. rewrite IH.
  unfold is_discrete. destruct (is_numeric p); simpl;
    destruct (f p),
      (forallb f (filter (fun p => negb (is_numeric p)) ps)),
      (forallb f (filter (fun p => is_numeric p && true) ps)); reflexivity.
Qed.

(** When some row of the search space has the measured value of a numeric
    parameter, a row attains the least deviation exactly when it has that
    value.  The subtraction enters with two of its properties on the
    column: the computed deviation is not negative and is zero exactly for
    equal numbers. *)
Lemma closest_is_exact {FA : FloatArith} sd cols row er er' c :
  (forall er0, In er0 (rows (exp_rep sd)) ->
               Qle_bool 0 (row_deviation sd cols row er0 c) = true /\
               Qeq_bool (row_deviation sd cols row er0 c) 0
               = value_eqb (cell (columns (exp_rep sd)) (snd er0) c)
                           (cell cols row c)) ->
  In er (rows (exp_rep sd)) -> In er' (rows (exp_rep sd)) ->
  value_eqb (cell (columns (exp_rep sd)) (snd er) c) (cell cols row c) = true ->
  closest_among sd cols row (rows (exp_rep sd)) er' c
  = value_eqb (cell (columns (exp_rep sd)) (snd er') c) (cell cols row c).
Proof.
  intros Hlaw Her Her' Hexact.
  destruct (Hlaw er Her) as [_ Hz]. rewrite Hexact in Hz.
  apply Qeq_bool_iff in Hz.
  destruct (Hlaw er' Her') as [Hpos' Hz']. apply Qle_bool_iff in Hpos'.
  rewrite <- Hz'. unfold closest_among.
  apply eq_true_iff_eq. rewrite forallb_forall, Qeq_bool_iff. split.
  - intros H. specialize (H er Her). apply Qle_bool_iff in H.
    apply Qle_antisym; [|exact Hpos'].
    apply (Qle_trans _ _ _ H). rewrite Hz. apply Qle_refl.
  - intros Heq er0 Her0. apply Qle_bool_iff.
    destruct (Hlaw er0 Her0) as [Hpos0 _]. apply Qle_bool_iff in Hpos0.
    rewrite Heq. exact Hpos0.
Qed.

(** X20. When a measurement coincides on every parameter with some row of
    the search space, the matching finds exactly the rows that coincide with
    it on every parameter, that row among them: the nearest rows are the
    equal ones.  This holds for every subtraction whose computed deviation
    on the numeric columns is not negative and is zero exactly for equal
    numbers, as that of float64 is on floats. *)
Theorem exact_measurement_matches {FA : FloatArith} sd cols row er :
  (forall p, In p (parameters sd) -> In (name p) (columns (exp_rep sd))) ->
  (forall p, In p (parameters sd) -> In (name p) cols) ->
  numeric_columns (parameters sd) (exp_rep sd) ->
  (forall p, In p (parameters sd) -> is_numeric p = true ->
             is_num (cell cols row (name p)) = true) ->
  (forall p er0, In p (parameters sd) -> is_numeric p = true ->
                 In er0 (rows (exp_rep sd)) ->
                 Qle_bool 0 (row_deviation sd cols row er0 (name p)) = true /\
                 Qeq_bool (row_deviation sd cols row er0 (name p)) 0
                 = value_eqb (cell (columns (exp_rep sd)) (snd er0) (name p))
                             (cell cols row (name p))) ->
  In er (rows (exp_rep sd)) ->
  (forall p, In p (parameters sd) ->
             value_eqb (cell (columns (exp_rep sd)) (snd er) (name p))
                       (cell cols row (name p)) = true) ->
  find_matches sd cols row
  = Ok (map fst
            (filter (fun er' =>
                       forallb (fun p =>
                                  value_eqb (cell (columns (exp_rep sd))
                                                  (snd er') (name p))
                                            (cell cols row (name p)))
                               (parameters sd))
                    (rows (exp_rep sd)))) /\
  exists found, find_matches sd cols row = Ok found /\ In (fst er) found.
Proof.
  intros He Hc Hnum Hrow Hlaw Her Hexact.
  assert (Hmain :
            find_matches sd cols row
            = Ok (map fst
                      (filter (fun er' =>
                                 forallb (fun p =>
                                            value_eqb
                                              (cell (columns (exp_rep sd))
                                                    (snd er') (name p))
                                              (cell cols row (name p)))
                                         (parameters sd))
                              (rows (exp_rep sd))))).
  { rewrite (find_matches_spec sd cols He Hc Hnum row Hrow).
    unfold spec_candidates. do 2 f_equal. apply filter_ext_in.
    intros er' Her'. unfold spec_is_match, cat_cols_of, num_cols_of.
    rewrite !forallb_on_map.
    etransitivity; [|symmetry; apply forallb_by_kind].
    f_equal.
    apply forallb_ext_on. intros p Hp. apply filter_In in Hp.
    destruct Hp as [Hp Hn]. apply andb_true_iff in Hn. destruct Hn as [Hn _].
    apply (closest_is_exact sd cols row er er' (name p)); auto. }
  split; [exact Hmain|]. eexists. split; [exact Hmain|].
  apply in_map, filter_In. split; [exact Her|].
  apply forallb_forall. exact Hexact.
Qed.

Lemma exact_measurement_matches_witness :
  (forall p, In p (parameters subspace_example) ->
             In (name p) (columns (exp_rep subspace_example))) /\
  (forall p, In p (parameters subspace_example) -> In (name p) ["cat"; "num"]) /\
  numeric_columns (parameters subspace_example) (exp_rep subspace_example) /\
  (forall p, In p (parameters subspace_example) -> is_numeric p = true ->
             is_num (cell ["cat"; "num"] [VStr "b"; VNum 5] (name p)) = true) /\
  (forall p er0, In p (parameters subspace_example) -> is_numeric p = true ->
                 In er0 (rows (exp_rep subspace_example)) ->
                 Qle_bool 0 (row_deviation subspace_example ["cat"; "num"]
                                           [VStr "b"; VNum 5] er0 (name p))
                 = true /\
                 Qeq_bool (row_deviation subspace_example ["cat"; "num"]
                                         [VStr "b"; VNum 5] er0 (name p)) 0
                 = value_eqb (cell (columns (exp_rep subspace_example))
                                   (snd er0) (name p))
                             (cell ["cat"; "num"] [VStr "b"; VNum 5] (name p))) /\
  In (1, [VStr "b"; VNum 5]) (rows (exp_rep subspace_example)) /\
  (forall p, In p (parameters subspace_example) ->
             value_eqb (cell (columns (exp_rep subspace_example))
                             (snd (1, [VStr "b"; VNum 5])) (name p))
                       (cell ["cat"; "num"] [VStr "b"; VNum 5] (name p)) = true) /\
  find_matches subspace_example ["cat"; "num"] [VStr "b"; VNum 5] = Ok [1] /\
  exists found,
    find_matches subspace_example ["cat"; "num"] [VStr "b"; VNum 5] = Ok found /\
    In 1 found.
Proof.
  assert (H1 : forall p, In p (parameters subspace_example) ->
                         In (name p) (columns (exp_rep subspace_example))).
  { intros p [<-|[<-|[]]]; simpl; auto. }
  assert (H2 : forall p, In p (parameters subspace_example) ->
                         In (name p) ["cat"; "num"]).
  { intros p [<-|[<-|[]]]; simpl; auto. }
  assert (H4 : forall p, In p (parameters subspace_example) ->
                         is_numeric p = true ->
                         is_num (cell ["cat"; "num"] [VStr "b"; VNum 5] (name p))
                         = true).
  { intros p [<-|[<-|[]]] Hn; try discriminate Hn; reflexivity. }
  assert (Hlaw : forall p er0,
             In p (parameters subspace_example) -> is_numeric p = true ->
             In er0 (rows (exp_rep subspace_example)) ->
             Qle_bool 0 (row_deviation subspace_example ["cat"; "num"]
                                       [VStr "b"; VNum 5] er0 (name p))
             = true /\
             Qeq_bool (row_deviation subspace_example ["cat"; "num"]
                                     [VStr "b"; VNum 5] er0 (name p)) 0
             = value_eqb (cell (columns (exp_rep subspace_example))
                               (snd er0) (name p))
                         (cell ["cat"; "num"] [VStr "b"; VNum 5] (name p))).
  { intros p er0 [<-|[<-|[]]] Hn; try discriminate Hn.
    intros [<-|[<-|[]]]; split; vm_compute; reflexivity. }
  assert (H5 : In (1, [VStr "b"; VNum 5]) (rows (exp_rep subspace_example))).
  { simpl. auto. }
  assert (H6 : forall p, In p (parameters subspace_example) ->
                         value_eqb (cell (columns (exp_rep subspace_example))
                                         (snd (1, [VStr "b"; VNum 5])) (name p))
                                   (cell ["cat"; "num"] [VStr "b"; VNum 5] (name p))
                         = true).
  { intros p [<-|[<-|[]]]; reflexivity. }
  split; [exact H1|]. split; [exact H2|].
  split; [exact subspace_example_numeric|]. split; [exact H4|].
  split; [exact Hlaw|]. split; [exact H5|]. split; [exact H6|].
  exact (exact_measurement_matches
           subspace_example ["cat"; "num"] [VStr "b"; VNum 5]
           (1, [VStr "b"; VNum 5])
           H1 H2 subspace_example_numeric H4 Hlaw H5 H6).
Defined.

(** ** Bounds of the continuous subspace *)

Lemma clip_within (b : bound) :
  within_replacement (clip (- INF_BOUNDS_REPLACEMENT) INF_BOUNDS_REPLACEMENT b).
Proof.
  assert (Hlohi : (- INF_BOUNDS_REPLACEMENT <= INF_BOUNDS_REPLACEMENT)%Q)
    by (unfold INF_BOUNDS_REPLACEMENT; discriminate).
  destruct b as [|q|]; simpl.
  - split; [apply Q.min_glb; [apply Qle_refl|exact Hlohi]|apply Q.le_min_r].
  - split; [|apply Q.le_min_r].
    apply Q.min_glb; [apply Q.le_max_r|exact Hlohi].
  - split; [exact Hlohi|apply Qle_refl].
Qed.

(** X21. Every entry of [bounds_forced_finite] is finite and lies between
    -1000 and 1000, and the tensor has the shape of the declared bounds:
    two rows with one entry per parameter. *)
Theorem bounds_forced_finite_within self :
  Forall within_replacement (fst (bounds_forced_finite self)) /\
  Forall within_replacement (snd (bounds_forced_finite self)) /\
  length (fst (bounds_forced_finite self)) = length (cont_parameters self) /\
  length (snd (bounds_forced_finite self)) = length (cont_parameters self).
Proof.
  unfold bounds_forced_finite, cont_param_bounds_comp, tensor_map.
  destruct (cont_parameters self) as [|p ps]; cbn [fst snd tensor_empty].
  - repeat split; constructor.
  - rewrite !length_map. repeat split; try reflexivity;
      apply Forall_forall; intros b Hb; apply in_map_iff in Hb;
      destruct Hb as [x [<- _]]; apply clip_within.
Qed.

Lemma Qmin_monotone (x y c : Q) : (x <= y)%Q -> (Qmin x c <= Qmin y c)%Q.
Proof. intros H. now apply Q.min_le_compat_r. Qed.

Lemma clip_monotone (a b : bound) :
  bound_le a b ->
  bound_le (clip (- INF_BOUNDS_REPLACEMENT) INF_BOUNDS_REPLACEMENT a)
           (clip (- INF_BOUNDS_REPLACEMENT) INF_BOUNDS_REPLACEMENT b).
Proof.
  assert (Hlohi : (- INF_BOUNDS_REPLACEMENT <= INF_BOUNDS_REPLACEMENT)%Q)
    by (unfold INF_BOUNDS_REPLACEMENT; discriminate).
  destruct a as [|x|], b as [|y|]; simpl; intros H; try contradiction.
  - apply Qle_refl.
  - apply Q.min_le_compat_r. apply Q.le_max_r.
  - apply Q.le_min_r.
  - apply Q.min_le_compat_r. now apply Q.max_le_compat_r.
  - apply Q.le_min_r.
  - apply Qle_refl.
Qed.

Lemma clipped_pairs_ordered (ps : list NumericContinuous) :
  Forall (fun p => bound_le (fst (cont_bounds p)) (snd (cont_bounds p))) ps ->
  Forall (fun lu => bound_le (fst lu) (snd lu))
         (combine
            (map (clip (- INF_BOUNDS_REPLACEMENT) INF_BOUNDS_REPLACEMENT)
                 (map (fun p => fst (cont_bounds p)) ps))
            (map (clip (- INF_BOUNDS_REPLACEMENT) INF_BOUNDS_REPLACEMENT)
                 (map (fun p => snd (cont_bounds p)) ps))).
Proof.
  induction ps as [|p ps IH]; intros H; simpl.
  - constructor.
  - apply Forall_cons_iff in H. destruct H as [Hp H].
    constructor; [|now apply IH]. simpl. now apply clip_monotone.
Qed.

(** X22. Forcing the bounds finite keeps every interval an interval: when
    each parameter's lower bound is at most its upper bound, so is each
    lower entry of [bounds_forced_finite] with respect to the upper entry of
    its column. *)
Theorem bounds_forced_finite_ordered self :
  Forall (fun p => bound_le (fst (cont_bounds p)) (snd (cont_bounds p)))
         (cont_parameters self) ->
  Forall (fun lu => bound_le (fst lu) (snd lu))
         (combine (fst (bounds_forced_finite self))
                  (snd (bounds_forced_finite self))).
Proof.
  unfold bounds_forced_finite, cont_param_bounds_comp, tensor_map.
  destruct (cont_parameters self) as [|p0 ps0].
  - intros _. constructor.
  - intros H. exact (clipped_pairs_ordered (p0 :: ps0) H).
Qed.

Lemma bounds_forced_finite_ordered_witness :
  Forall (fun p => bound_le (fst (cont_bounds p)) (snd (cont_bounds p)))
         [wide_example; half_line_example] /\
  Forall (fun lu => bound_le (fst lu) (snd lu))
         (combine (fst (bounds_forced_finite
                          (mkSubspaceContinuous [wide_example; half_line_example])))
                  (snd (bounds_forced_finite
                          (mkSubspaceContinuous [wide_example; half_line_example])))).
Proof.
  assert (H : Forall (fun p => bound_le (fst (cont_bounds p)) (snd (cont_bounds p)))
                     [wide_example; half_line_example]).
  { repeat constructor. simpl. discriminate. }
  split; [exact H|].
  exact (bounds_forced_finite_ordered
           (mkSubspaceContinuous [wide_example; half_line_example]) H).
Defined.

(** ** Bounds of the discrete subspace *)

Lemma map_nth_seq (E : list string) :
  map (fun i => nth i E "") (seq 0 (length E)) = E.
Proof.
  apply (nth_ext _ _ "" "").
  - now rewrite length_map, length_seq.
  - intros n Hn. rewrite length_map, length_seq in Hn.
    rewrite (nth_indep _ "" ((fun i => nth i E "") 0))
      by (now rewrite length_map, length_seq).
    rewrite (map_nth (fun i => nth i E "")). now rewrite seq_nth.
Qed.

(** In a list of distinct labels, the labels that belong to a selection
    by positions are that selection. *)
Lemma filter_member_of_selection (E : list string) (g : nat -> bool) :
  NoDup E ->
  filter (fun c => mem_string
                     c (map (fun i => nth i E "")
                            (filter g (seq 0 (length E))))) E
  = map (fun i => nth i E "") (filter g (seq 0 (length E))).
Proof.
  intros Hnd.
  set (F := map (fun i => nth i E "") (filter g (seq 0 (length E)))).
  transitivity (filter (fun c => mem_string c F)
                       (map (fun i => nth i E "") (seq 0 (length E)))).
  { now rewrite map_nth_seq. }
  rewrite filter_map_swap. unfold F at 2. f_equal.
  apply filter_ext_in. intros i Hi. apply in_seq in Hi.
  apply eq_true_iff_eq. rewrite mem_string_In. unfold F.
  rewrite in_map_iff. split.
  - intros [j [Hj Hin]]. apply filter_In in Hin. destruct Hin as [Hjs Hg].
    apply in_seq in Hjs.
    assert (j = i) as <-; [|exact Hg].
    apply (proj1 (NoDup_nth E "") Hnd); [lia|lia|exact Hj].
  - intros Hg. exists i. split; [reflexivity|].
    apply filter_In. split; [apply in_seq; lia|exact Hg].
Qed.

(** The columns of [comp_rep] of a subspace as constructed are a selection
    by positions of the encoded columns. *)
Lemma frozen_columns_selection sd :
  constructed sd ->
  exists g,
    columns (comp_rep sd)
    = map (fun i => nth i (encoded_columns (parameters sd)) "")
          (filter g (seq 0 (length (encoded_columns (parameters sd))))).
Proof.
  intros [s0 [Hinit Hcomp]]. rewrite Hcomp. revert Hinit.
  unfold SubspaceDiscrete_init, transform_with.
  destruct (empty_encoding sd || (len (exp_rep sd) <? 1)); simpl.
  - intros [= <-]. simpl. exists (fun _ => false).
    induction (seq 0 (length (encoded_columns (parameters sd))));
      [reflexivity|assumption].
  - match goal with
    | |- context [mapM ?f (parameters sd)] =>
        destruct (mapM f (parameters sd)) as [dfs|] eqn:Hm
    end; simpl; [|discriminate].
    intros [= <-]. simpl.
    destruct (transform_loop_inv _ _ _ Hm) as [_ [Hc _]].
    assert (HE : columns (concat_axis1 dfs) = encoded_columns (parameters sd))
      by (now rewrite concat_axis1_columns, Hc).
    rewrite HE. eexists. reflexivity.
Qed.

(** The comprehension over one parameter, read by label: in a list of
    distinct labels, the entry stacked for a kept label is the entry of
    the label's position. *)
Lemma stack_by_label {B} (P : string -> bool) (h : nat -> B) (d : B)
      (l : list string) (s : nat) :
  NoDup l ->
  flat_map (fun ic => if P (snd ic) then [h (fst ic)] else [])
           (combine (seq s (length l)) l)
  = map (fun c => match list_index c l with
                  | Some i => h (s + i)
                  | None => d
                  end)
        (filter P l).
Proof.
  revert s. induction l as [|c l IH]; intros s Hnd; [reflexivity|].
  inversion Hnd as [|c' l' Hc Hl]; subst.
  cbn [length seq combine flat_map fst snd]. rewrite (IH (S s) Hl).
  assert (Htail :
            map (fun c0 => match list_index c0 l with
                           | Some i => h (S s + i)
                           | None => d
                           end) (filter P l)
            = map (fun c0 => match list_index c0 (c :: l) with
                             | Some i => h (s + i)
                             | None => d
                             end) (filter P l)).
  { apply map_ext_in. intros c0 Hc0. apply filter_In in Hc0.
    destruct Hc0 as [Hc0 _]. simpl.
    destruct (String.eqb c0 c) eqn:E.
    - apply String.eqb_eq in E. subst c0. contradiction.
    - destruct (list_index c0 l) as [i|]; simpl; [|reflexivity].
      now rewrite Nat.add_succ_r. }
  rewrite Htail. cbn [filter].
  destruct (P c); [|reflexivity].
  cbn [map app]. cbn [list_index]. rewrite String.eqb_refl.
  now rewrite Nat.add_0_r.
Qed.

Lemma declared_column_first p ps c :
  In c (comp_columns p) ->
  declared_column (p :: ps) c
  = match list_index c (comp_columns p) with
    | Some i => column_at 0%Q i (comp_df p)
    | None => []
    end.
Proof.
  intros H. unfold declared_column. cbn [find].
  now rewrite (proj2 (mem_string_In c (comp_columns p)) H).
Qed.

Lemma declared_column_later p ps c :
  ~ In c (comp_columns p) ->
  declared_column (p :: ps) c = declared_column ps c.
Proof.
  intros H. unfold declared_column. cbn [find].
  destruct (mem_string c (comp_columns p)) eqn:E; [|reflexivity].
  apply mem_string_In in E. contradiction.
Qed.

(** The comprehension of [param_bounds_comp], read by label: one entry per
    encoded column that is kept, holding the least and the greatest value
    of the column of that label. *)
Lemma bound_columns_by_label (P : string -> bool) ps :
  NoDup (encoded_columns ps) ->
  flat_map
    (fun p =>
       flat_map
         (fun ic =>
            if P (snd ic)
            then [([series_min (column_at 0%Q (fst ic) (comp_df p))],
                   [series_max (column_at 0%Q (fst ic) (comp_df p))])]
            else [])
         (combine (seq 0 (length (comp_columns p))) (comp_columns p)))
    ps
  = map (fun c => ([series_min (declared_column ps c)],
                   [series_max (declared_column ps c)]))
        (filter P (encoded_columns ps)).
Proof.
  unfold encoded_columns.
  induction ps as [|p ps IH]; intros Hnd; [reflexivity|].
  cbn [flat_map map concat] in *. rewrite filter_app, map_app.
  assert (Hp : NoDup (comp_columns p)) by exact (NoDup_app_remove_r _ _ Hnd).
  assert (Hps : NoDup (concat (map comp_columns ps)))
    by exact (NoDup_app_remove_l _ _ Hnd).
  f_equal.
  - rewrite (stack_by_label
               P
               (fun i => ([series_min (column_at 0%Q i (comp_df p))],
                          [series_max (column_at 0%Q i (comp_df p))]))
               ([series_min []], [series_max []]) (comp_columns p) 0 Hp).
    apply map_ext_in. intros c Hc. apply filter_In in Hc.
    rewrite (declared_column_first p ps c (proj1 Hc)).
    destruct (list_index c (comp_columns p)); reflexivity.
  - rewrite (IH Hps). apply map_ext_in. intros c Hc. apply filter_In in Hc.
    rewrite declared_column_later; [reflexivity|].
    intros Hin. revert Hnd. clear -Hin Hc.
    induction (comp_columns p) as [|c0 l IHl]; [destruct Hin|].
    simpl. intros Hnd. inversion Hnd as [|c' l' Hc0 Hl]; subst.
    destruct Hin as [->|Hin]; [|exact (IHl Hin Hl)].
    apply Hc0, in_or_app. right. exact (proj1 Hc).
Qed.

Lemma hstack_single_entries {A} (lo hi : string -> A) (l : list string) :
  hstack (map (fun c => ([lo c], [hi c])) l) = (map lo l, map hi l).
Proof.
  unfold hstack. induction l as [|c l IH]; [reflexivity|].
  cbn [map concat fst snd app] in *.
  injection IH as H1 H2. now rewrite H1, H2.
Qed.

Lemma np_hstack_single_entries {A} (lo hi : string -> A) (l : list string) :
  np_hstack (map (fun c => ([lo c], [hi c])) l)
  = match l with
    | [] => Raise ValueError_nothing_to_concatenate
    | _ => Ok (map lo l, map hi l)
    end.
Proof.
  destruct l as [|c l]; [reflexivity|].
  rewrite <- hstack_single_entries. reflexivity.
Qed.

(** X23. For a subspace as constructed whose encoded column labels are
    distinct, the bounds that [param_bounds_comp] of the discrete subspace
    returns are, column by column in the order of [comp_rep], the least and
    the greatest encoded value that the parameter owning the column
    declares for it: one bound per column of [comp_rep], the lower bounds
    in the first row and the upper bounds in the second. *)
Theorem discrete_bounds_follow_comp_rep sd t :
  constructed sd ->
  NoDup (encoded_columns (parameters sd)) ->
  disc_param_bounds_comp sd = Ok t ->
  fst t = map (fun c => Finite (series_min (declared_column (parameters sd) c)))
              (columns (comp_rep sd)) /\
  snd t = map (fun c => Finite (series_max (declared_column (parameters sd) c)))
              (columns (comp_rep sd)).
Proof.
  intros Hcon Hnd.
  destruct (frozen_columns_selection sd Hcon) as [g Hg].
  assert (Hkept : filter (fun c => mem_string c (columns (comp_rep sd)))
                         (encoded_columns (parameters sd))
                  = columns (comp_rep sd)).
  { rewrite Hg. now apply filter_member_of_selection. }
  pose proof (bound_columns_by_label
                (fun c => mem_string c (columns (comp_rep sd)))
                (parameters sd) Hnd) as Hstack.
  rewrite Hkept in Hstack.
  unfold disc_param_bounds_comp, bound_columns.
  rewrite Hstack, np_hstack_single_entries.
  destruct (parameters sd) as [|p ps].
  - intros [= <-]. rewrite Hg. split; reflexivity.
  - destruct (columns (comp_rep sd)) as [|c cs]; [discriminate|].
    cbn [bind]. intros [= <-]. unfold tensor_map. cbn [fst snd map].
    rewrite !map_map. split; reflexivity.
Qed.

Lemma discrete_bounds_follow_comp_rep_witness :
  constructed subspace_example /\
  NoDup (encoded_columns (parameters subspace_example)) /\
  disc_param_bounds_comp subspace_example
  = Ok ([Finite 0; Finite 0; Finite 1], [Finite 1; Finite 1; Finite 5]) /\
  columns (comp_rep subspace_example) = ["cat_a"; "cat_b"; "num"] /\
  [Finite 0; Finite 0; Finite 1]
  = map (fun c => Finite (series_min
                            (declared_column (parameters subspace_example) c)))
        (columns (comp_rep subspace_example)) /\
  [Finite 1; Finite 1; Finite 5]
  = map (fun c => Finite (series_max
                            (declared_column (parameters subspace_example) c)))
        (columns (comp_rep subspace_example)).
Proof.
  assert (H1 : constructed subspace_example).
  { exists subspace_example. split; reflexivity. }
  assert (H2 : NoDup (encoded_columns (parameters subspace_example))).
  { simpl. repeat constructor; simpl; intuition discriminate. }
  assert (H3 : disc_param_bounds_comp subspace_example
               = Ok ([Finite 0; Finite 0; Finite 1],
                     [Finite 1; Finite 1; Finite 5])) by reflexivity.
  split; [exact H1|]. split; [exact H2|]. split; [exact H3|].
  split; [reflexivity|].
  exact (discrete_bounds_follow_comp_rep subspace_example _ H1 H2 H3).
Defined.

Lemma bound_columns_without_columns sd :
  columns (comp_rep sd) = [] -> bound_columns sd = [].
Proof.
  intros H. unfold bound_columns. rewrite H.
  induction (parameters sd) as [|p ps IH]; [reflexivity|].
  cbn [flat_map]. rewrite IH, app_nil_r.
  induction (combine (seq 0 (length (comp_columns p))) (comp_columns p))
    as [|ic l IHl]; [reflexivity|].
  cbn [flat_map]. rewrite IHl. reflexivity.
Qed.

(** X24. A discrete subspace that [create] has built with parameters and
    the empty encoding has no bounds: [param_bounds_comp] of the subspace,
    and with it [param_bounds_comp] of a space that holds it, raises the
    ValueError of [np.hstack] for an empty list. *)
Theorem empty_encoding_has_no_bounds order params constraints sd sp :
  create order params constraints true = Ok sd ->
  params <> [] ->
  discrete sp = sd ->
  disc_param_bounds_comp sd = Raise ValueError_nothing_to_concatenate /\
  param_bounds_comp sp = Raise ValueError_nothing_to_concatenate.
Proof.
  intros Hc Hne Hsp.
  destruct (create_fields _ _ _ _ _ Hc) as [Hp Hee].
  destruct (create_constructed _ _ _ _ _ Hc) as [s0 [Hinit Hcomp]].
  destruct (SubspaceDiscrete_init_inv _ _ _ _ Hinit)
    as [_ [_ [_ [_ [_ [Hempty _]]]]]].
  assert (Hcols : columns (comp_rep sd) = []).
  { rewrite Hcomp. apply Hempty. left. exact Hee. }
  assert (Hd : disc_param_bounds_comp sd
               = Raise ValueError_nothing_to_concatenate).
  { unfold disc_param_bounds_comp. rewrite Hp.
    destruct params as [|p ps]; [congruence|].
    now rewrite (bound_columns_without_columns sd Hcols). }
  split; [exact Hd|]. unfold param_bounds_comp. now rewrite Hsp, Hd.
Qed.

Lemma empty_encoding_has_no_bounds_witness :
  exists sd,
    create [] [A_disc] None true = Ok sd /\
    [A_disc] <> [] /\
    disc_param_bounds_comp sd = Raise ValueError_nothing_to_concatenate.
Proof.
  destruct (create [] [A_disc] None true) as [sd|e] eqn:E; [|discriminate E].
  exists sd. split; [reflexivity|]. split; [discriminate|].
  exact (proj1 (empty_encoding_has_no_bounds
                  [] [A_disc] None sd
                  (mkSearchSpace sd (mkSubspaceContinuous []) [Discrete A_disc] true)
                  E (fun h => @nil_cons _ A_disc [] (eq_sym h))
                  eq_refl)).
Defined.

(** ** SubspaceContinuous.transform *)

Lemma positions_nonempty_In (c : string) (l : list string) :
  positions c l <> [] -> In c l.
Proof.
  intros H. destruct (in_dec string_dec c l) as [Hin|Hout]; [exact Hin|].
  exfalso. apply H. unfold positions. now apply positions_from_absent.
Qed.

Lemma select_inv {A} (d : A) (cols : list string) (df out : DataFrame A) :
  select d cols df = Ok out -> incl cols (columns df).
Proof.
  unfold select.
  match goal with
  | |- context [mapM ?f cols] => set (look := f)
  end.
  destruct (mapM look cols) as [pss|] eqn:Hm; simpl; [|discriminate].
  intros _. revert pss Hm. induction cols as [|c cols IH]; intros pss; simpl.
  - intros _ x [].
  - unfold look at 1.
    destruct (positions c (columns df)) as [|i ps] eqn:Hp; simpl;
      [discriminate|].
    destruct (mapM look cols) as [qss|]; simpl; [|discriminate].
    intros _ x [<-|Hx].
    + apply positions_nonempty_In. rewrite Hp. discriminate.
    + exact (IH qss eq_refl x Hx).
Qed.

(** X26. [SubspaceContinuous.transform] succeeds exactly when the data has
    a column for every continuous parameter; it then keeps the rows' labels
    and returns the columns of the parameters and no other (in parameter
    order when the data's column labels are distinct). *)
Theorem cont_transform_selects self (data : DataFrame value) :
  ((exists out, cont_transform self data = Ok out) <->
   (forall p, In p (cont_parameters self) -> In (cont_name p) (columns data))) /\
  forall out,
    cont_transform self data = Ok out ->
    index out = index data /\
    (forall c, In c (columns out)
               <-> In c (map cont_name (cont_parameters self))) /\
    (NoDup (columns data) ->
     columns out = map cont_name (cont_parameters self)).
Proof.
  unfold cont_transform. split.
  - split.
    + intros [out H] p Hp. apply (select_inv _ _ _ _ H). now apply in_map.
    + intros H. rewrite select_ok; [eauto|].
      intros c Hc. apply in_map_iff in Hc. destruct Hc as [p [<- Hp]].
      now apply H.
  - intros out H. pose proof (select_inv _ _ _ _ H) as Hincl.
    rewrite (select_ok _ _ _ Hincl) in H. injection H as <-.
    split; [apply take_columns_index|]. split.
    + intros c. now apply selected_columns_same_set.
    + intros Hnd. now apply selected_columns_NoDup.
Qed.

(** ** The dictionary form of a created space *)

Lemma from_dict_to_dict_reloaded (sp : SearchSpace) :
  constructed (discrete sp) ->
  1 <= length (space_parameters sp) ->
  from_dict (to_dict sp) = Ok (reloaded sp).
Proof.
  intros Hc Hlen.
  unfold from_dict, to_dict. cbn [dict_get String.eqb Ascii.eqb Bool.eqb].
  unfold structure_hook, unstructure_SubspaceDiscrete, dict_pop.
  cbn [dict_get String.eqb Ascii.eqb Bool.eqb bind snd filter fst negb].
  unfold structure_attrs_fromdict_SubspaceDiscrete, dict_has.
  cbn [dict_get String.eqb Ascii.eqb Bool.eqb orb].
  rewrite (SubspaceDiscrete_init_reloads _ Hc).
  cbn [bind]. unfold structure_SubspaceContinuous, unstructure_SubspaceContinuous.
  cbn [dict_get String.eqb Ascii.eqb Bool.eqb bind].
  unfold SearchSpace_init.
  replace (length (space_parameters sp) <? 1) with false
    by (symmetry; apply Nat.ltb_ge; exact Hlen).
  unfold reloaded. destruct (continuous sp). reflexivity.
Qed.

(** X27. A space that [SearchSpace.create] has just returned comes back
    from its dictionary form unchanged: [from_dict (to_dict space)] is the
    space. *)
Theorem created_space_round_trips order ps constraints ee sp :
  SearchSpace_create order ps constraints ee = Ok sp ->
  from_dict (to_dict sp) = Ok sp.
Proof.
  intros H. destruct (SearchSpace_create_inv _ _ _ _ _ H) as [sd [Hc [Hlen ->]]].
  rewrite from_dict_to_dict_reloaded.
  - f_equal. unfold reloaded. simpl.
    rewrite <- (create_metadata_fresh _ _ _ _ _ Hc).
    destruct (create_fields _ _ _ _ _ Hc) as [_ Hee].
    destruct sd. simpl in *. now subst.
  - simpl. exact (create_constructed _ _ _ _ _ Hc).
  - exact Hlen.
Qed.

Lemma created_space_round_trips_witness :
  exists sp,
    SearchSpace_create [] bounds_order_parameters None false = Ok sp /\
    from_dict (to_dict sp) = Ok sp.
Proof.
  destruct (SearchSpace_create [] bounds_order_parameters None false)
    as [sp|e] eqn:E; [|discriminate E].
  exists sp. split; [reflexivity|].
  exact (created_space_round_trips [] bounds_order_parameters None false sp E).
Defined.
